(** * rCholWishart.c: sampling Cholesky factors of Wishart variates

    A shallow embedding of [src/rCholWishart.c] (the three C functions
    [std_rWishart_factor], [rInvCholWishart] and [rCholWishart]) and the
    properties of it that the specification relies on.

    The C code runs inside R and calls out to R's allocator, R's random
    number generator and to LAPACK/BLAS.  None of those is part of the
    repository: they enter the model as a [Host], an interface whose
    operations the code calls and about which nothing is assumed except
    where a theorem says so.

    - Doubles are the host's type [D], with the few operations the code
      applies to them.
    - C [int]s are integers of [Z]; every [int] addition and multiplication
      of the code is written with the reduction to 32 bits ([iadd],
      [imul]).  Theorems about the contents of buffers assume sizes for
      which that reduction does nothing, the sizes for which C defines the
      arithmetic.
    - Memory is a heap of blocks of doubles at locations; Calloc and
      alloc3DArray take a location that is not in use, and a routine that
      is handed a pointer changes the block at that location.
    - R's [error()] abandons the call: a computation ends in [Ok] or in
      [Raise] with the message, and in both cases leaves a world.  The
      errors are those of the C file and those that R and LAPACK raise on
      the way for arguments they refuse: [INTEGER()] applied to a missing
      [dim] attribute, xerbla for an order or a leading dimension that
      dpotrf rejects.
    - The calls of the allocator, of the generator and of LAPACK/BLAS are
      recorded, in order, in a trace of events.

    Left out: the conversions [asInteger(ns)] and [asReal(nuP)] (the entry
    points take the converted values), PROTECT/UNPROTECT, and failure of
    the allocator.  Stores outside a block and sizes beyond the range of
    [int] are undefined in C or refused by the allocator; the model goes
    on there (see [upd], [memset0], [Calloc]).  The lemmas on the way are
    about the model at every size; the theorems on the three C functions
    that say that a call returns are stated for the sizes for which C
    defines what the code does. *)

From stdpp Require Import base list gmap strings fin_maps.
From Stdlib Require Import ZArith Lia.

Open Scope Z_scope.

(** ** C [int] arithmetic *)

Definition INT_MAX : Z := 2147483647.
Definition INT_MIN : Z := -2147483648.

(** Reduction of an integer to the range of a 32-bit [int]. *)
Definition int32 (z : Z) : Z := (z + 2147483648) `mod` 4294967296 - 2147483648.

Definition iadd (a b : Z) : Z := int32 (a + b).
Definition imul (a b : Z) : Z := int32 (a * b).

Definition in_int (z : Z) : Prop := INT_MIN <= z <= INT_MAX.

(** ** The host: R's runtime, its generator, and LAPACK/BLAS *)

(** Locations of heap blocks. *)
Definition loc := positive.

Class Host (D rng : Type) := {
  (** double arithmetic used by the C code *)
  d_zero : D;                          (* the double 0 *)
  d_one : D;                           (* the double 1 *)
  d_of_int : Z -> D;                   (* the cast (double) of an int *)
  d_sub : D -> D -> D;                 (* subtraction of doubles *)
  d_sqrt : D -> D;                     (* sqrt *)
  d_lt : D -> D -> bool;               (* comparison < of doubles *)
  (** contents of a freshly allocated, not initialised block *)
  h_stale : nat -> D;
  (** Rmath: one chi-squared variate, one standard-normal variate *)
  h_rchisq : D -> rng -> D * rng;
  h_norm_rand : rng -> D * rng;
  (** LAPACK dpotrf, uplo = U, order and leading dimension n:
      new contents of the matrix and info *)
  h_dpotrf : Z -> list D -> list D * Z;
  (** BLAS dtrmm, side = R, uplo = U, transa = N, diag = N, m = n = lda = ldb:
      [h_dtrmm n alpha a b] is the new contents of b *)
  h_dtrmm : Z -> D -> list D -> list D -> list D;
  (** LAPACK dtrtri, uplo = U, diag = N, order and leading dimension n:
      new contents of the matrix and info *)
  h_dtrtri : Z -> list D -> list D * Z
}.

(** R's vector types that may carry a [dim] attribute. *)
Inductive SEXPTYPE := LGLSXP | INTSXP | REALSXP | CPLXSXP | STRSXP.

Global Instance SEXPTYPE_eq_dec : EqDecision SEXPTYPE.
Proof. solve_decision. Defined.

(** An R vector: its type, its [dim] attribute and the location of its
    data block.  R keeps the extents of a [dim] attribute non-negative and
    does not accept an empty one: [sx_dim = []] is an object without the
    attribute, a plain vector. *)
Record SEXP := mkSEXP {
  sx_type : SEXPTYPE;
  sx_dim : list N;
  sx_data : loc
}.

Definition isMatrix (s : SEXP) : bool := bool_decide (length (sx_dim s) = 2%nat).
Definition isReal (s : SEXP) : bool := bool_decide (sx_type s = REALSXP).
(** [dims[k]] for [dims = INTEGER(getAttrib(s, R_DimSymbol))].  The code
    reads [dims] only after [INTEGER()] has returned ([dim_array] below),
    that is for an object with the attribute, and [dims[1]] only for a
    matrix; the 0 for an entry that is not there is never used. *)
Definition dims (s : SEXP) (k : nat) : Z := Z.of_N (default 0%N (sx_dim s !! k)).
Definition REAL (s : SEXP) : loc := sx_data s.

(** ** Observable events, in the order in which they happen *)

Inductive event (D : Type) :=
  | EvAlloc3D (nrow ncol nface : Z)      (* alloc3DArray *)
  | EvCalloc (n : Z)                     (* Calloc *)
  | EvFree                               (* Free *)
  | EvDpotrf (n : Z) (a : list D) (info : Z)   (* dpotrf on contents a *)
  | EvDtrmm (n : Z)                      (* dtrmm *)
  | EvDtrtri (n : Z) (info : Z)          (* dtrtri and the info it reports *)
  | EvGetRNG                             (* GetRNGstate *)
  | EvPutRNG                             (* PutRNGstate *)
  | EvChisq (df : D)                     (* rchisq(df) *)
  | EvNorm.                              (* norm_rand() *)
Arguments EvAlloc3D {D}.
Arguments EvCalloc {D}.
Arguments EvFree {D}.
Arguments EvDpotrf {D}.
Arguments EvDtrmm {D}.
Arguments EvDtrtri {D}.
Arguments EvGetRNG {D}.
Arguments EvPutRNG {D}.
Arguments EvChisq {D}.
Arguments EvNorm {D}.

(** ** The state the C code runs in *)

Record world (D rng : Type) := mkWorld {
  heap : gmap loc (list D);
  gen : rng;
  trace : list (event D)
}.
Arguments mkWorld {D rng}.
Arguments heap {D rng}.
Arguments gen {D rng}.
Arguments trace {D rng}.

(** R's [error()] does not return: the call is abandoned where it stands. *)
Inductive outcome (A : Type) :=
  | Ok (a : A)
  | Raise (msg : string).
Arguments Ok {A}.
Arguments Raise {A}.

Definition msg_dof : string := "inconsistent degrees of freedom and dimension".
Definition msg_shape : string := "'scal' must be a square, real matrix".
Definition msg_pd : string := "'scal' matrix is not positive-definite".
(** R's own: [INTEGER()] of R_NilValue, alloc3DArray, and xerbla for the
    second and the fourth argument of dpotrf. *)
Definition msg_integer : string :=
  "INTEGER() can only be applied to a 'integer', not a 'NULL'".
Definition msg_extents : string := "negative extents to 3D array".
Definition msg_xerbla_n : string := "BLAS/LAPACK routine 'DPOTRF' gave error code -2".
Definition msg_xerbla_lda : string := "BLAS/LAPACK routine 'DPOTRF' gave error code -4".

Section Model.
Context {D rng : Type} `{!Host D rng}.

Local Abbreviation world := (world D rng).
Local Abbreviation event := (event D).

Definition M (A : Type) : Type := world -> outcome A * world.

Definition ret {A} (a : A) : M A := fun w => (Ok a, w).

Definition bind {A B} (m : M A) (k : A -> M B) : M B :=
  fun w => match m w with
           | (Ok a, w') => k a w'
           | (Raise msg, w') => (Raise msg, w')
           end.

Definition error {A} (msg : string) : M A := fun w => (Raise msg, w).

Definition emit (e : event) : M unit :=
  fun w => (Ok tt, mkWorld (heap w) (gen w) (trace w ++ [e])).

End Model.

Declare Scope wish_scope.
Delimit Scope wish_scope with wish.
Notation "x <- m ;; k" := (bind m (fun x => k))
  (at level 100, m at next level, right associativity) : wish_scope.
Notation "m ;; k" := (bind m (fun _ => k))
  (at level 100, right associativity) : wish_scope.
Open Scope wish_scope.

Section Memory.
Context {D rng : Type} `{!Host D rng}.

Local Abbreviation world := (world D rng).
Local Abbreviation event := (event D).
Local Abbreviation M := (@M D rng).

(** The block at a location; a location with no block reads as the empty
    block (in C, using it is undefined). *)
Definition block (w : world) (l : loc) : list D := default [] (heap w !! l).

Definition set_block (l : loc) (b : list D) : M unit :=
  fun w => (Ok tt, mkWorld (<[l := b]> (heap w)) (gen w) (trace w)).

(** A new block, at a location not in use. *)
Definition new_block (b : list D) : M loc :=
  fun w => let l := fresh (dom (heap w)) in
           (Ok l, mkWorld (<[l := b]> (heap w)) (gen w) (trace w)).

(** [b[i]] and [b[i] = v] on the contents of a block.  Outside the block
    both are undefined in C: the model reads 0 and writes nothing. *)
Definition rd (b : list D) (i : Z) : D :=
  if i <? 0 then d_zero else default d_zero (b !! Z.to_nat i).

Definition upd (b : list D) (i : Z) (v : D) : list D :=
  if i <? 0 then b else <[Z.to_nat i := v]> b.

(** [p[i]] as an rvalue *)
Definition load (l : loc) (i : Z) : M D :=
  fun w => (Ok (rd (block w l) i), w).

(** [p[i] = v] *)
Definition store (l : loc) (i : Z) (v : D) : M unit :=
  fun w => set_block l (upd (block w l) i v) w.

(** [memset(p, 0, n * sizeof(double))]: the first [n] doubles of the block
    become 0.  ([n] beyond the block is undefined in C; the model writes
    the [n] zeros all the same.) *)
Definition memset0 (l : loc) (n : Z) : M unit :=
  fun w => let b := block w l in
           set_block l (replicate (Z.to_nat n) d_zero ++ drop (Z.to_nat n) b) w.

(** [Memcpy(dst, src, n)]: the first [n] doubles of [src] over those of
    [dst] ([n] beyond either block is undefined in C). *)
Definition Memcpy (dst src : loc) (n : Z) : M unit :=
  fun w => let d := block w dst in
           let s := block w src in
           set_block dst (take (Z.to_nat n) s ++ drop (Z.to_nat n) d) w.

(** A routine that works in place cannot resize the block it is given:
    the new contents are written over the old ones. *)
Definition overwrite (old new : list D) : list D :=
  take (length old) new ++ drop (length new) old.

End Memory.

Section Runtime.
Context {D rng : Type} `{!Host D rng}.

Local Abbreviation world := (world D rng).
Local Abbreviation event := (event D).
Local Abbreviation M := (@M D rng).

(** [alloc3DArray(REALSXP, nrow, ncol, nface)]: a new R array whose data
    block holds [nrow * ncol * nface] doubles that are not initialised.
    R refuses negative extents. *)
Definition alloc3DArray (nrow ncol nface : Z) : M SEXP :=
  emit (EvAlloc3D nrow ncol nface) ;;
  if (nrow <? 0) || (ncol <? 0) || (nface <? 0) then error msg_extents else
  l <- new_block (h_stale <$> seq 0 (Z.to_nat (nrow * ncol * nface))) ;;
  ret (mkSEXP REALSXP [Z.to_N nrow; Z.to_N ncol; Z.to_N nface] l).

(** [INTEGER(getAttrib(s, R_DimSymbol))], the initialiser of [dims] at
    lines 81 and 144: for an object without a [dim] attribute getAttrib
    gives R_NilValue, and [INTEGER()] raises.  With the attribute, [dims]
    reads its entries. *)
Definition dim_array (s : SEXP) : M unit :=
  if bool_decide (sx_dim s = []) then error msg_integer else ret tt.

(** [Calloc(n, double)]: a new block of [n] doubles, all 0.  (R refuses a
    count that is negative as an [int], which is what [psqr] is after an
    overflow; the model then gives an empty block.) *)
Definition Calloc (n : Z) : M loc :=
  emit (EvCalloc n) ;;
  new_block (replicate (Z.to_nat n) d_zero).

(** [Free(p)] *)
Definition Free (l : loc) : M unit :=
  emit EvFree ;;
  fun w => (Ok tt, mkWorld (delete l (heap w)) (gen w) (trace w)).

Definition GetRNGstate : M unit := emit EvGetRNG.
Definition PutRNGstate : M unit := emit EvPutRNG.

(** [rchisq(df)] and [norm_rand()] take the next variate from the stream. *)
Definition rchisq (df : D) : M D :=
  emit (EvChisq df) ;;
  fun w => let '(x, g) := h_rchisq df (gen w) in
           (Ok x, mkWorld (heap w) g (trace w)).

Definition norm_rand : M D :=
  emit EvNorm ;;
  fun w => let '(x, g) := h_norm_rand (gen w) in
           (Ok x, mkWorld (heap w) g (trace w)).

(** [F77_CALL(dpotrf)("U", &n, a, &n, &info)]; the result is [info].
    dpotrf tests its arguments first: the order must not be negative
    (argument 2), and the leading dimension, which the code passes as the
    order, must be at least max(1, n) (argument 4).  When a test fails
    dpotrf sets [info] to minus the number of the argument, leaves the
    matrix as it is and calls xerbla, which in R raises an error. *)
Definition dpotrf (n : Z) (a : loc) : M Z :=
  fun w => let old := block w a in
           if n <? 0 then (emit (EvDpotrf n old (-2)) ;; error msg_xerbla_n) w else
           if n <? Z.max 1 n then (emit (EvDpotrf n old (-4)) ;; error msg_xerbla_lda) w else
           let '(new, info) := h_dpotrf n old in
           (emit (EvDpotrf n old info) ;;
            set_block a (overwrite old new) ;;
            ret info) w.

(** [F77_CALL(dtrmm)("R", "U", "N", "N", &n, &n, &alpha, a, &n, b, &n)] *)
Definition dtrmm (n : Z) (alpha : D) (a b : loc) : M unit :=
  fun w => let old := block w b in
           (emit (EvDtrmm n) ;;
            set_block b (overwrite old (h_dtrmm n alpha (block w a) old))) w.

(** [F77_CALL(dtrtri)("U", "N", &n, a, &n, &info)]; the result is [info]. *)
Definition dtrtri (n : Z) (a : loc) : M Z :=
  fun w => let old := block w a in
           let '(new, info) := h_dtrtri n old in
           (emit (EvDtrtri n info) ;;
            set_block a (overwrite old new) ;;
            ret info) w.

(** [for (int j = lo; j < hi; j++) body(j)] *)
Fixpoint for_from (k : nat) (j : Z) (body : Z -> M unit) : M unit :=
  match k with
  | O => ret tt
  | S k' => body j ;; for_from k' (j + 1) body
  end.

Definition for_ (lo hi : Z) (body : Z -> M unit) : M unit :=
  for_from (Z.to_nat (hi - lo)) lo body.

(** ** [std_rWishart_factor] (lines 46-65) *)

Definition std_rWishart_factor (nu : D) (p : Z) (upper : Z) (ans : loc) : M loc :=
  let pp1 := iadd p 1 in
  if d_lt nu (d_of_int p) || (p <=? 0) then error msg_dof else
  memset0 ans (imul p p) ;;
  for_ 0 p (fun j =>                               (* jth column *)
    c <- rchisq (d_sub nu (d_of_int j)) ;;
    store ans (imul j pp1) (d_sqrt c) ;;
    for_ 0 j (fun i =>
      let uind := iadd i (imul j p) in             (* upper triangle index *)
      let lind := iadd j (imul i p) in             (* lower triangle index *)
      x <- norm_rand ;;
      store ans (if upper =? 0 then lind else uind) x ;;
      store ans (if upper =? 0 then uind else lind) d_zero)) ;;
  ret ans.

(** The block [ansj = ansp + off]: reads and writes go to [ansp] at the
    offset. *)
Definition store_at (l : loc) (off i : Z) (v : D) : M unit := store l (off + i) v.

(** ** [rInvCholWishart] (lines 77-127) *)

Definition rInvCholWishart (ns : Z) (nuP : D) (scal : SEXP) : M SEXP :=
  dim_array scal ;;
  let n := ns in
  let nu := nuP in
  let one := d_one in
  if negb (isMatrix scal) || negb (isReal scal) || negb (dims scal 0 =? dims scal 1)
  then error msg_shape else
  let n := if n <=? 0 then 1 else n in
  (* allocate early to avoid memory leaks in Callocs below. *)
  ans <- alloc3DArray (dims scal 0) (dims scal 0) n ;;
  let psqr := imul (dims scal 0) (dims scal 0) in
  tmp <- Calloc psqr ;;
  scCp <- Calloc psqr ;;
  Memcpy scCp (REAL scal) psqr ;;
  memset0 tmp psqr ;;
  info <- dpotrf (dims scal 0) scCp ;;
  if negb (info =? 0) then error msg_pd else
  let ansp := REAL ans in
  GetRNGstate ;;
  for_ 0 n (fun j =>
    let ansj := imul j psqr in
    std_rWishart_factor nu (dims scal 0) 1 tmp ;;
    dtrmm (dims scal 0) one scCp tmp ;;
    info <- dtrtri (dims scal 1) tmp ;;
    for_ 0 (dims scal 0) (fun i =>
      for_ 0 (dims scal 0) (fun k =>
        v <- load tmp (iadd i (imul k (dims scal 0))) ;;
        store_at ansp ansj (iadd i (imul k (dims scal 0))) v))) ;;
  PutRNGstate ;;
  Free scCp ;; Free tmp ;;
  ret ans.

(** ** [rCholWishart] (lines 140-185) *)

Definition rCholWishart (ns : Z) (nuP : D) (scal : SEXP) : M SEXP :=
  dim_array scal ;;
  let n := ns in
  let nu := nuP in
  let one := d_one in
  if negb (isMatrix scal) || negb (isReal scal) || negb (dims scal 0 =? dims scal 1)
  then error msg_shape else
  let n := if n <=? 0 then 1 else n in
  (* allocate early to avoid memory leaks in Callocs below. *)
  ans <- alloc3DArray (dims scal 0) (dims scal 0) n ;;
  let psqr := imul (dims scal 0) (dims scal 0) in
  tmp <- Calloc psqr ;;
  scCp <- Calloc psqr ;;
  Memcpy scCp (REAL scal) psqr ;;
  memset0 tmp psqr ;;
  info <- dpotrf (dims scal 0) scCp ;;
  if negb (info =? 0) then error msg_pd else
  let ansp := REAL ans in
  GetRNGstate ;;
  for_ 0 n (fun j =>
    let ansj := imul j psqr in
    std_rWishart_factor nu (dims scal 0) 1 tmp ;;
    dtrmm (dims scal 0) one scCp tmp ;;
    for_ 0 (dims scal 0) (fun i =>
      for_ 0 (dims scal 0) (fun k =>
        v <- load tmp (iadd i (imul k (dims scal 0))) ;;
        store_at ansp ansj (iadd i (imul k (dims scal 0))) v))) ;;
  PutRNGstate ;;
  Free scCp ;; Free tmp ;;
  ret ans.

End Runtime.

(** ** Vocabulary of the properties *)

Section Vocabulary.
Context {D rng : Type} `{!Host D rng}.

Local Abbreviation world := (world D rng).
Local Abbreviation event := (event D).
Local Abbreviation M := (@M D rng).

(** [wp m Q w]: running [m] from [w] ends in an outcome and a world that
    satisfy [Q]. *)
Definition wp {A} (m : M A) (Q : outcome A -> world -> Prop) (w : world) : Prop :=
  Q (m w).1 (m w).2.

(** The argument is a square, real matrix (what line 85 and line 149 test). *)
Definition square_real (scal : SEXP) : Prop :=
  length (sx_dim scal) = 2%nat /\ sx_type scal = REALSXP /\ dims scal 0 = dims scal 1.

Global Instance square_real_dec (scal : SEXP) : Decision (square_real scal).
Proof. unfold square_real. apply _. Defined.

(** The sample count after line 88 / line 151. *)
Definition coerced (n : Z) : Z := if n <=? 0 then 1 else n.

(** Contents of [scCp] when dpotrf is called: the first [psqr] doubles of
    the scale matrix, copied over the [psqr] zeros from Calloc. *)
Definition scale_copy (psqr : Z) (a : list D) : list D := take (Z.to_nat psqr) a.

(** The argument carries a [dim] attribute. *)
Definition has_dims (scal : SEXP) : Prop := sx_dim scal <> [].

(** What dpotrf stores in [info] and what it leaves of a matrix [a]:
    nothing is done to the matrix when xerbla is called. *)
Definition dpotrf_info (n : Z) (a : list D) : Z :=
  if n <? 0 then -2 else if n <? 1 then -4 else (h_dpotrf n a).2.

Definition dpotrf_block (n : Z) (a : list D) : list D :=
  if n <? 1 then a else overwrite a (h_dpotrf n a).1.

(** Events up to and including the factorisation of the scale matrix. *)
Definition setup_events (p n : Z) (a : list D) : list event :=
  let psqr := imul p p in
  [EvAlloc3D p p (coerced n); EvCalloc psqr; EvCalloc psqr;
   EvDpotrf p (scale_copy psqr a) (dpotrf_info p (scale_copy psqr a))].

Definition is_alloc (e : event) : bool :=
  match e with EvAlloc3D _ _ _ => true | _ => false end.
Definition is_get (e : event) : bool :=
  match e with EvGetRNG => true | _ => false end.
Definition is_put (e : event) : bool :=
  match e with EvPutRNG => true | _ => false end.
Definition is_draw (e : event) : bool :=
  match e with EvChisq _ | EvNorm => true | _ => false end.

(** Events of the loop of the entry points. *)
Definition is_loop_event (e : event) : bool :=
  match e with
  | EvChisq _ | EvNorm | EvDtrmm _ | EvDtrtri _ _ => true
  | _ => false
  end.

(** No event of the list touches the bracket or draws. *)
Definition quiet (t : list event) : Prop :=
  Forall (fun e => is_get e = false /\ is_put e = false /\ is_draw e = false) t.

Definition count (f : event -> bool) (t : list event) : nat := length (filter f t).

(** *** Both entry points as one function of the mode

    [rInvCholWishart] and [rCholWishart] are the same text but for the call
    of dtrtri; [sampler true] and [sampler false] unfold to them. *)

Definition copy_out (scal : SEXP) (ansp tmp : loc) (j : Z) : M unit :=
  for_ 0 (dims scal 0) (fun i =>
    for_ 0 (dims scal 0) (fun k =>
      v <- load tmp (iadd i (imul k (dims scal 0))) ;;
      store_at ansp (imul j (imul (dims scal 0) (dims scal 0)))
               (iadd i (imul k (dims scal 0))) v)).

Definition round (inv : bool) (nu : D) (scal : SEXP) (ansp tmp scCp : loc) (j : Z) : M unit :=
  std_rWishart_factor nu (dims scal 0) 1 tmp ;;
  dtrmm (dims scal 0) d_one scCp tmp ;;
  if inv then (info <- dtrtri (dims scal 1) tmp ;; copy_out scal ansp tmp j)
  else copy_out scal ansp tmp j.

Definition sampling (inv : bool) (n : Z) (nu : D) (scal ans : SEXP) (tmp scCp : loc) : M SEXP :=
  GetRNGstate ;;
  for_ 0 n (round inv nu scal (REAL ans) tmp scCp) ;;
  PutRNGstate ;;
  Free scCp ;; Free tmp ;;
  ret ans.

Definition sampler (inv : bool) (ns : Z) (nuP : D) (scal : SEXP) : M SEXP :=
  dim_array scal ;;
  if negb (isMatrix scal) || negb (isReal scal) || negb (dims scal 0 =? dims scal 1)
  then error msg_shape else
  ans <- alloc3DArray (dims scal 0) (dims scal 0) (coerced ns) ;;
  tmp <- Calloc (imul (dims scal 0) (dims scal 0)) ;;
  scCp <- Calloc (imul (dims scal 0) (dims scal 0)) ;;
  Memcpy scCp (REAL scal) (imul (dims scal 0) (dims scal 0)) ;;
  memset0 tmp (imul (dims scal 0) (dims scal 0)) ;;
  info <- dpotrf (dims scal 0) scCp ;;
  if negb (info =? 0) then error msg_pd else
  sampling inv (coerced ns) nuP scal ans tmp scCp.

(** The heap while the loop runs: the caller's heap [h] and the three
    blocks of the call. *)
Definition heap3 (h : gmap loc (list D)) (ans : loc) (A : list D)
    (tmp : loc) (T : list D) (scCp : loc) (U : list D) : gmap loc (list D) :=
  <[scCp := U]> (<[tmp := T]> (<[ans := A]> h)).

Record fresh3 (h : gmap loc (list D)) (ans tmp scCp : loc) : Prop := mkFresh3 {
  fresh_ans : h !! ans = None;
  fresh_tmp : h !! tmp = None;
  fresh_scCp : h !! scCp = None;
  ans_tmp : ans <> tmp;
  ans_scCp : ans <> scCp;
  tmp_scCp : tmp <> scCp
}.

(** The world when the scale matrix has been factored. *)
Definition setup_world (w : world) (ns : Z) (scal : SEXP) (a : list D)
    (ans tmp scCp : loc) : world :=
  let p := dims scal 0 in
  let c := scale_copy (imul p p) a in
  mkWorld (heap3 (heap w)
                 ans (h_stale <$> seq 0 (Z.to_nat (p * p * coerced ns)))
                 tmp (replicate (Z.to_nat (imul p p)) d_zero)
                 scCp (dpotrf_block p c))
          (gen w)
          (trace w ++ setup_events p ns a).

(** A property of both entry points. *)
Definition both (P : (Z -> D -> SEXP -> M SEXP) -> Prop) : Prop :=
  P rCholWishart /\ P rInvCholWishart.

(** The events of a call: what it appends to the trace. *)
Definition events_of (w w' : world) (ev : list event) : Prop :=
  trace w' = trace w ++ ev.

(** *** The specification's reading of two properties, for a call from
    a world with no events yet *)

(** The degrees-of-freedom error is raised before anything is allocated,
    before the stream is acquired and before any draw. *)
Definition dof_validated_first (f : Z -> D -> SEXP -> M SEXP)
    (ns : Z) (nu : D) (scal : SEXP) (w : world) : Prop :=
  (f ns nu scal w).1 = Raise msg_dof
  /\ count is_alloc (trace (f ns nu scal w).2) = 0%nat
  /\ count is_get (trace (f ns nu scal w).2) = 0%nat
  /\ count is_draw (trace (f ns nu scal w).2) = 0%nat.

(** The call is refused with the shape error, and nothing has happened. *)
Definition shape_refused (f : Z -> D -> SEXP -> M SEXP)
    (ns : Z) (nu : D) (scal : SEXP) (w : world) : Prop :=
  f ns nu scal w = (Raise msg_shape, w).

(** The call is refused by the guard of [std_rWishart_factor] inside the
    loop, with the stream acquired. *)
Definition refused_in_loop (f : Z -> D -> SEXP -> M SEXP)
    (ns : Z) (nu : D) (scal : SEXP) (w : world) : Prop :=
  (f ns nu scal w).1 = Raise msg_dof
  /\ count is_get (trace (f ns nu scal w).2) = 1%nat.

(** The stream is acquired exactly once and released exactly once. *)
Definition bracketed_once (t : list event) : Prop :=
  count is_get t = 1%nat /\ count is_put t = 1%nat.

(** *** The same computation on values

    What the loops do to the blocks they work on, to the generator and to
    the list of events, as functions: same indices, same [int] arithmetic.
    They are not a second model: [std_rWishart_factor_run], [round_run] and
    [sampler_run] below prove that the code computes them. *)

Fixpoint iter_from {St : Type} (k : nat) (j : Z) (f : Z -> St -> St) (s : St) : St :=
  match k with
  | O => s
  | S k' => iter_from k' (j + 1) f (f j s)
  end.

(** the state after [for (j = lo; j < hi; j++) s = f(j, s)] *)
Definition iter {St : Type} (lo hi : Z) (f : Z -> St -> St) (s : St) : St :=
  iter_from (Z.to_nat (hi - lo)) lo f s.

(** A block, the generator, and the events since some point. *)
Definition fstate : Type := list D * rng * list event.

Definition fill_entry (upper p j i : Z) (s : fstate) : fstate :=
  let uind := iadd i (imul j p) in
  let lind := iadd j (imul i p) in
  (upd (upd s.1.1 (if upper =? 0 then lind else uind) (h_norm_rand s.1.2).1)
       (if upper =? 0 then uind else lind) d_zero,
   (h_norm_rand s.1.2).2,
   s.2 ++ [EvNorm]).

Definition fill_column (upper : Z) (nu : D) (p j : Z) (s : fstate) : fstate :=
  let df := d_sub nu (d_of_int j) in
  iter 0 j (fill_entry upper p j)
       (upd s.1.1 (imul j (iadd p 1)) (d_sqrt (h_rchisq df s.1.2).1),
        (h_rchisq df s.1.2).2,
        s.2 ++ [EvChisq df]).

(** [std_rWishart_factor] past its guard, on a block with contents [b]. *)
Definition fill_factor (upper : Z) (nu : D) (p : Z) (b : list D) (g : rng) : fstate :=
  iter 0 p (fill_column upper nu p)
       (replicate (Z.to_nat (imul p p)) d_zero ++ drop (Z.to_nat (imul p p)) b, g, []).

(** The body of the loop up to the copy: [tmp], the generator, the events. *)
Definition sample (inv : bool) (nu : D) (p : Z) (U T : list D) (g : rng) : fstate :=
  let f := fill_factor 1 nu p T g in
  let t := overwrite f.1.1 (h_dtrmm p d_one U f.1.1) in
  if inv
  then (overwrite t (h_dtrtri p t).1, f.1.2, f.2 ++ [EvDtrmm p; EvDtrtri p (h_dtrtri p t).2])
  else (t, f.1.2, f.2 ++ [EvDtrmm p]).

(** The two loops of the copy, on the contents [a] of the output array. *)
Definition copy_slot (p : Z) (t : list D) (off : Z) (a : list D) : list D :=
  iter 0 p (fun i a =>
    iter 0 p (fun k a => upd a (off + iadd i (imul k p)) (rd t (iadd i (imul k p)))) a) a.

(** One round of the loop on the output array and on [tmp]. *)
Definition round_on (inv : bool) (nu : D) (p : Z) (U : list D) (j : Z)
    (s : list D * fstate) : list D * fstate :=
  let r := sample inv nu p U s.2.1.1 s.2.1.2 in
  (copy_slot p r.1.1 (imul j (imul p p)) s.1, (r.1.1, r.1.2, s.2.2 ++ r.2)).

Definition rounds (inv : bool) (nu : D) (p : Z) (U : list D) (n : Z)
    (A T : list D) (g : rng) : list D * fstate :=
  iter 0 n (round_on inv nu p U) (A, (T, g, [])).

(** The world with the block at [l], the generator and the new events of
    a state. *)
Definition on_block (l : loc) (w0 : world) (s : fstate) : world :=
  mkWorld (<[l := s.1.1]> (heap w0)) s.1.2 (trace w0 ++ s.2).

(** The world while the loop of the entry points runs: the output array,
    [tmp], the generator and the events since GetRNGstate. *)
Definition on_loop (h : gmap loc (list D)) (ans tmp scCp : loc) (U : list D)
    (tr0 : list event) (s : list D * fstate) : world :=
  mkWorld (heap3 h ans s.1 tmp s.2.1.1 scCp U) s.2.1.2 (tr0 ++ s.2.2).

(** *** The order of the draws *)

(** The requests of one factor: column by column, one chi-squared variate
    with shape nu - j and then j standard-normal variates. *)
Definition draw_order (nu : D) (p : Z) : list event :=
  flat_map (fun j => EvChisq (d_sub nu (d_of_int j)) :: replicate (Z.to_nat j) EvNorm)
           (seqZ 0 p).

(** The stream answering a list of requests, one after the other. *)
Fixpoint serve (reqs : list event) (g : rng) : list D * rng :=
  match reqs with
  | [] => ([], g)
  | EvChisq df :: reqs' =>
      let r := serve reqs' (h_rchisq df g).2 in ((h_rchisq df g).1 :: r.1, r.2)
  | EvNorm :: reqs' =>
      let r := serve reqs' (h_norm_rand g).2 in ((h_norm_rand g).1 :: r.1, r.2)
  | _ :: reqs' => serve reqs' g
  end.

(** Number of variates drawn before column j: 0, 1, 3, 6, ... *)
Definition tri (j : Z) : Z := (j * (j + 1)) `div` 2.

(** The variate number [k] of a list of variates. *)
Definition variate (vs : list D) (k : Z) : D := rd vs k.

(** Entry (r, c) of a p-by-p matrix stored column by column. *)
Definition entry (p : Z) (m : list D) (r c : Z) : option D :=
  m !! Z.to_nat (r + c * p).

(** Index of the entry of the filled triangle that belongs to the pair
    (i, j), i <= j: entry (i, j) when the factor is upper triangular and
    entry (j, i) when it is lower triangular.  [pidx upper p j i] is its
    mirror image. *)
Definition pidx (upper p i j : Z) : Z :=
  if upper =? 0 then j + i * p else i + j * p.

(** Column j of the factor is written up to its first m off-diagonal
    entries, with the variates [vs] in the order they were drawn. *)
Definition col_done (upper p : Z) (b vs : list D) (j m : Z) : Prop :=
  b !! Z.to_nat (pidx upper p j j) = Some (d_sqrt (variate vs (tri j))) /\
  forall i, 0 <= i < m ->
    b !! Z.to_nat (pidx upper p i j) = Some (variate vs (tri j + 1 + i)) /\
    b !! Z.to_nat (pidx upper p j i) = Some d_zero.

(** What holds of the state of [fill_factor] before column k, and in
    column j before its off-diagonal entry m; [g] is the generator at the
    start and [L] the length of the block. *)
Definition factor_inv (upper : Z) (nu : D) (p : Z) (g : rng) (L : nat)
    (k : Z) (s : fstate) : Prop :=
  s.2 = draw_order nu k /\
  s.1.2 = (serve s.2 g).2 /\
  length s.1.1 = L /\
  forall j, 0 <= j < k -> col_done upper p s.1.1 (serve s.2 g).1 j j.

Definition column_inv (upper : Z) (nu : D) (p : Z) (g : rng) (L : nat)
    (j m : Z) (s : fstate) : Prop :=
  s.2 = draw_order nu j ++ EvChisq (d_sub nu (d_of_int j)) :: replicate (Z.to_nat m) EvNorm /\
  s.1.2 = (serve s.2 g).2 /\
  length s.1.1 = L /\
  (forall j', 0 <= j' < j -> col_done upper p s.1.1 (serve s.2 g).1 j' j') /\
  col_done upper p s.1.1 (serve s.2 g).1 j m.

(** *** The samples one by one *)

(** The generator before round [k] of the loop. *)
Fixpoint gen_at (nu : D) (p : Z) (k : nat) (g : rng) : rng :=
  match k with
  | O => g
  | S k' => (serve (draw_order nu p) (gen_at nu p k' g)).2
  end.

(** The factor that [std_rWishart_factor] leaves in [tmp] in round [k]:
    what dtrmm is given to multiply by the matrix in [scCp]. *)
Definition factor_at (nu : D) (p : Z) (k : nat) (g : rng) : list D :=
  (fill_factor 1 nu p [] (gen_at nu p k g)).1.1.

(** The matrix that round [k] leaves in [tmp]. *)
Definition sample_at (inv : bool) (nu : D) (p : Z) (U : list D) (k : nat) (g : rng) : list D :=
  (sample inv nu p U [] (gen_at nu p k g)).1.1.

(** What holds of the output array and [tmp] before round k. *)
Definition rounds_inv (inv : bool) (nu : D) (p : Z) (U : list D) (g : rng) (LA : nat)
    (k : Z) (s : list D * fstate) : Prop :=
  length s.1 = LA /\
  length s.2.1.1 = Z.to_nat (p * p) /\
  s.2.1.2 = gen_at nu p (Z.to_nat k) g /\
  forall j r c, 0 <= j < k -> 0 <= r < p -> 0 <= c < p ->
    s.1 !! Z.to_nat (j * (p * p) + (r + c * p))
    = sample_at inv nu p U (Z.to_nat j) g !! Z.to_nat (r + c * p).

(** What holds of the output array in the copy, before entry (i, k) of
    [tmp] is copied: the rows before row i and the first k entries of row
    i are in place, and nothing outside the matrix at [off] has changed. *)
Definition copy_inv (p : Z) (t : list D) (off : Z) (a : list D) (i k : Z) (a' : list D) : Prop :=
  length a' = length a /\
  (forall r c, 0 <= r < p -> 0 <= c < p -> r < i \/ (r = i /\ c < k) ->
     a' !! Z.to_nat (off + (r + c * p)) = t !! Z.to_nat (r + c * p)) /\
  (forall q, 0 <= q -> q < off \/ off + p * p <= q -> a' !! Z.to_nat q = a !! Z.to_nat q).

(** *** Output arrays *)

(** Matrix number [j] of an array of p-by-p matrices. *)
Definition slot (p : Z) (j : Z) (out : list D) : list D :=
  take (Z.to_nat (p * p)) (drop (Z.to_nat (j * (p * p))) out).

(** Entries strictly below the diagonal are the double 0. *)
Definition lower_zero (p : Z) (m : list D) : Prop :=
  forall r c : Z, 0 <= c < r -> r < p -> entry p m r c = Some d_zero.

(** What dtrtri leaves in a block. *)
Definition inverted (p : Z) (m : list D) : list D := overwrite m (h_dtrtri p m).1.

End Vocabulary.

(** ** A host to run the code on

    A stand-in for R and LAPACK on which calls can be evaluated: doubles
    are replaced by integers with exact arithmetic ([Z.sqrt] and [Z.div]
    are exact on the matrices used below), the random stream is a list of
    variates drawn beforehand, and the three LAPACK/BLAS routines are
    written from their defining equations, column-major.  The general
    theorems do not depend on it. *)

Module IntHost.

(** entry (i, j) of the n-by-n matrix stored column-major in [m] *)
Definition ent (n : nat) (m : list Z) (i j : nat) : Z :=
  default 0 (m !! (i + j * n)%nat).

(** the n-by-n matrix with entries [f i j], column-major *)
Definition tabulate (n : nat) (f : nat -> nat -> Z) : list Z :=
  (fun k => f (k mod n)%nat (k / n)%nat) <$> seq 0 (n * n).

Definition sumZ (l : list Z) : Z := foldr Z.add 0 l.

(** next variate of the stream; an exhausted stream gives 0 *)
Definition next (g : list Z) : Z * list Z :=
  match g with
  | [] => (0, [])
  | x :: g' => (x, g')
  end.

(** entry (i, j), i <= j, of the upper Cholesky factor of [a] *)
Fixpoint chol_ent (fuel : nat) (n : nat) (a : list Z) (i j : nat) : Z :=
  match fuel with
  | O => 0
  | S fuel' =>
      let s := ent n a i j
               - sumZ ((fun k => chol_ent fuel' n a k i * chol_ent fuel' n a k j) <$> seq 0 i) in
      if (i =? j)%nat then Z.sqrt s else s `div` chol_ent fuel' n a i i
  end.

(** the pivot of column j: what the square root is taken of *)
Definition chol_pivot (n : nat) (a : list Z) (j : nat) : Z :=
  ent n a j j - sumZ ((fun k => chol_ent (2 * n + 2) n a k j * chol_ent (2 * n + 2) n a k j) <$> seq 0 j).

Definition int_dpotrf (n : Z) (a : list Z) : list Z * Z :=
  let n' := Z.to_nat n in
  match filter (fun j => chol_pivot n' a j <= 0) (seq 0 n') with
  | j :: _ => (a, Z.of_nat j + 1)
  | [] => (tabulate n' (fun i j => if (i <=? j)%nat then chol_ent (2 * n' + 2) n' a i j
                                    else ent n' a i j), 0)
  end.

(** B := alpha * B * A with A upper triangular *)
Definition int_dtrmm (n : Z) (alpha : Z) (a b : list Z) : list Z :=
  let n' := Z.to_nat n in
  tabulate n' (fun i j =>
    alpha * sumZ ((fun k => ent n' b i k * ent n' a k j) <$> seq 0 (S j))).

(** entry (i, j), i <= j, of the inverse of the upper triangular [a] *)
Fixpoint inv_ent (fuel : nat) (n : nat) (a : list Z) (i j : nat) : Z :=
  match fuel with
  | O => 0
  | S fuel' =>
      if (i =? j)%nat then 1 `div` ent n a j j
      else (- sumZ ((fun k => ent n a i k * inv_ent fuel' n a k j) <$> seq (S i) (j - i)))
           `div` ent n a i i
  end.

Definition int_dtrtri (n : Z) (a : list Z) : list Z * Z :=
  let n' := Z.to_nat n in
  match filter (fun j => ent n' a j j = 0) (seq 0 n') with
  | j :: _ => (a, Z.of_nat j + 1)
  | [] => (tabulate n' (fun i j => if (i <=? j)%nat then inv_ent (S n') n' a i j
                                    else ent n' a i j), 0)
  end.

Global Instance int_host : Host Z (list Z) := {|
  d_zero := 0;
  d_one := 1;
  d_of_int := fun z => z;
  d_sub := Z.sub;
  d_sqrt := Z.sqrt;
  d_lt := Z.ltb;
  h_stale := fun k => -1 - Z.of_nat k;
  h_rchisq := fun _ g => next g;
  h_norm_rand := next;
  h_dpotrf := int_dpotrf;
  h_dtrmm := int_dtrmm;
  h_dtrtri := int_dtrtri
|}.

(** A world holding one R matrix: its data at location 1. *)
Definition world_of (data : list Z) (g : list Z) : world Z (list Z) :=
  mkWorld {[ 1%positive := data ]} g [].

Definition matrix_of (p : Z) : SEXP := mkSEXP REALSXP [Z.to_N p; Z.to_N p] 1%positive.

(** What a call leaves: its outcome, with the data of the array it
    returns, and the events. *)
Definition run (m : M SEXP) (w : world Z (list Z))
  : outcome (list Z * list Z) * list (event Z) :=
  match m w with
  | (Ok s, w') => (Ok (Z.of_N <$> sx_dim s, block w' (sx_data s)), trace w')
  | (Raise msg, w') => (Raise msg, trace w')
  end.

End IntHost.


(** ** Vocabulary of the further properties *)

Section MoreVocabulary.
Context {D rng : Type} `{!Host D rng}.

Local Abbreviation world := (world D rng).
Local Abbreviation event := (event D).
Local Abbreviation M := (@M D rng).

Definition is_chisq (e : event) : bool :=
  match e with EvChisq _ => true | _ => false end.
Definition is_dpotrf (e : event) : bool :=
  match e with EvDpotrf _ _ _ => true | _ => false end.
Definition is_dtrmm (e : event) : bool :=
  match e with EvDtrmm _ => true | _ => false end.
Definition is_dtrtri (e : event) : bool :=
  match e with EvDtrtri _ _ => true | _ => false end.
Definition is_calloc (e : event) : bool :=
  match e with EvCalloc _ => true | _ => false end.
Definition is_free (e : event) : bool :=
  match e with EvFree => true | _ => false end.

(** The guard of line 51. *)
Definition refused (nu : D) (p : Z) : bool := d_lt nu (d_of_int p) || (p <=? 0).

(** The events of [k] rounds of the loop of [rCholWishart]: the draws of
    one factor and one call of dtrmm, [k] times. *)
Definition round_trace (nu : D) (p : Z) (k : nat) : list event :=
  concat (replicate k (draw_order nu p ++ [EvDtrmm p])).

(** The requests of [k] factors one after the other. *)
Definition requests (nu : D) (p : Z) (k : nat) : list event :=
  concat (replicate k (draw_order nu p)).

(** The state of the factor on a block [x ++ t] whose first p * p doubles
    are [x]: that on [x], with [t] behind it. *)
Definition behind (p : Z) (t : list D) (s s' : @fstate D rng) : Prop :=
  s = (s'.1.1 ++ t, s'.1.2, s'.2) /\ length s'.1.1 = Z.to_nat (p * p).

(** What the caller sees of a call: the error, or the dimensions and the
    data of the array that is returned. *)
Definition observe (r : outcome SEXP * world) : outcome (list N * list D) :=
  match r with
  | (Ok s, w') => Ok (sx_dim s, block w' (REAL s))
  | (Raise msg, _) => Raise msg
  end.

End MoreVocabulary.

(** The host whose dtrtri updates the matrix as that of [H] does and
    always reports info = 0. *)
Definition mute_dtrtri {D rng : Type} (H : Host D rng) : Host D rng := {|
  d_zero := d_zero;
  d_one := d_one;
  d_of_int := d_of_int;
  d_sub := d_sub;
  d_sqrt := d_sqrt;
  d_lt := d_lt;
  h_stale := h_stale;
  h_rchisq := h_rchisq;
  h_norm_rand := h_norm_rand;
  h_dpotrf := h_dpotrf;
  h_dtrmm := h_dtrmm;
  h_dtrtri := fun n m => ((h_dtrtri n m).1, 0)
|}.

(** The host of [H] with other contents [f] for the memory that
    alloc3DArray does not initialise. *)
Definition with_stale {D rng : Type} (f : nat -> D) (H : Host D rng) : Host D rng := {|
  d_zero := d_zero;
  d_one := d_one;
  d_of_int := d_of_int;
  d_sub := d_sub;
  d_sqrt := d_sqrt;
  d_lt := d_lt;
  h_stale := f;
  h_rchisq := h_rchisq;
  h_norm_rand := h_norm_rand;
  h_dpotrf := h_dpotrf;
  h_dtrmm := h_dtrmm;
  h_dtrtri := h_dtrtri
|}.

(* ================================================================== *)
(** * Properties *)
(* ================================================================== *)

(** ** C [int] arithmetic within range *)

Lemma int32_id (z : Z) : in_int z -> int32 z = z.
Proof.
  unfold in_int, INT_MIN, INT_MAX, int32. intros Hz.
  rewrite Z.mod_small by lia. lia.
Qed.

Lemma iadd_id (a b : Z) : in_int (a + b) -> iadd a b = a + b.
Proof. apply int32_id. Qed.

Lemma imul_id (a b : Z) : in_int (a * b) -> imul a b = a * b.
Proof. apply int32_id. Qed.

(** The indices of a p-by-p matrix, with p * p an [int]. *)
Lemma idx_exact (p i j : Z) :
  p * p <= INT_MAX -> 0 <= i < p -> 0 <= j < p -> iadd i (imul j p) = i + j * p.
Proof.
  unfold INT_MAX. intros Hrange Hi Hj.
  rewrite (imul_id j p) by (unfold in_int, INT_MIN, INT_MAX; nia).
  apply iadd_id. unfold in_int, INT_MIN, INT_MAX. nia.
Qed.

Lemma diag_exact (p j : Z) :
  p * p <= INT_MAX -> 0 <= j < p -> imul j (iadd p 1) = j * (p + 1).
Proof.
  unfold INT_MAX. intros Hrange Hj.
  rewrite (iadd_id p 1) by (unfold in_int, INT_MIN, INT_MAX; nia).
  apply imul_id. unfold in_int, INT_MIN, INT_MAX. nia.
Qed.

Lemma psqr_exact (p : Z) : p * p <= INT_MAX -> imul p p = p * p.
Proof.
  unfold INT_MAX. intros Hrange.
  apply imul_id. unfold in_int, INT_MIN, INT_MAX. nia.
Qed.

(** ** Rules for running the code *)

Section Rules.
Context {D rng : Type} `{!Host D rng}.

Local Abbreviation world := (world D rng).
Local Abbreviation event := (event D).
Local Abbreviation M := (@M D rng).

Implicit Types (w : world) (l : loc) (b : list D).

Lemma wp_ret {A} (a : A) (Q : outcome A -> world -> Prop) w :
  Q (Ok a) w -> wp (ret a) Q w.
Proof. done. Qed.

Lemma wp_error {A} msg (Q : outcome A -> world -> Prop) w :
  Q (Raise msg) w -> wp (error msg) Q w.
Proof. done. Qed.

Lemma wp_bind {A B} (m : M A) (k : A -> M B) (Q : outcome B -> world -> Prop) w :
  wp m (fun o w' => match o with
                    | Ok a => wp (k a) Q w'
                    | Raise msg => Q (Raise msg) w'
                    end) w ->
  wp (bind m k) Q w.
Proof.
  unfold wp, bind. destruct (m w) as [[a|msg] w']; simpl; done.
Qed.

Lemma wp_eq {A} (m : M A) (Q : outcome A -> world -> Prop) w o w' :
  m w = (o, w') -> Q o w' -> wp m Q w.
Proof. unfold wp. by intros ->. Qed.

Lemma wp_emit e (Q : outcome unit -> world -> Prop) w :
  Q (Ok tt) (mkWorld (heap w) (gen w) (trace w ++ [e])) -> wp (emit e) Q w.
Proof. done. Qed.

Lemma wp_new_block b (Q : outcome loc -> world -> Prop) w :
  (forall l, heap w !! l = None ->
             Q (Ok l) (mkWorld (<[l := b]> (heap w)) (gen w) (trace w))) ->
  wp (new_block b) Q w.
Proof.
  intros HQ. unfold wp, new_block. simpl. apply HQ.
  apply not_elem_of_dom, is_fresh.
Qed.

Lemma wp_store l i v (Q : outcome unit -> world -> Prop) w :
  Q (Ok tt) (mkWorld (<[l := upd (block w l) i v]> (heap w)) (gen w) (trace w)) ->
  wp (store l i v) Q w.
Proof. done. Qed.

Lemma wp_memset0 l n (Q : outcome unit -> world -> Prop) w :
  Q (Ok tt) (mkWorld (<[l := replicate (Z.to_nat n) d_zero ++ drop (Z.to_nat n) (block w l)]> (heap w))
                     (gen w) (trace w)) ->
  wp (memset0 l n) Q w.
Proof. done. Qed.

Lemma wp_Memcpy dst src n (Q : outcome unit -> world -> Prop) w :
  Q (Ok tt) (mkWorld (<[dst := take (Z.to_nat n) (block w src) ++ drop (Z.to_nat n) (block w dst)]> (heap w))
                     (gen w) (trace w)) ->
  wp (Memcpy dst src n) Q w.
Proof. done. Qed.

Lemma wp_alloc3DArray nrow ncol nface (Q : outcome SEXP -> world -> Prop) w :
  0 <= nrow -> 0 <= ncol -> 0 <= nface ->
  (forall l, heap w !! l = None ->
     Q (Ok (mkSEXP REALSXP [Z.to_N nrow; Z.to_N ncol; Z.to_N nface] l))
       (mkWorld (<[l := h_stale <$> seq 0 (Z.to_nat (nrow * ncol * nface))]> (heap w))
                (gen w) (trace w ++ [EvAlloc3D nrow ncol nface]))) ->
  wp (alloc3DArray nrow ncol nface) Q w.
Proof.
  intros Hr Hc Hf HQ. unfold alloc3DArray.
  apply wp_bind, wp_emit.
  destruct (Z.ltb_spec nrow 0); [lia|]. destruct (Z.ltb_spec ncol 0); [lia|].
  destruct (Z.ltb_spec nface 0); [lia|]. cbn [orb].
  apply wp_bind, wp_new_block. intros l Hl.
  apply wp_ret, HQ, Hl.
Qed.

Lemma wp_Calloc n (Q : outcome loc -> world -> Prop) w :
  (forall l, heap w !! l = None ->
     Q (Ok l) (mkWorld (<[l := replicate (Z.to_nat n) d_zero]> (heap w))
                       (gen w) (trace w ++ [EvCalloc n]))) ->
  wp (Calloc n) Q w.
Proof.
  intros HQ. unfold Calloc.
  apply wp_bind, wp_emit. apply wp_new_block. intros l Hl. apply HQ, Hl.
Qed.

Lemma wp_Free l (Q : outcome unit -> world -> Prop) w :
  Q (Ok tt) (mkWorld (delete l (heap w)) (gen w) (trace w ++ [EvFree])) ->
  wp (Free l) Q w.
Proof. done. Qed.

Lemma wp_GetRNGstate (Q : outcome unit -> world -> Prop) w :
  Q (Ok tt) (mkWorld (heap w) (gen w) (trace w ++ [EvGetRNG])) -> wp GetRNGstate Q w.
Proof. done. Qed.

Lemma wp_PutRNGstate (Q : outcome unit -> world -> Prop) w :
  Q (Ok tt) (mkWorld (heap w) (gen w) (trace w ++ [EvPutRNG])) -> wp PutRNGstate Q w.
Proof. done. Qed.

Lemma wp_rchisq df (Q : outcome D -> world -> Prop) w :
  Q (Ok (h_rchisq df (gen w)).1)
    (mkWorld (heap w) (h_rchisq df (gen w)).2 (trace w ++ [EvChisq df])) ->
  wp (rchisq df) Q w.
Proof.
  unfold wp, rchisq, bind, emit. simpl. by destruct (h_rchisq df (gen w)).
Qed.

Lemma wp_norm_rand (Q : outcome D -> world -> Prop) w :
  Q (Ok (h_norm_rand (gen w)).1)
    (mkWorld (heap w) (h_norm_rand (gen w)).2 (trace w ++ [EvNorm])) ->
  wp norm_rand Q w.
Proof.
  unfold wp, norm_rand, bind, emit. simpl. by destruct (h_norm_rand (gen w)).
Qed.

Lemma wp_dpotrf n l (Q : outcome Z -> world -> Prop) w :
  1 <= n ->
  Q (Ok (h_dpotrf n (block w l)).2)
    (mkWorld (<[l := overwrite (block w l) (h_dpotrf n (block w l)).1]> (heap w)) (gen w)
             (trace w ++ [EvDpotrf n (block w l) (h_dpotrf n (block w l)).2])) ->
  wp (dpotrf n l) Q w.
Proof.
  intros Hn. unfold wp, dpotrf.
  destruct (Z.ltb_spec n 0); [lia|]. destruct (Z.ltb_spec n (Z.max 1 n)); [lia|].
  by destruct (h_dpotrf n (block w l)).
Qed.

(** An order 0, with the leading dimension 0 that the code passes, is
    refused by dpotrf: xerbla raises and the matrix is as it was. *)
Lemma wp_dpotrf_xerbla n l (Q : outcome Z -> world -> Prop) w :
  0 <= n < 1 ->
  Q (Raise msg_xerbla_lda)
    (mkWorld (heap w) (gen w) (trace w ++ [EvDpotrf n (block w l) (-4)])) ->
  wp (dpotrf n l) Q w.
Proof.
  intros Hn. unfold wp, dpotrf.
  destruct (Z.ltb_spec n 0); [lia|]. by destruct (Z.ltb_spec n (Z.max 1 n)); [|lia].
Qed.

Lemma wp_dtrmm n alpha a l (Q : outcome unit -> world -> Prop) w :
  Q (Ok tt)
    (mkWorld (<[l := overwrite (block w l) (h_dtrmm n alpha (block w a) (block w l))]> (heap w))
             (gen w) (trace w ++ [EvDtrmm n])) ->
  wp (dtrmm n alpha a l) Q w.
Proof. done. Qed.

Lemma wp_dtrtri n l (Q : outcome Z -> world -> Prop) w :
  Q (Ok (h_dtrtri n (block w l)).2)
    (mkWorld (<[l := overwrite (block w l) (h_dtrtri n (block w l)).1]> (heap w)) (gen w)
             (trace w ++ [EvDtrtri n (h_dtrtri n (block w l)).2])) ->
  wp (dtrtri n l) Q w.
Proof.
  unfold wp, dtrtri. by destruct (h_dtrtri n (block w l)).
Qed.

(** A loop of at least one round starts with the round [lo]. *)
Lemma for_first (lo hi : Z) (body : Z -> M unit) w :
  lo < hi ->
  for_ lo hi body w = (body lo ;; for_ (lo + 1) hi body) w.
Proof.
  intros Hlt. unfold for_.
  replace (Z.to_nat (hi - lo)) with (S (Z.to_nat (hi - (lo + 1)))) by lia. done.
Qed.

End Rules.

(** ** The two entry points are [sampler] *)

Section Sampler.
Context {D rng : Type} `{!Host D rng}.

Lemma rCholWishart_sampler ns nu scal :
  rCholWishart ns nu scal = sampler false ns nu scal.
Proof. reflexivity. Qed.

Lemma rInvCholWishart_sampler ns nu scal :
  rInvCholWishart ns nu scal = sampler true ns nu scal.
Proof. reflexivity. Qed.

End Sampler.

(** ** Up to the loop *)

Section Setup.
Context {D rng : Type} `{!Host D rng}.

Local Abbreviation world := (world D rng).
Local Abbreviation event := (event D).
Local Abbreviation M := (@M D rng).

Implicit Types (w : world) (h : gmap loc (list D)).

Lemma wp_elim {A} (m : M A) (Q : outcome A -> world -> Prop) w :
  wp m Q w -> exists o w', m w = (o, w') /\ Q o w'.
Proof. unfold wp. intros HQ. exists (m w).1, (m w).2. by destruct (m w). Qed.

Lemma dims_nonneg scal k : 0 <= dims scal k.
Proof. unfold dims. lia. Qed.

Lemma dpotrf_info_ok n (a : list D) : 1 <= n -> dpotrf_info n a = (h_dpotrf n a).2.
Proof.
  intros Hn. unfold dpotrf_info.
  destruct (Z.ltb_spec n 0); [lia|]. by destruct (Z.ltb_spec n 1); [lia|].
Qed.

Lemma dpotrf_block_ok n (a : list D) :
  1 <= n -> dpotrf_block n a = overwrite a (h_dpotrf n a).1.
Proof. intros Hn. unfold dpotrf_block. by destruct (Z.ltb_spec n 1); [lia|]. Qed.

Lemma square_real_has_dims scal : square_real scal -> has_dims scal.
Proof. intros (Hm & _) E. by rewrite E in Hm. Qed.

Lemma dim_array_ok scal (w : world) : has_dims scal -> dim_array scal w = (Ok tt, w).
Proof. intros Hd. unfold dim_array. by rewrite bool_decide_eq_false_2. Qed.

Lemma dim_array_error scal (w : world) :
  ~ has_dims scal -> dim_array scal w = (Raise msg_integer, w).
Proof.
  intros Hd. unfold dim_array, has_dims in *.
  rewrite bool_decide_eq_true_2; [done|]. by destruct (decide (sx_dim scal = [])).
Qed.

Lemma square_real_test scal :
  square_real scal ->
  negb (isMatrix scal) || negb (isReal scal) || negb (dims scal 0 =? dims scal 1) = false.
Proof.
  intros (Hm & Hr & Hd). unfold isMatrix, isReal.
  rewrite !bool_decide_eq_true_2 by done. simpl. by rewrite Hd, Z.eqb_refl.
Qed.

Lemma not_square_real_test scal :
  ~ square_real scal ->
  negb (isMatrix scal) || negb (isReal scal) || negb (dims scal 0 =? dims scal 1) = true.
Proof.
  intros Hn. unfold isMatrix, isReal.
  destruct (decide (length (sx_dim scal) = 2%nat)) as [Hm|Hm];
    [rewrite (bool_decide_eq_true_2 _ Hm) | by rewrite (bool_decide_eq_false_2 _ Hm)].
  destruct (decide (sx_type scal = REALSXP)) as [Hr|Hr];
    [rewrite (bool_decide_eq_true_2 _ Hr) | by rewrite (bool_decide_eq_false_2 _ Hr)].
  simpl. destruct (Z.eqb_spec (dims scal 0) (dims scal 1)) as [Hd|Hd]; [|done].
  destruct Hn. by repeat split.
Qed.

Lemma coerced_pos n : 1 <= coerced n.
Proof. unfold coerced. destruct (Z.leb_spec n 0); lia. Qed.

Lemma coerced_max n : coerced n = Z.max 1 n.
Proof. unfold coerced. destruct (Z.leb_spec n 0); lia. Qed.

(** *** The three blocks *)

Lemma heap3_ans h ans A tmp T scCp U :
  fresh3 h ans tmp scCp -> heap3 h ans A tmp T scCp U !! ans = Some A.
Proof.
  intros []. unfold heap3.
  rewrite lookup_insert_ne by done. rewrite lookup_insert_ne by done.
  apply lookup_insert_eq.
Qed.

Lemma heap3_tmp h ans A tmp T scCp U :
  fresh3 h ans tmp scCp -> heap3 h ans A tmp T scCp U !! tmp = Some T.
Proof.
  intros []. unfold heap3.
  rewrite lookup_insert_ne by done. apply lookup_insert_eq.
Qed.

Lemma heap3_scCp h ans A tmp T scCp U :
  heap3 h ans A tmp T scCp U !! scCp = Some U.
Proof. apply lookup_insert_eq. Qed.

Lemma heap3_other h ans A tmp T scCp U l :
  fresh3 h ans tmp scCp -> is_Some (h !! l) -> heap3 h ans A tmp T scCp U !! l = h !! l.
Proof.
  intros [] [x Hx]. unfold heap3.
  rewrite !lookup_insert_ne; [done | congruence..].
Qed.

Lemma heap3_set_tmp h ans A tmp T T' scCp U :
  fresh3 h ans tmp scCp ->
  <[tmp := T']> (heap3 h ans A tmp T scCp U) = heap3 h ans A tmp T' scCp U.
Proof.
  intros []. unfold heap3.
  rewrite insert_insert_ne by done. by rewrite insert_insert_eq.
Qed.

Lemma heap3_set_ans h ans A A' tmp T scCp U :
  fresh3 h ans tmp scCp ->
  <[ans := A']> (heap3 h ans A tmp T scCp U) = heap3 h ans A' tmp T scCp U.
Proof.
  intros []. unfold heap3.
  rewrite (insert_insert_ne _ ans scCp) by done.
  rewrite (insert_insert_ne _ ans tmp) by done.
  by rewrite insert_insert_eq.
Qed.

Lemma heap3_free h ans A tmp T scCp U :
  fresh3 h ans tmp scCp ->
  delete tmp (delete scCp (heap3 h ans A tmp T scCp U)) = <[ans := A]> h.
Proof.
  intros []. unfold heap3.
  rewrite delete_insert_eq.
  rewrite (delete_insert_ne _ scCp tmp) by done.
  rewrite delete_insert_eq.
  rewrite (delete_insert_ne _ scCp ans) by done.
  rewrite (delete_insert_ne _ tmp ans) by done.
  rewrite (delete_id _ scCp) by done.
  by rewrite (delete_id _ tmp) by done.
Qed.

(** *** From the entry to the loop *)

Lemma wp_sampler inv ns nu scal a (Q : outcome SEXP -> world -> Prop) w :
  square_real scal ->
  heap w !! REAL scal = Some a ->
  (forall ans tmp scCp,
     fresh3 (heap w) ans tmp scCp ->
     let p := dims scal 0 in
     let w1 := setup_world w ns scal a ans tmp scCp in
     if p <? 1 then Q (Raise msg_xerbla_lda) w1
     else if (h_dpotrf p (scale_copy (imul p p) a)).2 =? 0
     then wp (sampling inv (coerced ns) nu scal
                       (mkSEXP REALSXP [Z.to_N p; Z.to_N p; Z.to_N (coerced ns)] ans)
                       tmp scCp) Q w1
     else Q (Raise msg_pd) w1) ->
  wp (sampler inv ns nu scal) Q w.
Proof.
  intros Hsq Ha HQ. unfold sampler.
  apply wp_bind. eapply wp_eq; [apply dim_array_ok, square_real_has_dims, Hsq|].
  rewrite (square_real_test _ Hsq).
  pose proof (dims_nonneg scal 0) as Hp0. pose proof (coerced_pos ns) as Hn1.
  apply wp_bind, wp_alloc3DArray; [lia..|]. intros ans Hans.
  apply wp_bind, wp_Calloc. simpl. intros tmp Htmp.
  apply wp_bind, wp_Calloc. simpl. intros scCp HscCp.
  apply lookup_insert_None in Htmp as [Htmp Hne1].
  apply lookup_insert_None in HscCp as [HscCp Hne2].
  apply lookup_insert_None in HscCp as [HscCp Hne3].
  assert (Hfr : fresh3 (heap w) ans tmp scCp) by (by constructor).
  assert (Hs1 : REAL scal <> ans) by congruence.
  assert (Hs2 : REAL scal <> tmp) by congruence.
  assert (Hs3 : REAL scal <> scCp) by congruence.
  set (psqr := imul (dims scal 0) (dims scal 0)).
  set (A := h_stale <$> seq 0 (Z.to_nat (dims scal 0 * dims scal 0 * coerced ns))).
  set (Z0 := replicate (Z.to_nat psqr) d_zero).
  apply wp_bind, wp_Memcpy. unfold block. simpl.
  rewrite lookup_insert_eq.
  rewrite !(lookup_insert_ne _ _ (REAL scal)) by done. rewrite Ha. simpl.
  rewrite insert_insert_eq.
  replace (drop (Z.to_nat psqr) Z0) with (@nil D)
    by (unfold Z0; by rewrite drop_replicate, Nat.sub_diag).
  rewrite app_nil_r. fold (scale_copy psqr a).
  apply wp_bind, wp_memset0. unfold block. simpl.
  rewrite (lookup_insert_ne _ scCp tmp) by done. rewrite lookup_insert_eq. simpl.
  replace (drop (Z.to_nat psqr) Z0) with (@nil D)
    by (unfold Z0; by rewrite drop_replicate, Nat.sub_diag).
  rewrite app_nil_r. fold Z0.
  rewrite (insert_insert_ne _ tmp scCp) by done. rewrite insert_insert_eq.
  specialize (HQ ans tmp scCp Hfr). cbv zeta in HQ.
  unfold setup_world, setup_events, heap3, dpotrf_info, dpotrf_block in HQ.
  fold psqr A Z0 in HQ.
  destruct (Z.ltb_spec (dims scal 0) 0) as [?|_]; [lia|].
  destruct (Z.ltb_spec (dims scal 0) 1) as [Hlt|Hge].
  - apply wp_bind, wp_dpotrf_xerbla; [lia|]. unfold block. simpl.
    rewrite lookup_insert_eq. simpl.
    rewrite <- !app_assoc. simpl. exact HQ.
  - apply wp_bind, wp_dpotrf; [lia|]. unfold block. simpl.
    rewrite lookup_insert_eq. simpl. rewrite insert_insert_eq.
    rewrite <- !app_assoc. simpl.
    destruct (_ =? 0); simpl; [exact HQ | apply wp_error, HQ].
Qed.

End Setup.

(** ** Calls that are refused *)

Section Refused.
Context {D rng : Type} `{!Host D rng}.

Local Abbreviation world := (world D rng).
Local Abbreviation event := (event D).
Local Abbreviation M := (@M D rng).

Implicit Types (w : world).

(** Line 81 / 144: no [dim] attribute. *)
Lemma sampler_nodims_error inv ns nu scal w :
  ~ has_dims scal -> sampler inv ns nu scal w = (Raise msg_integer, w).
Proof.
  intros Hd. unfold sampler. unfold bind at 1. by rewrite dim_array_error.
Qed.

Lemma sampler_shape_error inv ns nu scal w :
  has_dims scal ->
  ~ square_real scal -> sampler inv ns nu scal w = (Raise msg_shape, w).
Proof.
  intros Hd Hn. unfold sampler. unfold bind at 1. rewrite dim_array_ok by done.
  by rewrite (not_square_real_test _ Hn).
Qed.

(** Line 97 / 160 for a matrix of order 0. *)
Lemma sampler_xerbla_error inv ns nu scal a w :
  square_real scal ->
  heap w !! REAL scal = Some a ->
  dims scal 0 < 1 ->
  exists w', sampler inv ns nu scal w = (Raise msg_xerbla_lda, w')
    /\ trace w' = trace w ++ setup_events (dims scal 0) ns a
    /\ gen w' = gen w
    /\ heap w' !! REAL scal = Some a.
Proof.
  intros Hsq Ha Hp.
  destruct (wp_elim (sampler inv ns nu scal)
    (fun o w' => o = Raise msg_xerbla_lda
       /\ trace w' = trace w ++ setup_events (dims scal 0) ns a
       /\ gen w' = gen w
       /\ heap w' !! REAL scal = Some a) w) as (o & w' & Hrun & -> & Hrest).
  - apply (wp_sampler _ _ _ _ a); [done..|].
    intros ans tmp scCp Hfr p w1. subst p w1.
    destruct (Z.ltb_spec (dims scal 0) 1) as [_|?]; [|lia].
    repeat split; try done.
    simpl. rewrite heap3_other; [done | done | by rewrite Ha].
  - by exists w'.
Qed.

(** The guard of line 51. *)
Lemma std_rWishart_factor_error nu p upper l w :
  d_lt nu (d_of_int p) || (p <=? 0) = true ->
  std_rWishart_factor nu p upper l w = (Raise msg_dof, w).
Proof. intros Hg. unfold std_rWishart_factor. by rewrite Hg. Qed.

(** With the guard of line 51 true, the first round of the loop raises:
    after GetRNGstate and before anything else. *)
Lemma sampling_dof_error inv n nu scal ans tmp scCp w :
  1 <= n ->
  d_lt nu (d_of_int (dims scal 0)) || (dims scal 0 <=? 0) = true ->
  sampling inv n nu scal ans tmp scCp w
  = (Raise msg_dof, mkWorld (heap w) (gen w) (trace w ++ [EvGetRNG])).
Proof.
  intros Hn Hg. unfold sampling, bind at 1. simpl.
  unfold bind at 1. rewrite for_first by lia.
  unfold bind at 1, round, bind at 1.
  by rewrite std_rWishart_factor_error.
Qed.

Lemma sampler_pd_error inv ns nu scal a w :
  square_real scal ->
  heap w !! REAL scal = Some a ->
  1 <= dims scal 0 ->
  (h_dpotrf (dims scal 0) (scale_copy (imul (dims scal 0) (dims scal 0)) a)).2 <> 0 ->
  exists w', sampler inv ns nu scal w = (Raise msg_pd, w')
    /\ trace w' = trace w ++ setup_events (dims scal 0) ns a
    /\ gen w' = gen w
    /\ heap w' !! REAL scal = Some a.
Proof.
  intros Hsq Ha Hp Hinfo.
  destruct (wp_elim (sampler inv ns nu scal)
    (fun o w' => o = Raise msg_pd
       /\ trace w' = trace w ++ setup_events (dims scal 0) ns a
       /\ gen w' = gen w
       /\ heap w' !! REAL scal = Some a) w) as (o & w' & Hrun & -> & Hrest).
  - apply (wp_sampler _ _ _ _ a); [done..|].
    intros ans tmp scCp Hfr p w1. subst p w1.
    destruct (Z.ltb_spec (dims scal 0) 1) as [?|_]; [lia|].
    destruct (Z.eqb_spec (h_dpotrf (dims scal 0)
                (scale_copy (imul (dims scal 0) (dims scal 0)) a)).2 0) as [E|_]; [done|].
    repeat split; try done.
    simpl. rewrite heap3_other; [done | done | by rewrite Ha].
  - by exists w'.
Qed.

Lemma sampler_dof_error inv ns nu scal a w :
  square_real scal ->
  heap w !! REAL scal = Some a ->
  1 <= dims scal 0 ->
  (h_dpotrf (dims scal 0) (scale_copy (imul (dims scal 0) (dims scal 0)) a)).2 = 0 ->
  d_lt nu (d_of_int (dims scal 0)) || (dims scal 0 <=? 0) = true ->
  exists w', sampler inv ns nu scal w = (Raise msg_dof, w')
    /\ trace w' = trace w ++ setup_events (dims scal 0) ns a ++ [EvGetRNG]
    /\ gen w' = gen w
    /\ heap w' !! REAL scal = Some a.
Proof.
  intros Hsq Ha Hp Hinfo Hg.
  destruct (wp_elim (sampler inv ns nu scal)
    (fun o w' => o = Raise msg_dof
       /\ trace w' = trace w ++ setup_events (dims scal 0) ns a ++ [EvGetRNG]
       /\ gen w' = gen w
       /\ heap w' !! REAL scal = Some a) w) as (o & w' & Hrun & -> & Hrest).
  - apply (wp_sampler _ _ _ _ a); [done..|].
    intros ans tmp scCp Hfr p w1. subst p w1.
    destruct (Z.ltb_spec (dims scal 0) 1) as [?|_]; [lia|].
    rewrite Hinfo. simpl.
    eapply wp_eq; [apply sampling_dof_error; [apply coerced_pos | done] |].
    repeat split; simpl.
    + by rewrite <- app_assoc.
    + rewrite heap3_other; [done | done | by rewrite Ha].
  - by exists w'.
Qed.

End Refused.

(** ** The loops compute the functions on values *)

Section Refinement.
Context {D rng : Type} `{!Host D rng}.

Local Abbreviation world := (world D rng).
Local Abbreviation event := (event D).
Local Abbreviation M := (@M D rng).
Local Abbreviation fstate := (@fstate D rng).

Implicit Types (w : world) (h : gmap loc (list D)).

Lemma for_from_iter {St : Type} (R : St -> world -> Prop) (k : nat) (lo : Z)
    (body : Z -> M unit) (f : Z -> St -> St) (s : St) w :
  R s w ->
  (forall j s w, lo <= j < lo + Z.of_nat k -> R s w ->
     exists w', body j w = (Ok tt, w') /\ R (f j s) w') ->
  exists w', for_from k lo body w = (Ok tt, w') /\ R (iter_from k lo f s) w'.
Proof.
  revert lo s w. induction k as [|k IH]; intros lo s w HR Hstep.
  - by exists w.
  - destruct (Hstep lo s w) as (w1 & Hb & HR1); [lia | done |].
    destruct (IH (lo + 1) (f lo s) w1) as (w2 & Hl & HR2); [done | |].
    + intros j s' w' Hj. apply Hstep. lia.
    + exists w2. split; [|done]. simpl. unfold bind. by rewrite Hb.
Qed.

Lemma for_iter {St : Type} (R : St -> world -> Prop) (lo hi : Z)
    (body : Z -> M unit) (f : Z -> St -> St) (s : St) w :
  R s w ->
  (forall j s w, lo <= j < hi -> R s w ->
     exists w', body j w = (Ok tt, w') /\ R (f j s) w') ->
  exists w', for_ lo hi body w = (Ok tt, w') /\ R (iter lo hi f s) w'.
Proof.
  intros HR Hstep. apply for_from_iter; [done|].
  intros j s' w' Hj. apply Hstep. lia.
Qed.

(** An invariant of a loop on values. *)
Lemma iter_from_inv {St : Type} (I : Z -> St -> Prop) (k : nat) (lo : Z) (f : Z -> St -> St) (s : St) :
  I lo s ->
  (forall j s, lo <= j < lo + Z.of_nat k -> I j s -> I (j + 1) (f j s)) ->
  I (lo + Z.of_nat k) (iter_from k lo f s).
Proof.
  revert lo s. induction k as [|k IH]; intros lo s HI Hstep.
  - by rewrite Z.add_0_r.
  - simpl iter_from. replace (lo + Z.of_nat (S k)) with (lo + 1 + Z.of_nat k) by lia.
    apply IH; [apply Hstep; [lia | done] |].
    intros j s' Hj. apply Hstep. lia.
Qed.

Lemma iter_inv {St : Type} (I : Z -> St -> Prop) (lo hi : Z) (f : Z -> St -> St) (s : St) :
  lo <= hi ->
  I lo s ->
  (forall j s, lo <= j < hi -> I j s -> I (j + 1) (f j s)) ->
  I hi (iter lo hi f s).
Proof.
  intros Hle HI Hstep. unfold iter.
  replace hi with (lo + Z.of_nat (Z.to_nat (hi - lo))) at 1 by lia.
  apply iter_from_inv; [done|]. intros j s' Hj. apply Hstep. lia.
Qed.

Lemma fill_entry_run upper p j i l w0 (s : fstate) :
  (x <- norm_rand ;;
   store l (if upper =? 0 then iadd j (imul i p) else iadd i (imul j p)) x ;;
   store l (if upper =? 0 then iadd i (imul j p) else iadd j (imul i p)) d_zero)
    (on_block l w0 s)
  = (Ok tt, on_block l w0 (fill_entry upper p j i s)).
Proof.
  destruct (wp_elim
    (x <- norm_rand ;;
     store l (if upper =? 0 then iadd j (imul i p) else iadd i (imul j p)) x ;;
     store l (if upper =? 0 then iadd i (imul j p) else iadd j (imul i p)) d_zero)
    (fun o w' => o = Ok tt /\ w' = on_block l w0 (fill_entry upper p j i s))
    (on_block l w0 s)) as (o & w' & -> & -> & ->); [|done].
  apply wp_bind, wp_norm_rand. apply wp_bind, wp_store. apply wp_store.
  split; [done|].
  unfold on_block, fill_entry, block. simpl.
  rewrite !lookup_insert_eq. simpl. rewrite !insert_insert_eq.
  by rewrite <- app_assoc.
Qed.

Lemma fill_column_run upper nu p j l w0 (s : fstate) :
  (c <- rchisq (d_sub nu (d_of_int j)) ;;
   store l (imul j (iadd p 1)) (d_sqrt c) ;;
   for_ 0 j (fun i =>
     x <- norm_rand ;;
     store l (if upper =? 0 then iadd j (imul i p) else iadd i (imul j p)) x ;;
     store l (if upper =? 0 then iadd i (imul j p) else iadd j (imul i p)) d_zero))
    (on_block l w0 s)
  = (Ok tt, on_block l w0 (fill_column upper nu p j s)).
Proof.
  set (s1 := (upd s.1.1 (imul j (iadd p 1)) (d_sqrt (h_rchisq (d_sub nu (d_of_int j)) s.1.2).1),
              (h_rchisq (d_sub nu (d_of_int j)) s.1.2).2,
              s.2 ++ [EvChisq (d_sub nu (d_of_int j))]) : fstate).
  destruct (for_iter (fun s w => w = on_block l w0 s) 0 j
    (fun i =>
       x <- norm_rand ;;
       store l (if upper =? 0 then iadd j (imul i p) else iadd i (imul j p)) x ;;
       store l (if upper =? 0 then iadd i (imul j p) else iadd j (imul i p)) d_zero)
    (fill_entry upper p j) s1 (on_block l w0 s1)) as (w' & Hfor & ->); [done | |].
  { intros i s' w _ ->. eexists. split; [apply fill_entry_run | done]. }
  destruct (wp_elim
    (c <- rchisq (d_sub nu (d_of_int j)) ;;
     store l (imul j (iadd p 1)) (d_sqrt c) ;;
     for_ 0 j (fun i =>
       x <- norm_rand ;;
       store l (if upper =? 0 then iadd j (imul i p) else iadd i (imul j p)) x ;;
       store l (if upper =? 0 then iadd i (imul j p) else iadd j (imul i p)) d_zero))
    (fun o w' => o = Ok tt /\ w' = on_block l w0 (fill_column upper nu p j s))
    (on_block l w0 s)) as (o & w' & -> & -> & ->); [|done].
  apply wp_bind, wp_rchisq. apply wp_bind, wp_store.
  eapply wp_eq; [|split; reflexivity].
  etransitivity; [|exact Hfor]. f_equal.
  unfold on_block, s1, block. simpl.
  rewrite lookup_insert_eq. simpl. rewrite insert_insert_eq.
  by rewrite <- app_assoc.
Qed.

(** [std_rWishart_factor] past its guard is [fill_factor] on the block. *)
Lemma std_rWishart_factor_run nu p upper l w :
  d_lt nu (d_of_int p) || (p <=? 0) = false ->
  std_rWishart_factor nu p upper l w
  = (Ok l, on_block l w (fill_factor upper nu p (block w l) (gen w))).
Proof.
  intros Hg.
  set (s0 := (replicate (Z.to_nat (imul p p)) d_zero ++ drop (Z.to_nat (imul p p)) (block w l),
              gen w, []) : fstate).
  destruct (for_iter (fun s w' => w' = on_block l w s) 0 p
    (fun j =>
       c <- rchisq (d_sub nu (d_of_int j)) ;;
       store l (imul j (iadd p 1)) (d_sqrt c) ;;
       for_ 0 j (fun i =>
         x <- norm_rand ;;
         store l (if upper =? 0 then iadd j (imul i p) else iadd i (imul j p)) x ;;
         store l (if upper =? 0 then iadd i (imul j p) else iadd j (imul i p)) d_zero))
    (fill_column upper nu p) s0 (on_block l w s0)) as (w' & Hfor & ->); [done | |].
  { intros j s' w1 _ ->. eexists. split; [apply fill_column_run | done]. }
  destruct (wp_elim (std_rWishart_factor nu p upper l)
    (fun o w' => o = Ok l
       /\ w' = on_block l w (fill_factor upper nu p (block w l) (gen w))) w)
    as (o & w' & -> & -> & ->); [|done].
  unfold std_rWishart_factor. cbv zeta. rewrite Hg.
  apply wp_bind, wp_memset0. apply wp_bind.
  eapply wp_eq.
  - etransitivity; [|exact Hfor]. f_equal.
    unfold on_block, s0. simpl. by rewrite app_nil_r.
  - simpl. by apply wp_ret.
Qed.

Lemma copy_out_run scal h ans tmp scCp A T U g tr j :
  fresh3 h ans tmp scCp ->
  copy_out scal ans tmp j (mkWorld (heap3 h ans A tmp T scCp U) g tr)
  = (Ok tt, mkWorld (heap3 h ans
                       (copy_slot (dims scal 0) T
                          (imul j (imul (dims scal 0) (dims scal 0))) A)
                       tmp T scCp U) g tr).
Proof.
  intros Hfr. unfold copy_out, copy_slot.
  set (p := dims scal 0). set (off := imul j (imul p p)).
  set (R := fun (a : list D) (w : world) => w = mkWorld (heap3 h ans a tmp T scCp U) g tr).
  destruct (for_iter R 0 p
    (fun i => for_ 0 p (fun k =>
       v <- load tmp (iadd i (imul k p)) ;;
       store_at ans off (iadd i (imul k p)) v))
    (fun i a => iter 0 p (fun k a =>
       upd a (off + iadd i (imul k p)) (rd T (iadd i (imul k p)))) a)
    A (mkWorld (heap3 h ans A tmp T scCp U) g tr)) as (w' & Hfor & ->); [done | | done].
  intros i a w _ ->.
  destruct (for_iter R 0 p
    (fun k =>
       v <- load tmp (iadd i (imul k p)) ;;
       store_at ans off (iadd i (imul k p)) v)
    (fun k a => upd a (off + iadd i (imul k p)) (rd T (iadd i (imul k p))))
    a (mkWorld (heap3 h ans a tmp T scCp U) g tr)) as (w' & Hfor & ->); [done | | by eexists].
  intros k a' w _ ->. eexists. split; [|done].
  unfold bind, load, store_at, store, set_block, block. simpl.
  rewrite (heap3_tmp _ _ _ _ _ _ _ Hfr), (heap3_ans _ _ _ _ _ _ _ Hfr). simpl.
  by rewrite (heap3_set_ans _ _ _ _ _ _ _ _ Hfr).
Qed.

Lemma block_on_loop_tmp h ans tmp scCp U tr0 (s : list D * fstate) :
  fresh3 h ans tmp scCp -> block (on_loop h ans tmp scCp U tr0 s) tmp = s.2.1.1.
Proof. intros Hfr. unfold block, on_loop. simpl. by rewrite heap3_tmp. Qed.

Lemma block_on_loop_scCp h ans tmp scCp U tr0 (s : list D * fstate) :
  block (on_loop h ans tmp scCp U tr0 s) scCp = U.
Proof. unfold block, on_loop. simpl. by rewrite heap3_scCp. Qed.

(** A step that changes [tmp], the generator and the events. *)
Lemma on_loop_tmp h ans tmp scCp U tr0 (s : list D * fstate) T (g : rng) ev :
  fresh3 h ans tmp scCp ->
  mkWorld (<[tmp := T]> (heap (on_loop h ans tmp scCp U tr0 s))) g
          (trace (on_loop h ans tmp scCp U tr0 s) ++ ev)
  = on_loop h ans tmp scCp U tr0 (s.1, (T, g, s.2.2 ++ ev)).
Proof.
  intros Hfr. unfold on_loop. simpl.
  by rewrite heap3_set_tmp, app_assoc.
Qed.

Lemma round_run inv nu scal h ans tmp scCp U tr0 j (s : list D * fstate) :
  fresh3 h ans tmp scCp ->
  dims scal 1 = dims scal 0 ->
  d_lt nu (d_of_int (dims scal 0)) || (dims scal 0 <=? 0) = false ->
  round inv nu scal ans tmp scCp j (on_loop h ans tmp scCp U tr0 s)
  = (Ok tt, on_loop h ans tmp scCp U tr0 (round_on inv nu (dims scal 0) U j s)).
Proof.
  intros Hfr Hsq Hg. set (p := dims scal 0).
  destruct (wp_elim (round inv nu scal ans tmp scCp j)
    (fun o w' => o = Ok tt
       /\ w' = on_loop h ans tmp scCp U tr0 (round_on inv nu p U j s))
    (on_loop h ans tmp scCp U tr0 s)) as (o & w' & -> & -> & ->); [|done].
  unfold round. fold p. apply wp_bind.
  eapply wp_eq; [by apply std_rWishart_factor_run|].
  rewrite (block_on_loop_tmp _ _ _ _ _ _ _ Hfr).
  change (gen (on_loop h ans tmp scCp U tr0 s)) with s.2.1.2.
  set (f := fill_factor 1 nu p s.2.1.1 s.2.1.2).
  unfold on_block. rewrite (on_loop_tmp _ _ _ _ _ _ _ _ _ _ Hfr).
  apply wp_bind, wp_dtrmm.
  rewrite (block_on_loop_tmp _ _ _ _ _ _ _ Hfr), block_on_loop_scCp.
  rewrite (on_loop_tmp _ _ _ _ _ _ _ _ _ _ Hfr). cbn [fst snd].
  set (t := overwrite f.1.1 (h_dtrmm p d_one U f.1.1)).
  unfold round_on, sample. fold f t.
  destruct inv.
  - apply wp_bind, wp_dtrtri.
    rewrite (block_on_loop_tmp _ _ _ _ _ _ _ Hfr).
    rewrite (on_loop_tmp _ _ _ _ _ _ _ _ _ _ Hfr). cbn [fst snd].
    rewrite Hsq. fold p.
    eapply wp_eq; [by apply copy_out_run|].
    split; [done|]. unfold on_loop. cbn [fst snd]. fold p.
    by rewrite <- !app_assoc.
  - eapply wp_eq; [by apply copy_out_run|].
    split; [done|]. unfold on_loop. cbn [fst snd]. fold p.
    by rewrite <- !app_assoc.
Qed.

Lemma sampling_run inv n nu scal h ans tmp scCp A T U g tr dd :
  fresh3 h ans tmp scCp ->
  dims scal 1 = dims scal 0 ->
  d_lt nu (d_of_int (dims scal 0)) || (dims scal 0 <=? 0) = false ->
  let r := rounds inv nu (dims scal 0) U n A T g in
  sampling inv n nu scal (mkSEXP REALSXP dd ans) tmp scCp
           (mkWorld (heap3 h ans A tmp T scCp U) g tr)
  = (Ok (mkSEXP REALSXP dd ans),
     mkWorld (<[ans := r.1]> h) r.2.1.2
             (tr ++ [EvGetRNG] ++ r.2.2 ++ [EvPutRNG; EvFree; EvFree])).
Proof.
  intros Hfr Hsq Hg r.
  destruct (for_iter (fun s w => w = on_loop h ans tmp scCp U (tr ++ [EvGetRNG]) s) 0 n
    (round inv nu scal ans tmp scCp)
    (round_on inv nu (dims scal 0) U)
    (A, (T, g, []))
    (on_loop h ans tmp scCp U (tr ++ [EvGetRNG]) (A, (T, g, []))))
    as (w' & Hfor & ->); [done | |].
  { intros j s w _ ->. eexists. split; [by apply round_run | done]. }
  fold (rounds inv nu (dims scal 0) U n A T g) in Hfor. fold r in Hfor.
  destruct (wp_elim (sampling inv n nu scal (mkSEXP REALSXP dd ans) tmp scCp)
    (fun o w' => o = Ok (mkSEXP REALSXP dd ans)
       /\ w' = mkWorld (<[ans := r.1]> h) r.2.1.2
                       (tr ++ [EvGetRNG] ++ r.2.2 ++ [EvPutRNG; EvFree; EvFree]))
    (mkWorld (heap3 h ans A tmp T scCp U) g tr)) as (o & w' & -> & -> & ->); [|done].
  unfold sampling. apply wp_bind, wp_GetRNGstate. simpl.
  apply wp_bind. eapply wp_eq.
  { etransitivity; [|exact Hfor]. f_equal. unfold on_loop. simpl. by rewrite app_nil_r. }
  apply wp_bind, wp_PutRNGstate.
  apply wp_bind, wp_Free. apply wp_bind, wp_Free. apply wp_ret.
  split; [done|]. unfold on_loop. simpl.
  rewrite (heap3_free _ _ _ _ _ _ _ Hfr).
  by rewrite <- !app_assoc.
Qed.

(** A call that passes every test: what it returns and the world it
    leaves. *)
Lemma sampler_run inv ns nu scal a w :
  square_real scal ->
  heap w !! REAL scal = Some a ->
  let p := dims scal 0 in
  let c := scale_copy (imul p p) a in
  (h_dpotrf p c).2 = 0 ->
  d_lt nu (d_of_int p) || (p <=? 0) = false ->
  exists ans,
    heap w !! ans = None /\
    let r := rounds inv nu p (overwrite c (h_dpotrf p c).1) (coerced ns)
                    (h_stale <$> seq 0 (Z.to_nat (p * p * coerced ns)))
                    (replicate (Z.to_nat (imul p p)) d_zero) (gen w) in
    sampler inv ns nu scal w
    = (Ok (mkSEXP REALSXP [Z.to_N p; Z.to_N p; Z.to_N (coerced ns)] ans),
       mkWorld (<[ans := r.1]> (heap w)) r.2.1.2
               (trace w ++ setup_events p ns a ++ [EvGetRNG] ++ r.2.2
                        ++ [EvPutRNG; EvFree; EvFree])).
Proof.
  intros Hsq Ha p c Hinfo Hg.
  set (r := fun ans : loc =>
    rounds inv nu p (overwrite c (h_dpotrf p c).1) (coerced ns)
           (h_stale <$> seq 0 (Z.to_nat (p * p * coerced ns)))
           (replicate (Z.to_nat (imul p p)) d_zero) (gen w)).
  destruct (wp_elim (sampler inv ns nu scal)
    (fun o w' => exists ans, heap w !! ans = None
       /\ o = Ok (mkSEXP REALSXP [Z.to_N p; Z.to_N p; Z.to_N (coerced ns)] ans)
       /\ w' = mkWorld (<[ans := (r ans).1]> (heap w)) (r ans).2.1.2
                       (trace w ++ setup_events p ns a ++ [EvGetRNG] ++ (r ans).2.2
                                ++ [EvPutRNG; EvFree; EvFree])) w)
    as (o & w' & Hrun & ans & Hans & -> & ->).
  - assert (Hp : 1 <= p).
    { apply orb_false_elim in Hg as [_ Hp]. apply Z.leb_gt in Hp. lia. }
    apply (wp_sampler _ _ _ _ a); [done..|].
    intros ans tmp scCp Hfr p' w1. subst p' w1. fold p c.
    destruct (Z.ltb_spec p 1) as [?|_]; [lia|].
    rewrite Hinfo. simpl.
    eapply wp_eq.
    + unfold setup_world. fold p c. rewrite dpotrf_block_ok by done.
      apply sampling_run; [done | | done].
      symmetry. apply Hsq.
    + exists ans. split; [apply Hfr|]. split; [done|].
      subst r. cbv beta. fold p c. by rewrite <- !app_assoc.
  - exists ans. split; [done|]. exact Hrun.
Qed.

End Refinement.

(** ** Lists as blocks *)

Section Blocks.
Context {D rng : Type} `{!Host D rng}.

Implicit Types (b vs : list D) (v : D).

Lemma length_upd b q v : length (upd b q v) = length b.
Proof. unfold upd. destruct (q <? 0); [done | apply length_insert]. Qed.

Lemma lookup_upd_eq b q v :
  0 <= q -> (Z.to_nat q < length b)%nat -> upd b q v !! Z.to_nat q = Some v.
Proof.
  intros Hq Hlt. unfold upd. destruct (Z.ltb_spec q 0); [lia|].
  by apply list_lookup_insert_eq.
Qed.

Lemma lookup_upd_ne b q k v :
  0 <= k -> q <> k -> upd b q v !! Z.to_nat k = b !! Z.to_nat k.
Proof.
  intros Hk Hne. unfold upd. destruct (Z.ltb_spec q 0); [done|].
  apply list_lookup_insert_ne. lia.
Qed.

Lemma variate_app_l vs vs' k :
  0 <= k < Z.of_nat (length vs) -> variate (vs ++ vs') k = variate vs k.
Proof.
  intros Hk. unfold variate, rd. destruct (Z.ltb_spec k 0); [lia|].
  rewrite lookup_app_l by lia. done.
Qed.

Lemma variate_snoc vs v k :
  k = Z.of_nat (length vs) -> variate (vs ++ [v]) k = v.
Proof.
  intros ->. unfold variate, rd. destruct (Z.ltb_spec (Z.of_nat (length vs)) 0); [lia|].
  rewrite Nat2Z.id. by rewrite list_lookup_middle.
Qed.

Lemma length_overwrite (old new : list D) : length (overwrite old new) = length old.
Proof.
  unfold overwrite. rewrite length_app, length_take, length_drop. lia.
Qed.

(** *** Triangular numbers *)

Lemma tri_succ j : tri (j + 1) = tri j + j + 1.
Proof.
  unfold tri. replace ((j + 1) * (j + 1 + 1)) with (j * (j + 1) + (j + 1) * 2) by lia.
  rewrite Z.div_add by lia. lia.
Qed.

Lemma tri_mono (j k : Z) : 0 <= j <= k -> tri j <= tri k.
Proof. intros Hjk. unfold tri. apply Z.div_le_mono; nia. Qed.

Lemma tri_nonneg j : 0 <= j -> 0 <= tri j.
Proof. intros Hj. unfold tri. apply Z.div_pos; nia. Qed.

(** *** Indices of a matrix stored by columns *)

Lemma pidx_bounds upper p i j :
  0 <= i < p -> 0 <= j < p -> 0 <= pidx upper p i j < p * p.
Proof. intros Hi Hj. unfold pidx. destruct (upper =? 0); nia. Qed.

Lemma pidx_inj upper p i j i' j' :
  0 <= i < p -> 0 <= j < p -> 0 <= i' < p -> 0 <= j' < p ->
  pidx upper p i j = pidx upper p i' j' -> i = i' /\ j = j'.
Proof.
  intros Hi Hj Hi' Hj'. unfold pidx. destruct (upper =? 0); intros Heq.
  - assert (i = i') by nia. subst. lia.
  - assert (j = j') by nia. subst. lia.
Qed.

Lemma pidx_diag upper p j : pidx upper p j j = j * (p + 1).
Proof. unfold pidx. destruct (upper =? 0); lia. Qed.

(** *** The stream *)

Lemma serve_app (l1 l2 : list (event D)) (g : rng) :
  serve (l1 ++ l2) g
  = ((serve l1 g).1 ++ (serve l2 (serve l1 g).2).1, (serve l2 (serve l1 g).2).2).
Proof.
  revert g. induction l1 as [|e l1 IH]; intros g; simpl.
  - by destruct (serve l2 g).
  - destruct e; simpl; rewrite ?IH; done.
Qed.

Lemma length_serve (l : list (event D)) (g : rng) :
  Forall (fun e => is_draw e = true) l -> length (serve l g).1 = length l.
Proof.
  intros Hl. revert g. induction Hl as [|e l He _ IH]; intros g; [done|].
  destruct e; try done; simpl; by rewrite IH.
Qed.

Lemma draw_order_succ nu k :
  0 <= k ->
  draw_order nu (k + 1)
  = draw_order nu k ++ EvChisq (d_sub nu (d_of_int k)) :: replicate (Z.to_nat k) EvNorm.
Proof.
  intros Hk. unfold draw_order.
  replace (k + 1) with (Z.of_nat (S (Z.to_nat k))) by lia.
  rewrite seqZ_S, flat_map_app. simpl. rewrite app_nil_r.
  rewrite Z.add_0_l. by rewrite !Z2Nat.id by lia.
Qed.

Lemma draw_order_draws nu p : Forall (fun e => is_draw e = true) (draw_order nu p).
Proof.
  unfold draw_order. apply Forall_flat_map, Forall_forall. intros j _.
  constructor; [done|]. apply Forall_replicate. done.
Qed.

Lemma length_draw_order nu k :
  0 <= k -> Z.of_nat (length (draw_order nu k)) = tri k.
Proof.
  intros Hk. rewrite <- (Z2Nat.id k) by lia.
  induction (Z.to_nat k) as [|n IH]; [done|].
  replace (Z.of_nat (S n)) with (Z.of_nat n + 1) by lia.
  rewrite draw_order_succ, tri_succ by lia.
  rewrite length_app. simpl. rewrite length_replicate. lia.
Qed.

End Blocks.

(** ** The contents of the factor *)

Section Factor.
Context {D rng : Type} `{!Host D rng}.

Local Abbreviation fstate := (@fstate D rng).

Variables (upper : Z) (nu : D) (p : Z) (g0 : rng) (L : nat).
Hypothesis Hp : 1 <= p.
Hypothesis Hrange : p * p <= INT_MAX.
Hypothesis HL : (Z.to_nat (p * p) <= L)%nat.

Lemma fill_entry_exact j i (s : fstate) :
  0 <= i < p -> 0 <= j < p ->
  fill_entry upper p j i s
  = (upd (upd s.1.1 (pidx upper p i j) (h_norm_rand s.1.2).1) (pidx upper p j i) d_zero,
     (h_norm_rand s.1.2).2, s.2 ++ [EvNorm]).
Proof.
  intros Hi Hj. unfold fill_entry, pidx.
  rewrite (idx_exact p i j), (idx_exact p j i) by done.
  by destruct (upper =? 0).
Qed.

(** Writing elsewhere and drawing more leaves a column as it is. *)
Lemma col_done_frame (b vs vs' : list D) j m q v :
  0 <= j < p -> 0 <= m <= j ->
  tri j + 1 + m <= Z.of_nat (length vs) ->
  (forall i, 0 <= i <= j -> i < m \/ i = j ->
             q <> pidx upper p i j /\ q <> pidx upper p j i) ->
  col_done upper p b vs j m ->
  col_done upper p (upd b q v) (vs ++ vs') j m.
Proof.
  intros Hj Hm Hvs Hq [Hd Ho].
  pose proof (tri_nonneg j ltac:(lia)) as Ht.
  split.
  - rewrite lookup_upd_ne.
    + rewrite variate_app_l by lia. done.
    + apply pidx_bounds; lia.
    + apply Hq; lia.
  - intros i Hi. destruct (Ho i Hi) as [Ho1 Ho2]. split.
    + rewrite lookup_upd_ne.
      * rewrite variate_app_l by lia. done.
      * apply pidx_bounds; lia.
      * apply Hq; lia.
    + rewrite lookup_upd_ne; [done | apply pidx_bounds; lia | apply Hq; lia].
Qed.

Lemma col_done_frame2 (b vs vs' : list D) j m q1 v1 q2 v2 :
  0 <= j < p -> 0 <= m <= j ->
  tri j + 1 + m <= Z.of_nat (length vs) ->
  (forall i, 0 <= i <= j -> i < m \/ i = j ->
             q1 <> pidx upper p i j /\ q1 <> pidx upper p j i) ->
  (forall i, 0 <= i <= j -> i < m \/ i = j ->
             q2 <> pidx upper p i j /\ q2 <> pidx upper p j i) ->
  col_done upper p b vs j m ->
  col_done upper p (upd (upd b q1 v1) q2 v2) (vs ++ vs') j m.
Proof.
  intros Hj Hm Hvs Hq1 Hq2 Hc.
  apply col_done_frame; [done..|].
  rewrite <- (app_nil_r vs). by apply col_done_frame.
Qed.

Lemma column_inv_length j m (s : fstate) :
  0 <= j -> 0 <= m ->
  column_inv upper nu p g0 L j m s ->
  Z.of_nat (length (serve s.2 g0).1) = tri j + 1 + m.
Proof.
  intros Hj Hm (Hev & _). rewrite length_serve.
  - rewrite Hev, length_app. simpl. rewrite length_replicate.
    pose proof (length_draw_order nu j Hj). lia.
  - rewrite Hev. apply Forall_app. split; [apply draw_order_draws|].
    constructor; [done|]. by apply Forall_replicate.
Qed.

Lemma factor_inv_length k (s : fstate) :
  0 <= k ->
  factor_inv upper nu p g0 L k s ->
  Z.of_nat (length (serve s.2 g0).1) = tri k.
Proof.
  intros Hk (Hev & _). rewrite length_serve.
  - rewrite Hev. by apply length_draw_order.
  - rewrite Hev. apply draw_order_draws.
Qed.

(** The diagonal entry of column j. *)
Lemma column_start j (s : fstate) :
  0 <= j < p ->
  factor_inv upper nu p g0 L j s ->
  column_inv upper nu p g0 L j 0
    (upd s.1.1 (imul j (iadd p 1)) (d_sqrt (h_rchisq (d_sub nu (d_of_int j)) s.1.2).1),
     (h_rchisq (d_sub nu (d_of_int j)) s.1.2).2,
     s.2 ++ [EvChisq (d_sub nu (d_of_int j))]).
Proof.
  intros Hj Hinv.
  pose proof (factor_inv_length j s ltac:(lia) Hinv) as Hlen.
  destruct Hinv as (Hev & Hg & HLs & Hcols).
  rewrite (diag_exact p j) by done. rewrite <- (pidx_diag upper).
  unfold column_inv. cbn [fst snd].
  rewrite serve_app. cbn [fst snd serve]. rewrite <- Hg.
  split; [by rewrite Hev|]. split; [done|].
  split; [by rewrite length_upd|]. split.
  - intros j' Hj'. apply col_done_frame; [lia | lia | | | by apply Hcols].
    + rewrite Hlen. pose proof (tri_succ j').
      pose proof (tri_mono (j' + 1) j ltac:(lia)). lia.
    + intros i Hi _. split; intros Heq; apply pidx_inj in Heq; lia.
  - split; [|intros i Hi; lia].
    rewrite lookup_upd_eq.
    + by rewrite variate_snoc.
    + pose proof (pidx_bounds upper p j j). lia.
    + pose proof (pidx_bounds upper p j j). lia.
Qed.

(** One off-diagonal entry of column j and its mirror image. *)
Lemma column_step j m (s : fstate) :
  0 <= j < p -> 0 <= m < j ->
  column_inv upper nu p g0 L j m s ->
  column_inv upper nu p g0 L j (m + 1) (fill_entry upper p j m s).
Proof.
  intros Hj Hm Hinv.
  pose proof (column_inv_length j m s ltac:(lia) ltac:(lia) Hinv) as Hlen.
  destruct Hinv as (Hev & Hg & HLs & Hcols & Hcol).
  rewrite fill_entry_exact by lia.
  unfold column_inv. cbn [fst snd].
  rewrite serve_app. cbn [fst snd serve]. rewrite <- Hg.
  pose proof (tri_nonneg j ltac:(lia)) as Htj.
  split.
  { rewrite Hev, <- app_assoc. simpl. do 2 f_equal.
    rewrite Z2Nat.inj_add by lia. change (Z.to_nat 1) with 1%nat.
    by rewrite Nat.add_1_r, replicate_S_end. }
  split; [done|]. split; [by rewrite !length_upd|]. split.
  - intros j' Hj'. apply col_done_frame2; [lia | lia | | | | by apply Hcols].
    + rewrite Hlen. pose proof (tri_succ j').
      pose proof (tri_mono (j' + 1) j ltac:(lia)). lia.
    + intros i Hi _. split; intros Heq; apply pidx_inj in Heq; lia.
    + intros i Hi _. split; intros Heq; apply pidx_inj in Heq; lia.
  - destruct Hcol as [Hd Ho]. split.
    + rewrite !lookup_upd_ne.
      * rewrite variate_app_l by lia. done.
      * apply pidx_bounds; lia.
      * intros Heq; apply pidx_inj in Heq; lia.
      * apply pidx_bounds; lia.
      * intros Heq; apply pidx_inj in Heq; lia.
    + intros i Hi. destruct (decide (i = m)) as [->|Hne].
      * split.
        -- rewrite lookup_upd_ne.
           ++ rewrite lookup_upd_eq.
              ** by rewrite variate_snoc by lia.
              ** pose proof (pidx_bounds upper p m j). lia.
              ** pose proof (pidx_bounds upper p m j). lia.
           ++ apply pidx_bounds; lia.
           ++ intros Heq; apply pidx_inj in Heq; lia.
        -- rewrite lookup_upd_eq; [done | |].
           ++ pose proof (pidx_bounds upper p j m). lia.
           ++ rewrite length_upd. pose proof (pidx_bounds upper p j m). lia.
      * destruct (Ho i ltac:(lia)) as [Ho1 Ho2]. split.
        -- rewrite !lookup_upd_ne.
           ++ rewrite variate_app_l by lia. done.
           ++ apply pidx_bounds; lia.
           ++ intros Heq; apply pidx_inj in Heq; lia.
           ++ apply pidx_bounds; lia.
           ++ intros Heq; apply pidx_inj in Heq; lia.
        -- rewrite !lookup_upd_ne; [done | | | |].
           ++ apply pidx_bounds; lia.
           ++ intros Heq; apply pidx_inj in Heq; lia.
           ++ apply pidx_bounds; lia.
           ++ intros Heq; apply pidx_inj in Heq; lia.
Qed.

(** A whole column. *)
Lemma factor_step j (s : fstate) :
  0 <= j < p ->
  factor_inv upper nu p g0 L j s ->
  factor_inv upper nu p g0 L (j + 1) (fill_column upper nu p j s).
Proof.
  intros Hj Hinv. unfold fill_column.
  pose proof (iter_inv (column_inv upper nu p g0 L j) 0 j (fill_entry upper p j) _
                ltac:(lia) (column_start j s Hj Hinv)) as Hcol.
  destruct Hcol as (Hev & Hg & HLs & Hcols & Hcol).
  { intros m s' Hm. apply column_step; lia. }
  split; [by rewrite draw_order_succ by lia|].
  split; [done|]. split; [done|].
  intros j' Hj'. destruct (decide (j' = j)) as [->|Hne]; [done|].
  apply Hcols. lia.
Qed.

(** The factor: every column written, in the order of [draw_order]. *)
Lemma fill_factor_inv (b : list D) :
  length b = L ->
  factor_inv upper nu p g0 L p (fill_factor upper nu p b g0).
Proof.
  intros Hb. unfold fill_factor.
  apply (iter_inv (factor_inv upper nu p g0 L)); [lia | |].
  - split; [done|]. split; [done|]. split; [|intros j Hj; lia].
    cbn [fst snd]. rewrite (psqr_exact p Hrange).
    rewrite length_app, length_replicate, length_drop. lia.
  - intros j s Hj. by apply factor_step.
Qed.

End Factor.

(** ** The events of the loop *)

Section Rounds.
Context {D rng : Type} `{!Host D rng}.

Local Abbreviation fstate := (@fstate D rng).
Local Abbreviation event := (event D).

Lemma fill_column_events (P : event -> Prop) upper nu p j (s : fstate) :
  (forall e, is_draw e = true -> P e) ->
  Forall P s.2 -> Forall P (fill_column upper nu p j s).2.
Proof.
  intros HP Hs. unfold fill_column, iter.
  apply (iter_from_inv (fun _ (s : fstate) => Forall P s.2)).
  - cbn [snd]. apply Forall_app. split; [done|]. constructor; [by apply HP | done].
  - intros i s' _ Hs'. unfold fill_entry. cbn [snd].
    apply Forall_app. split; [done|]. constructor; [by apply HP | done].
Qed.

Lemma fill_factor_events (P : event -> Prop) upper nu p b g :
  (forall e, is_draw e = true -> P e) ->
  Forall P (fill_factor upper nu p b g).2.
Proof.
  intros HP. unfold fill_factor, iter.
  apply (iter_from_inv (fun _ (s : fstate) => Forall P s.2)); [done|].
  intros j s _. by apply fill_column_events.
Qed.

Lemma sample_events inv nu p U T g :
  Forall (fun e => is_loop_event e = true) (sample inv nu p U T g).2.
Proof.
  unfold sample.
  assert (Forall (fun e : event => is_loop_event e = true) (fill_factor 1 nu p T g).2) as Hf.
  { apply fill_factor_events. by intros []. }
  destruct inv; cbn [snd]; apply Forall_app; split; try done; by repeat constructor.
Qed.

Lemma length_copy_slot p (t : list D) off a : length (copy_slot p t off a) = length a.
Proof.
  unfold copy_slot, iter.
  apply (iter_from_inv (fun _ (a' : list D) => length a' = length a)); [done|].
  intros i a' _ Ha'.
  apply (iter_from_inv (fun _ (a'' : list D) => length a'' = length a)); [done|].
  intros k a'' _ Ha''. by rewrite length_upd.
Qed.

(** The loop leaves the output array its length, and its events are
    draws and calls of dtrmm and dtrtri. *)
Lemma rounds_shape inv nu p U n A T g :
  let r := rounds inv nu p U n A T g in
  length r.1 = length A /\ Forall (fun e => is_loop_event e = true) r.2.2.
Proof.
  unfold rounds, iter.
  apply (iter_from_inv (fun _ (s : list D * fstate) =>
    length s.1 = length A /\ Forall (fun e => is_loop_event e = true) s.2.2)); [done|].
  intros j s _ [Hl Hev]. unfold round_on. cbn [fst snd]. split.
  - by rewrite length_copy_slot.
  - apply Forall_app. split; [done | apply sample_events].
Qed.

Lemma setup_events_quiet p n (a : list D) : quiet (setup_events p n a).
Proof. unfold setup_events. by repeat constructor. Qed.

End Rounds.

(** ** Every call is one of four *)

Section Calls.
Context {D rng : Type} `{!Host D rng}.

Local Abbreviation world := (world D rng).
Local Abbreviation event := (event D).
Local Abbreviation M := (@M D rng).

Implicit Types (w : world).

Lemma both_sampler (P : (Z -> D -> SEXP -> M SEXP) -> Prop) :
  (forall inv, P (sampler inv)) -> both P.
Proof.
  intros HP. split.
  - exact (HP false).
  - exact (HP true).
Qed.

(** A call is refused because the argument has no [dim] attribute, or for
    the shape of the matrix, or by dpotrf for a matrix of order 0, or
    because the matrix is not positive-definite, or by the guard of
    [std_rWishart_factor] in the first round of the loop, or it returns. *)
Lemma sampler_cases inv ns nu scal a w :
  heap w !! REAL scal = Some a ->
  let p := dims scal 0 in
  let c := scale_copy (imul p p) a in
  (~ has_dims scal /\ sampler inv ns nu scal w = (Raise msg_integer, w))
  \/ (has_dims scal /\ ~ square_real scal
      /\ sampler inv ns nu scal w = (Raise msg_shape, w))
  \/ (square_real scal /\ p < 1 /\
      exists w', sampler inv ns nu scal w = (Raise msg_xerbla_lda, w')
        /\ trace w' = trace w ++ setup_events p ns a
        /\ gen w' = gen w /\ heap w' !! REAL scal = Some a)
  \/ (square_real scal /\ 1 <= p /\ (h_dpotrf p c).2 <> 0 /\
      exists w', sampler inv ns nu scal w = (Raise msg_pd, w')
        /\ trace w' = trace w ++ setup_events p ns a
        /\ gen w' = gen w /\ heap w' !! REAL scal = Some a)
  \/ (square_real scal /\ 1 <= p /\ (h_dpotrf p c).2 = 0 /\
      d_lt nu (d_of_int p) || (p <=? 0) = true /\
      exists w', sampler inv ns nu scal w = (Raise msg_dof, w')
        /\ trace w' = trace w ++ setup_events p ns a ++ [EvGetRNG]
        /\ gen w' = gen w /\ heap w' !! REAL scal = Some a)
  \/ (square_real scal /\ 1 <= p /\ (h_dpotrf p c).2 = 0 /\
      d_lt nu (d_of_int p) || (p <=? 0) = false /\
      exists ans, heap w !! ans = None /\
        let r := rounds inv nu p (overwrite c (h_dpotrf p c).1) (coerced ns)
                        (h_stale <$> seq 0 (Z.to_nat (p * p * coerced ns)))
                        (replicate (Z.to_nat (imul p p)) d_zero) (gen w) in
        sampler inv ns nu scal w
        = (Ok (mkSEXP REALSXP [Z.to_N p; Z.to_N p; Z.to_N (coerced ns)] ans),
           mkWorld (<[ans := r.1]> (heap w)) r.2.1.2
                   (trace w ++ setup_events p ns a ++ [EvGetRNG] ++ r.2.2
                            ++ [EvPutRNG; EvFree; EvFree]))).
Proof.
  intros Ha p c.
  destruct (decide (has_dims scal)) as [Hd|Hd];
    [|left; split; [done | by apply sampler_nodims_error]].
  right.
  destruct (decide (square_real scal)) as [Hsq|Hsq];
    [|left; split; [done|]; split; [done | by apply sampler_shape_error]].
  right.
  destruct (Z.lt_ge_cases p 1) as [Hp|Hp];
    [left; split; [done|]; split; [done|]; by apply sampler_xerbla_error|].
  right.
  destruct (decide ((h_dpotrf p c).2 = 0)) as [Hinfo|Hinfo];
    [|left; split; [done|]; split; [done|]; split; [done|]; by apply sampler_pd_error].
  right.
  destruct (d_lt nu (d_of_int p) || (p <=? 0)) eqn:Hg.
  - left. split; [done|]. split; [done|]. split; [done|]. split; [done|].
    by apply sampler_dof_error.
  - right. split; [done|]. split; [done|]. split; [done|]. split; [done|].
    by apply sampler_run.
Qed.

(** The only errors of a call are those five: whatever dtrtri reports,
    no error comes of it. *)
Lemma sampler_raises inv ns nu scal a w msg w' :
  heap w !! REAL scal = Some a ->
  sampler inv ns nu scal w = (Raise msg, w') ->
  msg = msg_integer \/ msg = msg_shape \/ msg = msg_xerbla_lda
  \/ msg = msg_pd \/ msg = msg_dof.
Proof.
  intros Ha Hrun.
  destruct (sampler_cases inv ns nu scal a w Ha)
    as [(_ & E)|[(_ & _ & E)|[(_ & _ & w1 & E & _)|[(_ & _ & _ & w1 & E & _)
       |[(_ & _ & _ & _ & w1 & E & _)|(_ & _ & _ & _ & ans & _ & E)]]]]];
    cbv zeta in E; rewrite E in Hrun; inversion Hrun; auto.
Qed.

End Calls.

(** ** Validation, errors and the bracket of the stream *)

Section ErrorClaims.
Context {D rng : Type} `{!Host D rng}.

Local Abbreviation world := (world D rng).
Local Abbreviation event := (event D).
Local Abbreviation M := (@M D rng).

Implicit Types (w : world).

(** C8, amended. When the scale argument carries a [dim] attribute and
    is not a square, real matrix, both [rCholWishart] and
    [rInvCholWishart] raise "'scal' must be a square, real matrix" and
    leave the world as it was: no event has happened, in particular the
    stream has not been acquired and no variate drawn.  An argument
    without a [dim] attribute is not a square real matrix either, and is
    refused even earlier and with another message: the initialiser of
    [dims] at line 81 / 144 applies [INTEGER()] to R_NilValue, which
    raises. *)
Theorem C8_not_square_real_refused ns nu scal w :
  both (fun f =>
    (has_dims scal -> ~ square_real scal -> f ns nu scal w = (Raise msg_shape, w))
    /\ (~ has_dims scal -> f ns nu scal w = (Raise msg_integer, w)))
  /\ msg_shape = "'scal' must be a square, real matrix"
  /\ msg_integer = "INTEGER() can only be applied to a 'integer', not a 'NULL'".
Proof.
  split; [|done].
  apply both_sampler. intros inv. split.
  - intros Hd Hn. by apply sampler_shape_error.
  - intros Hd. by apply sampler_nodims_error.
Qed.

(** C1, amended. With degreesOfFreedom < dimension a call fails, in one
    of five ways that are tested in this order: an argument without [dim]
    attribute is refused by [INTEGER()] and an argument that is not a
    square real matrix with the shape error, and nothing has happened; a
    matrix of order 0 is refused by dpotrf (xerbla) and, for an order
    p >= 1 with p * p an [int], a matrix for which dpotrf reports failure
    is refused as not positive-definite, both after the output array and
    the two work blocks were allocated; otherwise the guard of
    [std_rWishart_factor] raises "inconsistent degrees of freedom and
    dimension" in the first round of the loop: after the allocations, the
    factorisation and GetRNGstate, and before any variate is drawn. *)
Theorem C1_dof_refused_in_first_round ns nu scal a w :
  heap w !! REAL scal = Some a ->
  d_lt nu (d_of_int (dims scal 0)) = true ->
  let p := dims scal 0 in
  let psqr := imul p p in
  let c := take (Z.to_nat psqr) a in
  let info := (h_dpotrf p c).2 in
  both (fun f =>
    (~ has_dims scal -> f ns nu scal w = (Raise msg_integer, w))
    /\ (has_dims scal -> ~ square_real scal -> f ns nu scal w = (Raise msg_shape, w))
    /\ (square_real scal -> p = 0 ->
        exists w', f ns nu scal w = (Raise msg_xerbla_lda, w')
          /\ events_of w w' [EvAlloc3D 0 0 (Z.max 1 ns); EvCalloc 0; EvCalloc 0;
                             EvDpotrf 0 [] (-4)]
          /\ gen w' = gen w)
    /\ (square_real scal -> 1 <= p -> p * p <= INT_MAX -> info <> 0 ->
        exists w', f ns nu scal w = (Raise msg_pd, w')
          /\ events_of w w' [EvAlloc3D p p (Z.max 1 ns); EvCalloc psqr; EvCalloc psqr;
                             EvDpotrf p c info]
          /\ gen w' = gen w)
    /\ (square_real scal -> 1 <= p -> p * p <= INT_MAX -> info = 0 ->
        exists w', f ns nu scal w = (Raise msg_dof, w')
          /\ events_of w w' [EvAlloc3D p p (Z.max 1 ns); EvCalloc psqr; EvCalloc psqr;
                             EvDpotrf p c 0; EvGetRNG]
          /\ gen w' = gen w)).
Proof.
  intros Ha Hlt p psqr c info. apply both_sampler. intros inv.
  split; [by apply sampler_nodims_error|].
  split; [by apply sampler_shape_error|]. split; [|split].
  - intros Hsq Hp.
    destruct (sampler_xerbla_error inv ns nu scal a w Hsq Ha ltac:(fold p; lia))
      as (w' & ? & Htr & ? & _).
    exists w'. split; [done|]. split; [|done].
    unfold events_of. rewrite Htr. unfold setup_events, scale_copy, dpotrf_info.
    fold p. rewrite Hp, coerced_max. done.
  - intros Hsq Hp _ Hinfo.
    destruct (sampler_pd_error inv ns nu scal a w Hsq Ha Hp Hinfo) as (w' & ? & Htr & ? & _).
    exists w'. split; [done|]. split; [|done].
    unfold events_of. rewrite Htr. unfold setup_events, scale_copy.
    fold p psqr c. by rewrite dpotrf_info_ok, coerced_max by done.
  - intros Hsq Hp _ Hinfo.
    destruct (sampler_dof_error inv ns nu scal a w Hsq Ha Hp Hinfo) as (w' & ? & Htr & ? & _).
    + by rewrite Hlt.
    + exists w'. split; [done|]. split; [|done].
      unfold events_of. rewrite Htr. unfold setup_events, scale_copy.
      fold p psqr c. rewrite dpotrf_info_ok, coerced_max by done.
      fold info. by rewrite Hinfo.
Qed.

(** C10, amended. For a 0-by-0 real matrix both entry points pass the
    test of the shape, allocate the output array and the two work blocks,
    and call dpotrf with order 0 and leading dimension 0.  dpotrf refuses
    its fourth argument: xerbla raises "BLAS/LAPACK routine 'DPOTRF' gave
    error code -4" there, whatever nu and the sample count are.  The
    stream is not acquired, the loop and the guard [p <= 0] of
    [std_rWishart_factor] are not reached, and no array is returned. *)
Theorem C10_empty_matrix_refused_by_dpotrf ns nu scal a w :
  sx_type scal = REALSXP ->
  sx_dim scal = [0%N; 0%N] ->
  heap w !! REAL scal = Some a ->
  both (fun f =>
    exists w', f ns nu scal w = (Raise msg_xerbla_lda, w')
      /\ events_of w w' [EvAlloc3D 0 0 (Z.max 1 ns); EvCalloc 0; EvCalloc 0;
                         EvDpotrf 0 [] (-4)]
      /\ gen w' = gen w)
  /\ msg_xerbla_lda = "BLAS/LAPACK routine 'DPOTRF' gave error code -4".
Proof.
  intros Hty Hdim Ha. split; [|done].
  assert (Hsq : square_real scal).
  { unfold square_real, dims. by rewrite Hdim. }
  assert (Hp : dims scal 0 = 0) by (unfold dims; by rewrite Hdim).
  apply both_sampler. intros inv.
  destruct (sampler_xerbla_error inv ns nu scal a w Hsq Ha ltac:(lia))
    as (w' & ? & Htr & ? & _).
  exists w'. split; [done|]. split; [|done].
  unfold events_of. rewrite Htr. unfold setup_events, scale_copy, dpotrf_info.
  rewrite Hp, coerced_max. done.
Qed.

(** C3, amended. GetRNGstate is called at most once in a call, and before
    any draw.  A call that returns has called PutRNGstate exactly once,
    after the last draw and after nothing but draws, dtrmm and dtrtri since
    GetRNGstate.  A call that raises never calls PutRNGstate and has drawn
    nothing: when the error comes from the guard of [std_rWishart_factor]
    inside the loop the stream has been acquired and is left so, otherwise
    it has not been acquired. *)
Theorem C3_bracket_of_the_stream ns nu scal a w :
  heap w !! REAL scal = Some a ->
  both (fun f =>
    exists ev, events_of w (f ns nu scal w).2 ev /\
      match (f ns nu scal w).1 with
      | Ok _ => exists pre mid post,
          ev = pre ++ [EvGetRNG] ++ mid ++ [EvPutRNG] ++ post
          /\ quiet pre
          /\ Forall (fun e => is_loop_event e = true) mid
          /\ quiet post
      | Raise msg =>
          count is_put ev = 0%nat /\ count is_draw ev = 0%nat
          /\ count is_get ev = (if decide (msg = msg_dof) then 1%nat else 0%nat)
      end).
Proof.
  intros Ha. apply both_sampler. intros inv.
  destruct (sampler_cases inv ns nu scal a w Ha)
    as [(_ & E)|[(_ & _ & E)|[(_ & _ & w1 & E & Htr & _)|[(_ & _ & _ & w1 & E & Htr & _)
       |[(_ & _ & _ & _ & w1 & E & Htr & _)|(_ & _ & _ & _ & ans & _ & E)]]]]];
    cbv zeta in *; rewrite E; cbn [fst snd].
  - exists []. split; [unfold events_of; by rewrite app_nil_r | done].
  - exists []. split; [unfold events_of; by rewrite app_nil_r | done].
  - eexists. split; [exact Htr | done].
  - eexists. split; [exact Htr | done].
  - eexists. split; [exact Htr | done].
  - eexists. split; [reflexivity|].
    eexists _, _, [EvFree; EvFree]. split; [reflexivity|].
    split; [apply setup_events_quiet|].
    split; [|by repeat constructor].
    apply rounds_shape.
Qed.

(** C7. A call that returns returns an array of dimensions p, p and
    max(1, sampleCount), whose data are exactly p * p * max(1, sampleCount)
    doubles; and, for an order p >= 1 with max(1, sampleCount) * p * p an
    [int], a call returns whenever the matrix is square and real, dpotrf
    reports success and the guard of [std_rWishart_factor] passes: a
    sample count of 0 or less is not refused. *)
Theorem C7_sample_count_coerced ns nu scal a w :
  heap w !! REAL scal = Some a ->
  let p := dims scal 0 in
  both (fun f =>
    (forall s w', f ns nu scal w = (Ok s, w') ->
       Z.of_N <$> sx_dim s = [p; p; Z.max 1 ns]
       /\ length (block w' (REAL s)) = Z.to_nat (p * p * Z.max 1 ns))
    /\ (square_real scal ->
        (h_dpotrf p (scale_copy (imul p p) a)).2 = 0 ->
        d_lt nu (d_of_int p) = false -> 1 <= p ->
        Z.max 1 ns * (p * p) <= INT_MAX ->
        exists s w', f ns nu scal w = (Ok s, w'))).
Proof.
  intros Ha p. apply both_sampler. intros inv.
  destruct (sampler_cases inv ns nu scal a w Ha)
    as [(Hd & E)|[(_ & Hn & E)|[(_ & Hp0 & w1 & E & _)|[(_ & _ & Hi & w1 & E & _)
       |[(_ & _ & _ & Hg & w1 & E & _)|(_ & Hp1 & _ & _ & ans & _ & E)]]]]];
    cbv zeta in *; fold p in E; fold p.
  - split; [intros s w'; congruence |].
    intros Hsq. apply square_real_has_dims in Hsq. tauto.
  - split; [intros s w'; congruence | tauto].
  - split; [intros s w'; congruence |]. fold p in Hp0. intros; lia.
  - split; [intros s w'; congruence | tauto].
  - split; [intros s w'; congruence |].
    intros _ _ Hlt Hp _. fold p in Hg. rewrite Hlt in Hg. simpl in Hg.
    apply Z.leb_le in Hg. lia.
  - split; [|by eauto].
    intros s w'. rewrite E. intros [= <- <-]. rewrite <- coerced_max.
    pose proof (coerced_pos ns). fold p in Hp1.
    split; [cbn; by rewrite !Z2N.id by lia|].
    unfold block, REAL. simpl. rewrite lookup_insert_eq. simpl.
    match goal with |- context [rounds ?i ?n ?q ?u ?k ?aa ?t ?g] =>
      destruct (rounds_shape i n q u k aa t g) as [-> _] end.
    by rewrite length_fmap, length_seq.
Qed.


End ErrorClaims.

(** ** The standardized factor *)

Section FactorClaim.
Context {D rng : Type} `{!Host D rng}.

Local Abbreviation world := (world D rng).

(** C4. For p >= 1 (with p * p an [int]) and nu not below p,
    [std_rWishart_factor] on a block of at least p * p doubles returns the
    block after drawing exactly the requests of [draw_order nu p]: column
    by column for j = 0 .. p-1, one chi-squared variate with shape nu - j
    and then j standard-normal variates.  With [vs] the variates in the
    order drawn, the diagonal entry of column j is the square root of
    variate number tri j, the entry of the filled triangle for (i, j),
    i < j, is variate number tri j + 1 + i, and its mirror image is the
    double 0. *)
Theorem C4_factor_filled_in_draw_order (nu : D) (p upper : Z) (l : loc) (w : world) :
  1 <= p ->
  p * p <= INT_MAX ->
  d_lt nu (d_of_int p) = false ->
  (Z.to_nat (p * p) <= length (block w l))%nat ->
  let vs := (serve (draw_order nu p) (gen w)).1 in
  exists b',
    std_rWishart_factor nu p upper l w
    = (Ok l, mkWorld (<[l := b']> (heap w))
                     (serve (draw_order nu p) (gen w)).2
                     (trace w ++ draw_order nu p))
    /\ length b' = length (block w l)
    /\ forall j, 0 <= j < p ->
         b' !! Z.to_nat (pidx upper p j j) = Some (d_sqrt (variate vs (tri j)))
         /\ forall i, 0 <= i < j ->
              b' !! Z.to_nat (pidx upper p i j) = Some (variate vs (tri j + 1 + i))
              /\ b' !! Z.to_nat (pidx upper p j i) = Some d_zero.
Proof.
  intros Hp Hrange Hnu Hlen vs.
  pose proof (fill_factor_inv upper nu p (gen w) (length (block w l))
                Hp Hrange Hlen (block w l) eq_refl) as (Hev & Hg & HL & Hcols).
  exists (fill_factor upper nu p (block w l) (gen w)).1.1.
  split; [|split; [done|]].
  - rewrite std_rWishart_factor_run.
    + unfold on_block. by rewrite Hg, Hev.
    + rewrite Hnu. simpl. apply Z.leb_gt. lia.
  - intros j Hj. rewrite Hev in Hcols. apply (Hcols j Hj).
Qed.

End FactorClaim.

(** ** The contents of the output array *)

Section Output.
Context {D rng : Type} `{!Host D rng}.

Local Abbreviation world := (world D rng).
Local Abbreviation fstate := (@fstate D rng).

Variables (nu : D) (p : Z).
Hypothesis Hp : 1 <= p.
Hypothesis Hrange : p * p <= INT_MAX.

Lemma lookup_rd (t : list D) k :
  0 <= k -> (Z.to_nat k < length t)%nat -> t !! Z.to_nat k = Some (rd t k).
Proof.
  intros Hk Hlt. unfold rd. destruct (Z.ltb_spec k 0); [lia|].
  destruct (lookup_lt_is_Some_2 t (Z.to_nat k) Hlt) as [x ->]. done.
Qed.

Lemma copy_slot_spec (t : list D) off (a : list D) :
  0 <= off ->
  (Z.to_nat (off + p * p) <= length a)%nat ->
  (Z.to_nat (p * p) <= length t)%nat ->
  copy_inv p t off a p 0 (copy_slot p t off a).
Proof.
  intros Hoff Ha Ht. unfold copy_slot.
  apply (iter_inv (fun i a' => copy_inv p t off a i 0 a')); [lia | |].
  { split; [done|]. split; [|done]. intros r c Hr Hc. lia. }
  intros i a' Hi Hinv.
  assert (copy_inv p t off a i p
            (iter 0 p (fun k a'' =>
               upd a'' (off + iadd i (imul k p)) (rd t (iadd i (imul k p)))) a')) as (Hl & Hin & Hout).
  { apply (iter_inv (fun k a'' => copy_inv p t off a i k a'')); [lia | done |].
    intros k a'' Hk (Hl & Hin & Hout).
    rewrite (idx_exact p i k Hrange) by lia.
    assert (0 <= i + k * p < p * p) as Hik by nia.
    split; [by rewrite length_upd|]. split.
    - intros r c Hr Hc Hrc.
      destruct (decide (r = i /\ c = k)) as [[-> ->]|Hne].
      + rewrite lookup_upd_eq by lia. symmetry. apply lookup_rd; lia.
      + rewrite lookup_upd_ne.
        * apply Hin; [done | done | lia].
        * nia.
        * intros Heq.
          destruct (pidx_inj 1 p i k r c ltac:(lia) ltac:(lia) Hr Hc) as [-> ->];
            [unfold pidx; simpl; lia | tauto].
    - intros q Hq Hqo. rewrite lookup_upd_ne; [by apply Hout | done | lia]. }
  split; [done|]. split; [|done].
  intros r c Hr Hc Hrc. apply Hin; [done | done | lia].
Qed.

(** Past the memset the factor does not depend on what [tmp] held. *)
Lemma fill_factor_indep upper (T : list D) (g : rng) :
  length T = Z.to_nat (p * p) ->
  fill_factor upper nu p T g = fill_factor upper nu p [] g.
Proof.
  intros HT. unfold fill_factor. rewrite (psqr_exact p Hrange).
  rewrite drop_ge by lia. by rewrite drop_nil.
Qed.

Lemma sample_indep inv U (T : list D) (g : rng) :
  length T = Z.to_nat (p * p) ->
  sample inv nu p U T g = sample inv nu p U [] g.
Proof. intros HT. unfold sample. by rewrite (fill_factor_indep 1 T g HT). Qed.

Lemma fill_factor_nil_inv upper (g : rng) :
  factor_inv upper nu p g (Z.to_nat (p * p)) p (fill_factor upper nu p [] g).
Proof.
  rewrite <- (fill_factor_indep upper (replicate (Z.to_nat (p * p)) d_zero) g)
    by apply length_replicate.
  apply fill_factor_inv; [done | done | lia | apply length_replicate].
Qed.

Lemma length_sample inv U (g : rng) :
  length (sample inv nu p U [] g).1.1 = Z.to_nat (p * p).
Proof.
  destruct (fill_factor_nil_inv 1 g) as (_ & _ & HL & _).
  unfold sample. destruct inv; cbn [fst]; by rewrite !length_overwrite.
Qed.

Lemma gen_sample inv U (g : rng) :
  (sample inv nu p U [] g).1.2 = (serve (draw_order nu p) g).2.
Proof.
  destruct (fill_factor_nil_inv 1 g) as (Hev & Hg & _).
  unfold sample. destruct inv; cbn [fst snd]; by rewrite Hg, Hev.
Qed.

(** The factor is upper triangular. *)
Lemma fill_factor_lower_zero (g : rng) :
  lower_zero p (fill_factor 1 nu p [] g).1.1.
Proof.
  destruct (fill_factor_nil_inv 1 g) as (_ & _ & _ & Hcols).
  intros r c Hc Hr. destruct (Hcols r ltac:(lia)) as [_ Ho].
  destruct (Ho c ltac:(lia)) as [_ Hz]. exact Hz.
Qed.

Lemma lower_zero_overwrite (old new : list D) :
  lower_zero p old -> lower_zero p new -> lower_zero p (overwrite old new).
Proof.
  intros Ho Hn r c Hc Hr. unfold entry, overwrite.
  pose proof (Ho r c Hc Hr) as Ho'. pose proof (Hn r c Hc Hr) as Hn'.
  unfold entry in Ho', Hn'.
  apply lookup_lt_Some in Ho' as Hlo. apply lookup_lt_Some in Hn' as Hln.
  rewrite lookup_app_l by (rewrite length_take; lia).
  by rewrite lookup_take_lt by lia.
Qed.

(** With dtrmm and dtrtri keeping the zeros below the diagonal of the
    matrix that the round gives them, so does the round. *)
Lemma sample_lower_zero inv U (g : rng) :
  (lower_zero p (fill_factor 1 nu p [] g).1.1 ->
   lower_zero p (h_dtrmm p d_one U (fill_factor 1 nu p [] g).1.1)) ->
  (lower_zero p (sample false nu p U [] g).1.1 ->
   lower_zero p (h_dtrtri p (sample false nu p U [] g).1.1).1) ->
  lower_zero p (sample inv nu p U [] g).1.1.
Proof.
  intros Hmm Htri. unfold sample in *. cbn [fst] in Htri.
  pose proof (fill_factor_lower_zero g) as Hf.
  assert (lower_zero p (overwrite (fill_factor 1 nu p [] g).1.1
            (h_dtrmm p d_one U (fill_factor 1 nu p [] g).1.1))) as Ht
    by (apply lower_zero_overwrite; [done | by apply Hmm]).
  destruct inv; cbn [fst]; [|done].
  apply lower_zero_overwrite; [done | by apply Htri].
Qed.

Variables (inv : bool) (U : list D) (g0 : rng) (n : Z).
Hypothesis Hn : n * (p * p) <= INT_MAX.

Lemma round_on_inv (LA : nat) k (s : list D * fstate) :
  0 <= k < n ->
  LA = Z.to_nat (p * p * n) ->
  rounds_inv inv nu p U g0 LA k s ->
  rounds_inv inv nu p U g0 LA (k + 1) (round_on inv nu p U k s).
Proof.
  intros Hk HLA (HlA & HlT & Hg & Hdone). unfold round_on.
  rewrite (sample_indep inv U _ _ HlT). rewrite Hg.
  fold (sample_at inv nu p U (Z.to_nat k) g0).
  rewrite (psqr_exact p Hrange).
  rewrite (imul_id k (p * p)) by (unfold in_int, INT_MIN, INT_MAX in *; nia).
  destruct (copy_slot_spec (sample_at inv nu p U (Z.to_nat k) g0) (k * (p * p)) s.1)
    as (Hl & Hin & Hout).
  { nia. }
  { rewrite HlA, HLA. apply Z2Nat.inj_le; nia. }
  { unfold sample_at. by rewrite length_sample. }
  split; [cbn [fst]; by rewrite Hl|].
  split; [cbn [fst snd]; apply length_sample|].
  split.
  { cbn [fst snd]. rewrite gen_sample.
    replace (Z.to_nat (k + 1)) with (S (Z.to_nat k)) by lia. done. }
  cbn [fst]. intros j r c Hj Hr Hc.
  destruct (decide (j = k)) as [->|Hne].
  - by apply Hin; [| |lia].
  - rewrite Hout; [apply Hdone; [lia | done..] | nia | left; nia].
Qed.

Lemma rounds_contents (A T : list D) :
  0 <= n ->
  length A = Z.to_nat (p * p * n) ->
  length T = Z.to_nat (p * p) ->
  rounds_inv inv nu p U g0 (length A) n (rounds inv nu p U n A T g0).
Proof.
  intros Hn0 HA HT. unfold rounds.
  apply (iter_inv (rounds_inv inv nu p U g0 (length A))); [done | |].
  - split; [done|]. split; [done|]. split; [done|]. intros j r c Hj. lia.
  - intros k s Hk. by apply round_on_inv.
Qed.

(** Matrix number j of the output array is the sample of round j. *)
Lemma slot_rounds (A T : list D) j :
  0 <= j < n ->
  length A = Z.to_nat (p * p * n) ->
  length T = Z.to_nat (p * p) ->
  slot p j (rounds inv nu p U n A T g0).1 = sample_at inv nu p U (Z.to_nat j) g0.
Proof.
  intros Hj HA HT.
  destruct (rounds_contents A T ltac:(lia) HA HT) as (HlA & _ & _ & Hdone).
  apply list_eq. intros q. unfold slot.
  destruct (decide (q < Z.to_nat (p * p))%nat) as [Hq|Hq].
  - rewrite lookup_take_lt by done. rewrite lookup_drop.
    pose proof (Z.div_mod (Z.of_nat q) p ltac:(lia)) as Hdm.
    pose proof (Z.mod_pos_bound (Z.of_nat q) p ltac:(lia)) as Hm.
    assert (0 <= Z.of_nat q `div` p < p) as Hd.
    { split; [apply Z.div_pos; lia | apply Z.div_lt_upper_bound; lia]. }
    specialize (Hdone j (Z.of_nat q `mod` p) (Z.of_nat q `div` p) Hj Hm Hd).
    replace (Z.of_nat q `mod` p + Z.of_nat q `div` p * p) with (Z.of_nat q) in Hdone by lia.
    rewrite Nat2Z.id in Hdone. rewrite <- Hdone. f_equal. nia.
  - rewrite lookup_take_ge by lia. symmetry. apply lookup_ge_None.
    unfold sample_at. rewrite length_sample. lia.
Qed.

End Output.

(** ** The samples of a call *)

Section Samples.
Context {D rng : Type} `{!Host D rng}.

Local Abbreviation world := (world D rng).

Implicit Types (w : world).

(** A call that passes every test returns, in matrix number j of its
    array, the sample of round j. *)
Lemma sampler_slots inv ns nu scal a w :
  square_real scal ->
  heap w !! REAL scal = Some a ->
  let p := dims scal 0 in
  let c := scale_copy (imul p p) a in
  1 <= p ->
  Z.max 1 ns * (p * p) <= INT_MAX ->
  d_lt nu (d_of_int p) = false ->
  (h_dpotrf p c).2 = 0 ->
  exists s w',
    sampler inv ns nu scal w = (Ok s, w')
    /\ gen w' = gen_at nu p (Z.to_nat (Z.max 1 ns)) (gen w)
    /\ forall j, 0 <= j < Z.max 1 ns ->
         slot p j (block w' (REAL s))
         = sample_at inv nu p (overwrite c (h_dpotrf p c).1) (Z.to_nat j) (gen w).
Proof.
  intros Hsq Ha p c Hp Hn Hnu Hinfo.
  assert (Hrange : p * p <= INT_MAX) by nia.
  destruct (sampler_run inv ns nu scal a w Hsq Ha Hinfo) as (ans & Hans & Hrun).
  { fold p. rewrite Hnu. simpl. apply Z.leb_gt. lia. }
  cbv zeta in Hrun. fold p c in Hrun. rewrite coerced_max in Hrun.
  eexists _, _. split; [exact Hrun|].
  unfold block, REAL. cbn [heap gen sx_data]. rewrite lookup_insert_eq. cbn [default].
  set (A0 := h_stale <$> seq 0 (Z.to_nat (p * p * Z.max 1 ns))) in *.
  set (T0 := replicate (Z.to_nat (imul p p)) d_zero) in *.
  assert (HA : length A0 = Z.to_nat (p * p * Z.max 1 ns))
    by (unfold A0; by rewrite length_fmap, length_seq).
  assert (HT : length T0 = Z.to_nat (p * p))
    by (unfold T0; by rewrite length_replicate, psqr_exact).
  split.
  - by destruct (rounds_contents nu p Hp Hrange inv (overwrite c (h_dpotrf p c).1)
                   (gen w) (Z.max 1 ns) Hn A0 T0 ltac:(lia) HA HT) as (_ & _ & -> & _).
  - intros j Hj. by apply slot_rounds.
Qed.

(** C6. For a square real matrix of order p >= 1 with
    max(1, sampleCount) * p * p an [int], that dpotrf factors, and nu not
    below p, both entry points return an array in which every entry
    strictly below the diagonal of every one of the max(1, sampleCount)
    matrices is the double 0, whatever the memory held when it was
    allocated.  dtrmm and dtrtri are external; what is assumed of them is
    that they keep the zeros below the diagonal of the matrices that this
    call gives them: dtrmm those of the factor of each round, which it
    multiplies by the matrix that dpotrf left in [scCp], and dtrtri those
    of the product of each round. *)
Theorem C6_outputs_upper_triangular ns nu scal a w :
  square_real scal ->
  heap w !! REAL scal = Some a ->
  let p := dims scal 0 in
  let n := Z.max 1 ns in
  let c := scale_copy (imul p p) a in
  let U := overwrite c (h_dpotrf p c).1 in
  1 <= p ->
  n * (p * p) <= INT_MAX ->
  d_lt nu (d_of_int p) = false ->
  (h_dpotrf p c).2 = 0 ->
  (forall k, (k < Z.to_nat n)%nat ->
     lower_zero p (factor_at nu p k (gen w)) ->
     lower_zero p (h_dtrmm p d_one U (factor_at nu p k (gen w)))) ->
  (forall k, (k < Z.to_nat n)%nat ->
     lower_zero p (sample_at false nu p U k (gen w)) ->
     lower_zero p (h_dtrtri p (sample_at false nu p U k (gen w))).1) ->
  both (fun f =>
    exists s w', f ns nu scal w = (Ok s, w')
      /\ forall j, 0 <= j < n -> lower_zero p (slot p j (block w' (REAL s)))).
Proof.
  intros Hsq Ha p n c U Hp Hn Hnu Hinfo Hmm Htri.
  assert (Hrange : p * p <= INT_MAX) by nia.
  apply both_sampler. intros inv.
  destruct (sampler_slots inv ns nu scal a w Hsq Ha Hp Hn Hnu Hinfo)
    as (s & w' & Hrun & _ & Hslots).
  exists s, w'. split; [done|].
  intros j Hj. fold p n c U in Hslots. rewrite (Hslots j Hj). unfold sample_at.
  apply sample_lower_zero; [done | done | |].
  - apply (Hmm (Z.to_nat j)). lia.
  - apply (Htri (Z.to_nat j)). lia.
Qed.

(** C5. On the same inputs and the same state of the stream, matrix
    number j that [rInvCholWishart] returns is what dtrtri leaves of
    matrix number j that [rCholWishart] returns, and both calls leave the
    stream in the same state. *)
Theorem C5_inverse_mode_is_dtrtri_of_normal_mode ns nu scal a w :
  square_real scal ->
  heap w !! REAL scal = Some a ->
  let p := dims scal 0 in
  1 <= p ->
  Z.max 1 ns * (p * p) <= INT_MAX ->
  d_lt nu (d_of_int p) = false ->
  (h_dpotrf p (scale_copy (imul p p) a)).2 = 0 ->
  exists s1 w1 s2 w2,
    rCholWishart ns nu scal w = (Ok s1, w1)
    /\ rInvCholWishart ns nu scal w = (Ok s2, w2)
    /\ gen w2 = gen w1
    /\ forall j, 0 <= j < Z.max 1 ns ->
         slot p j (block w2 (REAL s2)) = inverted p (slot p j (block w1 (REAL s1))).
Proof.
  intros Hsq Ha p Hp Hn Hnu Hinfo.
  destruct (sampler_slots false ns nu scal a w Hsq Ha Hp Hn Hnu Hinfo)
    as (s1 & w1 & Hrun1 & Hg1 & Hslots1).
  destruct (sampler_slots true ns nu scal a w Hsq Ha Hp Hn Hnu Hinfo)
    as (s2 & w2 & Hrun2 & Hg2 & Hslots2).
  exists s1, w1, s2, w2. split; [exact Hrun1|]. split; [exact Hrun2|].
  split; [by rewrite Hg1, Hg2|].
  intros j Hj. fold p in Hslots1, Hslots2.
  by rewrite (Hslots1 j Hj), (Hslots2 j Hj).
Qed.

End Samples.

(** ** The integer host *)

Module IntHostFacts.
Import IntHost.

Lemma lookup_tabulate (n : nat) (f : nat -> nat -> Z) (i j : nat) :
  (i < n)%nat -> (j < n)%nat -> tabulate n f !! (i + j * n)%nat = Some (f i j).
Proof.
  intros Hi Hj. unfold tabulate.
  rewrite list_lookup_fmap, lookup_seq_lt by nia. simpl.
  rewrite Nat.Div0.mod_add, Nat.div_add by lia.
  by rewrite Nat.mod_small, Nat.div_small by lia.
Qed.

Lemma sumZ_zero (l : list Z) : Forall (fun x => x = 0) l -> sumZ l = 0.
Proof. induction 1 as [|x l -> _ IH]; [done|]. simpl. by rewrite IH. Qed.

Lemma entry_nat (p : Z) (m : list Z) (r c : Z) :
  0 <= r -> 0 <= c -> 0 <= p ->
  entry p m r c = m !! (Z.to_nat r + Z.to_nat c * Z.to_nat p)%nat.
Proof. intros Hr Hc Hp. unfold entry. f_equal. nia. Qed.

Lemma ent_lower_zero (p : Z) (m : list Z) (r c : nat) :
  lower_zero p m -> (c < r)%nat -> (r < Z.to_nat p)%nat -> ent (Z.to_nat p) m r c = 0.
Proof.
  intros Hm Hc Hr. unfold ent.
  specialize (Hm (Z.of_nat r) (Z.of_nat c) ltac:(lia) ltac:(lia)).
  rewrite entry_nat in Hm by lia. rewrite !Nat2Z.id in Hm. by rewrite Hm.
Qed.

(** The product with an upper triangular matrix keeps the zeros below the
    diagonal. *)
Lemma int_dtrmm_lower_zero (p : Z) (alpha : Z) (A B : list Z) :
  lower_zero p B -> lower_zero p (int_dtrmm p alpha A B).
Proof.
  intros HB r c Hc Hr. rewrite entry_nat by lia.
  unfold int_dtrmm. rewrite lookup_tabulate by lia. f_equal.
  change (@d_zero Z (list Z) int_host) with 0.
  rewrite sumZ_zero; [lia|].
  apply Forall_fmap, Forall_forall. intros k Hk%elem_of_seq. simpl.
  rewrite (ent_lower_zero p B) by (done || lia). lia.
Qed.

(** The inversion of an upper triangular matrix leaves what is below the
    diagonal. *)
Lemma int_dtrtri_lower_zero (p : Z) (B : list Z) :
  lower_zero p B -> lower_zero p (int_dtrtri p B).1.
Proof.
  intros HB. unfold int_dtrtri.
  destruct (filter _ _) as [|j js]; [|done]. simpl.
  intros r c Hc Hr. rewrite entry_nat by lia.
  rewrite lookup_tabulate by lia.
  destruct (Nat.leb_spec (Z.to_nat r) (Z.to_nat c)); [lia|].
  f_equal. change (@d_zero Z (list Z) int_host) with 0.
  apply ent_lower_zero; [done | lia | lia].
Qed.

End IntHostFacts.

(** ** The code on concrete calls *)

Import IntHost.

(** A 2-by-3 real matrix is refused for its shape. *)
Lemma C8_not_square_real_refused_witness :
  both (fun f => f 3 5 (mkSEXP REALSXP [2%N; 3%N] 1%positive)
                   (world_of [1; 2; 3; 4; 5; 6] [7; 8])
                 = (Raise msg_shape, world_of [1; 2; 3; 4; 5; 6] [7; 8])).
Proof.
  destruct (C8_not_square_real_refused 3 5 (mkSEXP REALSXP [2%N; 3%N] 1%positive)
              (world_of [1; 2; 3; 4; 5; 6] [7; 8])) as [[[H1 _] [H2 _]] _].
  split; [apply H1 | apply H2];
    (discriminate || (intros (_ & _ & H); vm_compute in H; discriminate H)).
Defined.

(** C8 as the specification states it fails: a real vector of six doubles
    without [dim] attribute is not a square real matrix, and neither entry
    point refuses it with the shape error: [INTEGER()] raises first. *)
Lemma C8_shape_refused_counterexample :
  ~ square_real (mkSEXP REALSXP [] 1%positive)
  /\ ~ shape_refused rCholWishart 3 5 (mkSEXP REALSXP [] 1%positive)
        (world_of [1; 2; 3; 4; 5; 6] [7; 8])
  /\ ~ shape_refused rInvCholWishart 3 5 (mkSEXP REALSXP [] 1%positive)
        (world_of [1; 2; 3; 4; 5; 6] [7; 8])
  /\ (rCholWishart 3 5 (mkSEXP REALSXP [] 1%positive)
        (world_of [1; 2; 3; 4; 5; 6] [7; 8])).1 = Raise msg_integer
  /\ (rInvCholWishart 3 5 (mkSEXP REALSXP [] 1%positive)
        (world_of [1; 2; 3; 4; 5; 6] [7; 8])).1 = Raise msg_integer.
Proof.
  split; [intros (H & _); vm_compute in H; discriminate H|].
  split; [intros H; vm_compute in H; discriminate H|].
  split; [intros H; vm_compute in H; discriminate H|].
  split; vm_compute; reflexivity.
Qed.

(** nu = 1 with the 2-by-2 identity: refused by the guard of
    [std_rWishart_factor], after the allocations, dpotrf and GetRNGstate. *)
Lemma C1_dof_refused_in_first_round_witness :
  exists w',
    rCholWishart 1 1 (matrix_of 2) (world_of [1; 0; 0; 1] [1; 1; -3]) = (Raise msg_dof, w')
    /\ events_of (world_of [1; 0; 0; 1] [1; 1; -3]) w'
         [EvAlloc3D 2 2 1; EvCalloc 4; EvCalloc 4; EvDpotrf 2 [1; 0; 0; 1] 0; EvGetRNG]
    /\ gen w' = [1; 1; -3].
Proof.
  destruct (C1_dof_refused_in_first_round 1 1 (matrix_of 2) [1; 0; 0; 1]
              (world_of [1; 0; 0; 1] [1; 1; -3])
              ltac:(vm_compute; reflexivity) ltac:(vm_compute; reflexivity))
    as [(_ & _ & _ & _ & H) _].
  apply H; [by repeat split | vm_compute; discriminate | vm_compute; discriminate
           | vm_compute; reflexivity].
Defined.

(** C1 as the specification states it fails: with nu = 1 < p = 2 and the
    identity as scale matrix the error is raised after the output array
    has been allocated and the stream acquired; and with nu = 0 < p = 1 and
    the matrix (-1) the error is not the degrees-of-freedom error. *)
Lemma C1_dof_validated_first_counterexample :
  d_lt 1 (d_of_int (dims (matrix_of 2) 0)) = true
  /\ ~ dof_validated_first rCholWishart 1 1 (matrix_of 2) (world_of [1; 0; 0; 1] [1; 1; -3])
  /\ d_lt 0 (d_of_int (dims (matrix_of 1) 0)) = true
  /\ ~ dof_validated_first rInvCholWishart 1 0 (matrix_of 1) (world_of [-1] [1]).
Proof.
  split; [vm_compute; reflexivity|]. split; [|split; [vm_compute; reflexivity|]].
  - intros (_ & H & _). vm_compute in H. discriminate H.
  - intros (H & _). vm_compute in H. discriminate H.
Qed.

(** C2. With the 1-by-1 matrix (1), nu = 1 and a stream whose chi-squared
    variate is 0, the combined factor is (0); dtrtri reports info = 1 and
    [rInvCholWishart] goes on: it copies the matrix that was not inverted
    and returns normally. *)
Theorem C2_dtrtri_info_not_examined :
  run (rInvCholWishart 1 1 (matrix_of 1)) (world_of [1] [0])
  = (Ok ([1; 1; 1], [0]),
     [EvAlloc3D 1 1 1; EvCalloc 1; EvCalloc 1; EvDpotrf 1 [1] 0; EvGetRNG;
      EvChisq 1; EvDtrmm 1; EvDtrtri 1 1; EvPutRNG; EvFree; EvFree]).
Proof. vm_compute. reflexivity. Qed.

Lemma C3_bracket_of_the_stream_witness :
  both (fun f =>
    exists ev, events_of (world_of [4; 2; 2; 5] [16; 9; 3; 25; 7; 49])
                 (f 2 5 (matrix_of 2) (world_of [4; 2; 2; 5] [16; 9; 3; 25; 7; 49])).2 ev /\
      match (f 2 5 (matrix_of 2) (world_of [4; 2; 2; 5] [16; 9; 3; 25; 7; 49])).1 with
      | Ok _ => exists pre mid post,
          ev = pre ++ [EvGetRNG] ++ mid ++ [EvPutRNG] ++ post
          /\ quiet pre
          /\ Forall (fun e => is_loop_event e = true) mid
          /\ quiet post
      | Raise msg =>
          count is_put ev = 0%nat /\ count is_draw ev = 0%nat
          /\ count is_get ev = (if decide (msg = msg_dof) then 1%nat else 0%nat)
      end).
Proof.
  apply (C3_bracket_of_the_stream 2 5 (matrix_of 2) [4; 2; 2; 5]).
  vm_compute. reflexivity.
Defined.

(** C3 as the specification states it fails: the 3-by-3 identity with
    nu = 2 makes the first round of the loop raise, and the call ends with
    the stream acquired and not released; and a matrix that is not square
    is refused with the stream never acquired. *)
Lemma C3_bracketed_once_counterexample :
  (rInvCholWishart 2 2 (matrix_of 3) (world_of [1; 0; 0; 0; 1; 0; 0; 0; 1] [4; 4; 4])).1
  = Raise msg_dof
  /\ ~ bracketed_once
       (trace (rInvCholWishart 2 2 (matrix_of 3)
                 (world_of [1; 0; 0; 0; 1; 0; 0; 0; 1] [4; 4; 4])).2)
  /\ ~ bracketed_once
       (trace (rCholWishart 2 5 (mkSEXP REALSXP [2%N; 3%N] 1%positive)
                 (world_of [1; 2; 3; 4; 5; 6] [4; 4; 4])).2).
Proof.
  split; [vm_compute; reflexivity|]. split.
  - intros (_ & H). vm_compute in H. discriminate H.
  - intros (H & _). vm_compute in H. discriminate H.
Qed.

(** A sample count of -3 gives one 2-by-2 matrix. *)
Lemma C7_sample_count_coerced_witness :
  exists s w',
    rCholWishart (-3) 5 (matrix_of 2) (world_of [4; 2; 2; 5] [16; 9; 3]) = (Ok s, w')
    /\ Z.of_N <$> sx_dim s = [2; 2; 1]
    /\ length (block w' (REAL s)) = 4%nat.
Proof.
  destruct (C7_sample_count_coerced (-3) 5 (matrix_of 2) [4; 2; 2; 5]
              (world_of [4; 2; 2; 5] [16; 9; 3]) ltac:(vm_compute; reflexivity))
    as [[Hdim Hret] _].
  destruct Hret as (s & w' & Hrun);
    [by repeat split | vm_compute; reflexivity | vm_compute; reflexivity
    | vm_compute; discriminate | vm_compute; discriminate |].
  exists s, w'. split; [exact Hrun|]. exact (Hdim s w' Hrun).
Defined.


(** The empty matrix with nu = 3 and four samples asked for. *)
Lemma C10_empty_matrix_refused_by_dpotrf_witness :
  exists w',
    rInvCholWishart 4 3 (matrix_of 0) (world_of [] [5]) = (Raise msg_xerbla_lda, w')
    /\ events_of (world_of [] [5]) w'
         [EvAlloc3D 0 0 4; EvCalloc 0; EvCalloc 0; EvDpotrf 0 [] (-4)]
    /\ gen w' = [5].
Proof.
  destruct (C10_empty_matrix_refused_by_dpotrf 4 3 (matrix_of 0) [] (world_of [] [5])
              ltac:(reflexivity) ltac:(reflexivity) ltac:(vm_compute; reflexivity))
    as [[_ H] _].
  exact H.
Defined.

(** C10 as the specification states it fails: for the empty matrix
    neither entry point gets as far as the loop; the error is that of
    xerbla, not that of the guard, and the stream is never acquired. *)
Lemma C10_refused_in_loop_counterexample :
  square_real (matrix_of 0)
  /\ dims (matrix_of 0) 0 = 0
  /\ ~ refused_in_loop rCholWishart 4 3 (matrix_of 0) (world_of [] [5])
  /\ ~ refused_in_loop rInvCholWishart 4 3 (matrix_of 0) (world_of [] [5])
  /\ run (rCholWishart 4 3 (matrix_of 0)) (world_of [] [5])
     = (Raise msg_xerbla_lda,
        [EvAlloc3D 0 0 4; EvCalloc 0; EvCalloc 0; EvDpotrf 0 [] (-4)])
  /\ run (rInvCholWishart 4 3 (matrix_of 0)) (world_of [] [5])
     = (Raise msg_xerbla_lda,
        [EvAlloc3D 0 0 4; EvCalloc 0; EvCalloc 0; EvDpotrf 0 [] (-4)]).
Proof.
  split; [by repeat split|]. split; [reflexivity|].
  split; [intros (H & _); vm_compute in H; discriminate H|].
  split; [intros (H & _); vm_compute in H; discriminate H|].
  split; vm_compute; reflexivity.
Qed.

(** The 2-by-2 factor with nu = 5 from the stream 16, 9, 3: the diagonal
    is 4 and 3, the entry above the diagonal is 3, the one below is 0. *)
Lemma C4_factor_filled_in_draw_order_witness :
  exists b',
    std_rWishart_factor 5 2 1 1%positive (world_of [7; 7; 7; 7] [16; 9; 3])
    = (Ok 1%positive,
       mkWorld (<[1%positive := b']> (heap (world_of [7; 7; 7; 7] [16; 9; 3])))
               [] [EvChisq 5; EvChisq 4; EvNorm])
    /\ b' !! 0%nat = Some 4 /\ b' !! 3%nat = Some 3
    /\ b' !! 2%nat = Some 3 /\ b' !! 1%nat = Some 0.
Proof.
  destruct (C4_factor_filled_in_draw_order 5 2 1 1%positive
              (world_of [7; 7; 7; 7] [16; 9; 3]))
    as (b' & Hrun & _ & Hb);
    [lia | vm_compute; discriminate | vm_compute; reflexivity | vm_compute; lia |].
  exists b'. split; [exact Hrun|].
  destruct (Hb 0 ltac:(lia)) as [H0 _].
  destruct (Hb 1 ltac:(lia)) as [H1 H01]. destruct (H01 0 ltac:(lia)) as [Hu Hl].
  repeat split; [exact H0 | exact H1 | exact Hu | exact Hl].
Defined.

Lemma C5_inverse_mode_is_dtrtri_of_normal_mode_witness :
  exists s1 w1 s2 w2,
    rCholWishart 2 5 (matrix_of 2) (world_of [1; 0; 0; 1] [1; 1; -3; 1; 1; 2]) = (Ok s1, w1)
    /\ rInvCholWishart 2 5 (matrix_of 2) (world_of [1; 0; 0; 1] [1; 1; -3; 1; 1; 2]) = (Ok s2, w2)
    /\ gen w2 = gen w1
    /\ forall j, 0 <= j < Z.max 1 2 ->
         slot 2 j (block w2 (REAL s2)) = inverted 2 (slot 2 j (block w1 (REAL s1))).
Proof.
  apply (C5_inverse_mode_is_dtrtri_of_normal_mode 2 5 (matrix_of 2) [1; 0; 0; 1]);
    [by repeat split | vm_compute; reflexivity | vm_compute; discriminate
    | vm_compute; discriminate | vm_compute; reflexivity | vm_compute; reflexivity].
Defined.

Lemma C6_outputs_upper_triangular_witness :
  both (fun f =>
    exists s w',
      f 2 5 (matrix_of 2) (world_of [1; 0; 0; 1] [1; 1; -3; 1; 1; 2]) = (Ok s, w')
      /\ forall j, 0 <= j < Z.max 1 2 -> lower_zero 2 (slot 2 j (block w' (REAL s)))).
Proof.
  refine (C6_outputs_upper_triangular 2 5 (matrix_of 2) [1; 0; 0; 1]
            (world_of [1; 0; 0; 1] [1; 1; -3; 1; 1; 2]) _ _ _ _ _ _ _ _);
    [by repeat split | vm_compute; reflexivity | vm_compute; discriminate
    | vm_compute; discriminate | vm_compute; reflexivity | vm_compute; reflexivity | |].
  - intros k _. apply IntHostFacts.int_dtrmm_lower_zero.
  - intros k _. apply IntHostFacts.int_dtrtri_lower_zero.
Defined.

(** ** The draws of a factor *)

Section Draws.
Context {D rng : Type} `{!Host D rng}.

Local Abbreviation world := (world D rng).
Local Abbreviation event := (event D).
Local Abbreviation fstate := (@fstate D rng).

Lemma iter_nothing {St : Type} (lo hi : Z) (f : Z -> St -> St) (s : St) :
  hi <= lo -> iter lo hi f s = s.
Proof. intros Hle. unfold iter. by replace (Z.to_nat (hi - lo)) with 0%nat by lia. Qed.

Lemma serve_snoc_norm (l : list event) (g : rng) :
  serve (l ++ [EvNorm]) g
  = ((serve l g).1 ++ [(h_norm_rand (serve l g).2).1], (h_norm_rand (serve l g).2).2).
Proof. by rewrite serve_app. Qed.

Lemma serve_snoc_chisq (l : list event) df (g : rng) :
  serve (l ++ [EvChisq df]) g
  = ((serve l g).1 ++ [(h_rchisq df (serve l g).2).1], (h_rchisq df (serve l g).2).2).
Proof. by rewrite serve_app. Qed.

Lemma fill_column_draws upper nu p j (g : rng) (s : fstate) :
  0 <= j ->
  s.1.2 = (serve s.2 g).2 ->
  let s' := fill_column upper nu p j s in
  s'.2 = s.2 ++ EvChisq (d_sub nu (d_of_int j)) :: replicate (Z.to_nat j) EvNorm
  /\ s'.1.2 = (serve s'.2 g).2.
Proof.
  intros Hj Hg. cbv zeta. unfold fill_column.
  apply (iter_inv (fun m (s' : fstate) =>
    s'.2 = s.2 ++ EvChisq (d_sub nu (d_of_int j)) :: replicate (Z.to_nat m) EvNorm
    /\ s'.1.2 = (serve s'.2 g).2)); [done | |].
  - cbn [fst snd]. split; [done|]. by rewrite serve_snoc_chisq, Hg.
  - intros m s' Hm [Hev Hg']. unfold fill_entry. cbn [fst snd]. split.
    + rewrite Hev, <- app_assoc. simpl. do 2 f_equal.
      replace (Z.to_nat (m + 1)) with (S (Z.to_nat m)) by lia.
      by rewrite replicate_S_end.
    + by rewrite serve_snoc_norm, Hg'.
Qed.

(** The events and the generator of a factor: the requests of
    [draw_order], served in order. *)
Lemma fill_factor_draws upper nu p (b : list D) (g : rng) :
  (fill_factor upper nu p b g).2 = draw_order nu p
  /\ (fill_factor upper nu p b g).1.2 = (serve (draw_order nu p) g).2.
Proof.
  unfold fill_factor.
  destruct (Z.le_gt_cases p 0) as [Hp|Hp].
  { rewrite iter_nothing by done. unfold draw_order. by rewrite seqZ_nil. }
  assert (let s := iter 0 p (fill_column upper nu p)
                     (replicate (Z.to_nat (imul p p)) d_zero
                      ++ drop (Z.to_nat (imul p p)) b, g, []) in
          s.2 = draw_order nu p /\ s.1.2 = (serve s.2 g).2) as [Hev Hg].
  { apply (iter_inv (fun k (s : fstate) =>
      s.2 = draw_order nu k /\ s.1.2 = (serve s.2 g).2)); [lia | done |].
    intros j s Hj [Hev Hg].
    destruct (fill_column_draws upper nu p j g s ltac:(lia) Hg) as [Hev' Hg'].
    split; [|done]. by rewrite Hev', Hev, draw_order_succ by lia. }
  split; [done|]. by rewrite Hg, Hev.
Qed.

Lemma count_app (f : event -> bool) (l1 l2 : list event) :
  count f (l1 ++ l2) = (count f l1 + count f l2)%nat.
Proof. unfold count. by rewrite filter_app, length_app. Qed.

Lemma count_all (f : event -> bool) (l : list event) :
  Forall (fun e => f e = true) l -> count f l = length l.
Proof.
  intros Hl. unfold count. induction Hl as [|e l He _ IH]; [done|].
  rewrite filter_cons. destruct (decide (f e)) as [_|Hn]; [simpl; by rewrite IH|].
  destruct Hn. by rewrite He.
Qed.

Lemma count_none (f : event -> bool) (l : list event) :
  Forall (fun e => f e = false) l -> count f l = 0%nat.
Proof.
  intros Hl. unfold count. induction Hl as [|e l He _ IH]; [done|].
  rewrite filter_cons. destruct (decide (f e)) as [Hy|_]; [|done].
  rewrite He in Hy. done.
Qed.

Lemma count_draw_order nu p :
  0 <= p -> Z.of_nat (count is_draw (draw_order nu p)) = tri p.
Proof.
  intros Hp. rewrite count_all by apply draw_order_draws. by apply length_draw_order.
Qed.

Lemma count_chisq_draw_order nu p :
  0 <= p -> Z.of_nat (count is_chisq (draw_order nu p)) = p.
Proof.
  intros Hp. rewrite <- (Z2Nat.id p) at 1 2 by lia.
  induction (Z.to_nat p) as [|n IH]; [done|].
  replace (Z.of_nat (S n)) with (Z.of_nat n + 1) by lia.
  rewrite draw_order_succ by lia. rewrite count_app.
  change (EvChisq ?df :: ?l) with ([EvChisq df] ++ l). rewrite count_app.
  rewrite (count_none is_chisq (replicate _ _)) by (by apply Forall_replicate).
  change (count is_chisq [EvChisq ?df]) with 1%nat. lia.
Qed.

End Draws.

Section FactorGuard.
Context {D rng : Type} `{!Host D rng}.

Local Abbreviation world := (world D rng).

(** X1. [std_rWishart_factor] raises "inconsistent degrees of freedom and
    dimension" when nu < p or p <= 0, and then it has done nothing: no
    memset, no draw, the world is as it was.  Otherwise, for p * p an
    [int] and a block of at least p * p doubles, it returns the pointer it
    was given, has changed no other block nor the length of this one, and
    has drawn p(p+1)/2 variates, p of them chi-squared: the requests of
    [draw_order], in order. *)
Theorem factor_guard_or_draws (nu : D) (p upper : Z) (l : loc) (w : world) :
  (refused nu p = true ->
   std_rWishart_factor nu p upper l w = (Raise msg_dof, w))
  /\ (refused nu p = false ->
      p * p <= INT_MAX ->
      (Z.to_nat (p * p) <= length (block w l))%nat ->
      exists b',
        std_rWishart_factor nu p upper l w
        = (Ok l, mkWorld (<[l := b']> (heap w))
                         (serve (draw_order nu p) (gen w)).2
                         (trace w ++ draw_order nu p))
        /\ length b' = length (block w l)
        /\ Z.of_nat (count is_draw (draw_order nu p)) = (p * (p + 1)) `div` 2
        /\ Z.of_nat (count is_chisq (draw_order nu p)) = p).
Proof.
  split; [by apply std_rWishart_factor_error|].
  intros Hg Hrange Hlen.
  destruct (fill_factor_draws upper nu p (block w l) (gen w)) as [Hev Hgen].
  assert (0 < p) by (unfold refused in Hg; apply orb_false_elim in Hg as [_ Hp];
                     by apply Z.leb_gt in Hp).
  pose proof (fill_factor_inv upper nu p (gen w) (length (block w l))
                ltac:(lia) Hrange Hlen (block w l) eq_refl) as (_ & _ & HL & _).
  eexists. split; [|split; [exact HL|split]].
  - rewrite std_rWishart_factor_run by done. unfold on_block.
    by rewrite Hev, Hgen.
  - by apply count_draw_order; lia.
  - by apply count_chisq_draw_order; lia.
Qed.

End FactorGuard.

(** ** The trace of a call that returns *)

Section Traces.
Context {D rng : Type} `{!Host D rng}.

Local Abbreviation world := (world D rng).
Local Abbreviation event := (event D).
Local Abbreviation fstate := (@fstate D rng).

Implicit Types (w : world).

Lemma round_trace_succ nu p k :
  round_trace nu p (S k) = round_trace nu p k ++ draw_order nu p ++ [EvDtrmm p].
Proof.
  unfold round_trace. rewrite replicate_S_end, concat_app. simpl.
  by rewrite app_nil_r.
Qed.

Lemma requests_succ nu p k :
  requests nu p (S k) = requests nu p k ++ draw_order nu p.
Proof.
  unfold requests. rewrite replicate_S_end, concat_app. simpl.
  by rewrite app_nil_r.
Qed.

Lemma gen_at_requests nu p k (g : rng) :
  gen_at nu p k g = (serve (requests nu p k) g).2.
Proof.
  induction k as [|k IH]; [done|].
  rewrite requests_succ, serve_app. simpl. by rewrite IH.
Qed.

Lemma gen_at_add nu p k m (g : rng) :
  gen_at nu p (k + m) g = gen_at nu p m (gen_at nu p k g).
Proof.
  induction m as [|m IH]; [by rewrite Nat.add_0_r|].
  rewrite Nat.add_succ_r. simpl. by rewrite IH.
Qed.

Lemma filter_keep (f : event -> bool) (l : list event) :
  Forall (fun e => f e = true) l -> filter f l = l.
Proof.
  induction 1 as [|e l He _ IH]; [done|].
  rewrite filter_cons. destruct (decide (f e)) as [_|Hn]; [by rewrite IH|].
  destruct Hn. by rewrite He.
Qed.

Lemma sample_gen inv nu p U T (g : rng) :
  (sample inv nu p U T g).1.2 = (serve (draw_order nu p) g).2.
Proof.
  destruct (fill_factor_draws 1 nu p T g) as [_ Hg].
  unfold sample. by destruct inv.
Qed.

Lemma sample_trace_normal nu p U T (g : rng) :
  (sample false nu p U T g).2 = draw_order nu p ++ [EvDtrmm p].
Proof.
  destruct (fill_factor_draws 1 nu p T g) as [Hev _].
  unfold sample. cbn [snd]. by rewrite Hev.
Qed.

Lemma sample_trace_inverse nu p U T (g : rng) :
  exists info, (sample true nu p U T g).2 = draw_order nu p ++ [EvDtrmm p; EvDtrtri p info].
Proof.
  destruct (fill_factor_draws 1 nu p T g) as [Hev _].
  unfold sample. cbn [snd]. rewrite Hev. by eexists.
Qed.

Lemma rounds_gen inv nu p U n A T (g : rng) :
  0 <= n ->
  (rounds inv nu p U n A T g).2.1.2 = gen_at nu p (Z.to_nat n) g.
Proof.
  intros Hn. unfold rounds.
  apply (iter_inv (fun k (s : list D * fstate) =>
    s.2.1.2 = gen_at nu p (Z.to_nat k) g)); [done | done |].
  intros k s Hk Hg. unfold round_on. cbn [fst snd].
  rewrite sample_gen, Hg.
  by replace (Z.to_nat (k + 1)) with (S (Z.to_nat k)) by lia.
Qed.

Lemma rounds_trace_normal nu p U n A T (g : rng) :
  0 <= n ->
  (rounds false nu p U n A T g).2.2 = round_trace nu p (Z.to_nat n).
Proof.
  intros Hn. unfold rounds.
  apply (iter_inv (fun k (s : list D * fstate) =>
    s.2.2 = round_trace nu p (Z.to_nat k))); [done | done |].
  intros k s Hk Hev. unfold round_on. cbn [fst snd].
  rewrite sample_trace_normal, Hev.
  replace (Z.to_nat (k + 1)) with (S (Z.to_nat k)) by lia.
  by rewrite round_trace_succ.
Qed.

Lemma rounds_trace_inverse nu p U n A T (g : rng) :
  0 <= n ->
  let ev := (rounds true nu p U n A T g).2.2 in
  filter (fun e => negb (is_dtrtri e)) ev = round_trace nu p (Z.to_nat n)
  /\ count is_dtrtri ev = Z.to_nat n
  /\ Forall (fun e => is_dtrtri e = true -> exists info, e = EvDtrtri p info) ev.
Proof.
  intros Hn. cbv zeta. unfold rounds.
  apply (iter_inv (fun k (s : list D * fstate) =>
    filter (fun e => negb (is_dtrtri e)) s.2.2 = round_trace nu p (Z.to_nat k)
    /\ count is_dtrtri s.2.2 = Z.to_nat k
    /\ Forall (fun e => is_dtrtri e = true -> exists info, e = EvDtrtri p info) s.2.2));
    [done | done |].
  intros k s Hk (Hf & Hc & Hall). unfold round_on. cbn [fst snd].
  destruct (sample_trace_inverse nu p U s.2.1.1 s.2.1.2) as [info ->].
  replace (Z.to_nat (k + 1)) with (S (Z.to_nat k)) by lia.
  assert (Hd : Forall (fun e : event => negb (is_dtrtri e) = true) (draw_order nu p)).
  { eapply Forall_impl; [apply draw_order_draws|]. by intros []. }
  split; [|split].
  - rewrite !filter_app, Hf, round_trace_succ.
    rewrite (filter_keep (fun e => negb (is_dtrtri e))) by done. done.
  - rewrite !count_app, Hc.
    rewrite (count_none is_dtrtri (draw_order nu p)).
    + change (count is_dtrtri [EvDtrmm p; EvDtrtri p info]) with 1%nat. lia.
    + eapply Forall_impl; [apply draw_order_draws|]. by intros [].
  - apply Forall_app. split; [done|]. apply Forall_app. split.
    + eapply Forall_impl; [apply draw_order_draws|]. by intros [].
    + repeat constructor; [done|]. intros _. by eexists.
Qed.

Lemma count_round_trace (f : event -> bool) nu p k :
  f (EvDtrmm p) = false ->
  count f (round_trace nu p k) = (k * count f (draw_order nu p))%nat.
Proof.
  intros Hf. induction k as [|k IH]; [done|].
  rewrite round_trace_succ, !count_app, IH.
  rewrite (count_none f [EvDtrmm p]) by (by repeat constructor). lia.
Qed.

Lemma count_dtrmm_round_trace nu p k : count is_dtrmm (round_trace nu p k) = k.
Proof.
  induction k as [|k IH]; [done|].
  rewrite round_trace_succ, !count_app, IH.
  rewrite (count_none is_dtrmm (draw_order nu p)).
  - change (count is_dtrmm [EvDtrmm p]) with 1%nat. lia.
  - eapply Forall_impl; [apply draw_order_draws|]. by intros [].
Qed.

(** Counting events that are not calls of dtrtri does not see them. *)
Lemma count_without_dtrtri (f : event -> bool) (l : list event) :
  (forall e, f e = true -> is_dtrtri e = false) ->
  count f (filter (fun e => negb (is_dtrtri e)) l) = count f l.
Proof.
  intros Hf. unfold count. induction l as [|e l IH]; [done|].
  rewrite !filter_cons.
  destruct (decide (negb (is_dtrtri e))) as [Hk|Hk].
  - rewrite filter_cons. destruct (decide (f e)); simpl; by rewrite IH.
  - destruct (decide (f e)) as [Hy|_]; [|done].
    destruct Hk. apply Is_true_true in Hy. by rewrite (Hf e Hy).
Qed.

End Traces.

Section TraceTheorems.
Context {D rng : Type} `{!Host D rng}.

Local Abbreviation world := (world D rng).
Local Abbreviation event := (event D).

Implicit Types (w : world).

Lemma count_rounds inv (f : event -> bool) nu p U n A T (g : rng) :
  0 <= n ->
  (forall e, f e = true -> is_dtrtri e = false) ->
  count f (rounds inv nu p U n A T g).2.2 = count f (round_trace nu p (Z.to_nat n)).
Proof.
  intros Hn Hf. destruct inv.
  - destruct (rounds_trace_inverse nu p U n A T g Hn) as [<- _].
    symmetry. by apply count_without_dtrtri.
  - by rewrite rounds_trace_normal.
Qed.

(** X7. The whole trace of a call of [rCholWishart] that passes every
    test, for max(1, ns) * p * p an [int]: one allocation of the output
    array, two work blocks, one call of dpotrf on the copy of the scale
    matrix, GetRNGstate, then for each of the max(1, ns) samples the draws
    of one factor in the order of [draw_order] followed by one call of
    dtrmm, then PutRNGstate and the two Frees.  dtrtri is never called. *)
Theorem rCholWishart_trace ns nu scal a w :
  square_real scal ->
  heap w !! REAL scal = Some a ->
  let p := dims scal 0 in
  let psqr := imul p p in
  Z.max 1 ns * (p * p) <= INT_MAX ->
  (h_dpotrf p (take (Z.to_nat psqr) a)).2 = 0 ->
  refused nu p = false ->
  exists s w',
    rCholWishart ns nu scal w = (Ok s, w')
    /\ events_of w w'
         ([EvAlloc3D p p (Z.max 1 ns); EvCalloc psqr; EvCalloc psqr;
           EvDpotrf p (take (Z.to_nat psqr) a) 0; EvGetRNG]
          ++ round_trace nu p (Z.to_nat (Z.max 1 ns))
          ++ [EvPutRNG; EvFree; EvFree]).
Proof.
  intros Hsq Ha p psqr _ Hinfo Hg.
  destruct (sampler_run false ns nu scal a w Hsq Ha Hinfo Hg) as (ans & _ & Hrun).
  assert (Hp : 1 <= p).
  { apply orb_false_elim in Hg as [_ Hp]. apply Z.leb_gt in Hp. lia. }
  cbv zeta in Hrun. eexists _, _. split; [exact Hrun|].
  unfold events_of. cbn [trace]. f_equal.
  rewrite rounds_trace_normal by (pose proof (coerced_pos ns); lia).
  unfold setup_events, scale_copy. fold p psqr.
  rewrite dpotrf_info_ok, Hinfo, coerced_max by done. done.
Qed.

(** X8. The trace of a call of [rInvCholWishart] that passes every test,
    for max(1, ns) * p * p an [int], is that of [rCholWishart] with one
    call of dtrtri, of order p, for each of the max(1, ns) samples: taking
    the dtrtri events out of what happens between GetRNGstate and
    PutRNGstate leaves the events of [rCholWishart]. *)
Theorem rInvCholWishart_trace ns nu scal a w :
  square_real scal ->
  heap w !! REAL scal = Some a ->
  let p := dims scal 0 in
  let psqr := imul p p in
  Z.max 1 ns * (p * p) <= INT_MAX ->
  (h_dpotrf p (take (Z.to_nat psqr) a)).2 = 0 ->
  refused nu p = false ->
  exists s w' ev,
    rInvCholWishart ns nu scal w = (Ok s, w')
    /\ events_of w w'
         ([EvAlloc3D p p (Z.max 1 ns); EvCalloc psqr; EvCalloc psqr;
           EvDpotrf p (take (Z.to_nat psqr) a) 0; EvGetRNG]
          ++ ev ++ [EvPutRNG; EvFree; EvFree])
    /\ filter (fun e => negb (is_dtrtri e)) ev = round_trace nu p (Z.to_nat (Z.max 1 ns))
    /\ Z.of_nat (count is_dtrtri ev) = Z.max 1 ns
    /\ Forall (fun e => is_dtrtri e = true -> exists info, e = EvDtrtri p info) ev.
Proof.
  intros Hsq Ha p psqr _ Hinfo Hg.
  destruct (sampler_run true ns nu scal a w Hsq Ha Hinfo Hg) as (ans & _ & Hrun).
  assert (Hp : 1 <= p).
  { apply orb_false_elim in Hg as [_ Hp]. apply Z.leb_gt in Hp. lia. }
  cbv zeta in Hrun. fold p in Hrun.
  match type of Hrun with context [rounds true nu p ?U ?n ?A ?T ?g] =>
    destruct (rounds_trace_inverse nu p U n A T g) as (Hf & Hc & Hall);
      [pose proof (coerced_pos ns); lia|] end.
  cbv zeta in Hf, Hc, Hall.
  eexists _, _, _. split; [exact Hrun|].
  split; [|split; [|split; [|exact Hall]]].
  - unfold events_of. cbn [trace]. f_equal.
    unfold setup_events, scale_copy. fold p psqr.
    rewrite dpotrf_info_ok, Hinfo, coerced_max by done. done.
  - rewrite Hf. by rewrite coerced_max.
  - rewrite Hc, coerced_max. lia.
Qed.

(** X9. What a call that passes every test has consumed, in either mode,
    for max(1, ns) * p * p an [int]: max(1, ns) * p(p+1)/2 variates, of
    which max(1, ns) * p are chi-squared, drawn by serving the requests of
    max(1, ns) factors one after the other from the stream; the scale
    matrix is factored once and dtrmm is called once per sample. *)
Theorem variates_consumed ns nu scal a w :
  square_real scal ->
  heap w !! REAL scal = Some a ->
  let p := dims scal 0 in
  Z.max 1 ns * (p * p) <= INT_MAX ->
  (h_dpotrf p (take (Z.to_nat (imul p p)) a)).2 = 0 ->
  refused nu p = false ->
  both (fun f =>
    exists s w' ev,
      f ns nu scal w = (Ok s, w')
      /\ events_of w w' ev
      /\ Z.of_nat (count is_draw ev) = Z.max 1 ns * ((p * (p + 1)) `div` 2)
      /\ Z.of_nat (count is_chisq ev) = Z.max 1 ns * p
      /\ count is_dpotrf ev = 1%nat
      /\ Z.of_nat (count is_dtrmm ev) = Z.max 1 ns
      /\ gen w' = (serve (requests nu p (Z.to_nat (Z.max 1 ns))) (gen w)).2).
Proof.
  intros Hsq Ha p _ Hinfo Hg. apply both_sampler. intros inv.
  destruct (sampler_run inv ns nu scal a w Hsq Ha Hinfo Hg) as (ans & _ & Hrun).
  cbv zeta in Hrun. fold p in Hrun.
  assert (Hp : 0 < p).
  { unfold refused in Hg. apply orb_false_elim in Hg as [_ Hp]. by apply Z.leb_gt in Hp. }
  pose proof (coerced_pos ns) as Hn.
  eexists _, _, _. split; [exact Hrun|]. split; [reflexivity|].
  cbn [gen]. rewrite !count_app.
  rewrite !(count_rounds inv) by (lia || by intros []).
  rewrite !count_round_trace by done. rewrite count_dtrmm_round_trace.
  rewrite (count_none is_dpotrf (draw_order nu p))
    by (eapply Forall_impl; [apply draw_order_draws|]; by intros []).
  unfold setup_events.
  repeat match goal with |- context [count ?f (?e :: ?l)] =>
    change (count f (e :: l)) with (length (filter f (e :: l)));
    rewrite filter_cons; simpl end.
  rewrite rounds_gen, <- gen_at_requests by lia.
  rewrite !coerced_max in *.
  pose proof (count_draw_order nu p ltac:(lia)) as Hd.
  pose proof (count_chisq_draw_order nu p ltac:(lia)) as Hc.
  unfold tri in Hd.
  repeat split; try done; nia.
Qed.

End TraceTheorems.

(** ** Which calls are refused, and what a call leaves behind *)

Section Exits.
Context {D rng : Type} `{!Host D rng}.

Local Abbreviation world := (world D rng).
Local Abbreviation event := (event D).

Implicit Types (w : world).



Lemma count_cons (f : event -> bool) (e : event) (l : list event) :
  count f (e :: l) = ((if f e then 1 else 0) + count f l)%nat.
Proof. unfold count. rewrite filter_cons. by destruct (f e). Qed.

Lemma count_nil (f : event -> bool) : count f [] = 0%nat.
Proof. done. Qed.

Lemma count_round_trace_none (f : event -> bool) nu p k :
  (forall e, is_draw e = true -> f e = false) ->
  f (EvDtrmm p) = false ->
  count f (round_trace nu p k) = 0%nat.
Proof.
  intros Hd Hm. apply count_none. unfold round_trace.
  apply Forall_concat, Forall_replicate, Forall_app. split.
  - eapply Forall_impl; [apply draw_order_draws|]. exact Hd.
  - by constructor.
Qed.

(** X4. Which calls are refused, with which error, in either mode.  The
    tests are made in the order [dim] attribute, shape, dpotrf, guard of
    [std_rWishart_factor]: an argument without [dim] attribute is refused
    by [INTEGER()] and one that is not square and real for its shape,
    whatever nu is; a matrix of order 0 is refused by dpotrf through
    xerbla; and for an order p >= 1 with max(1, ns) * p * p an [int], a
    matrix that dpotrf does not factor is refused as not positive-definite
    even when nu is below its order, and a call returns exactly when the
    tests pass. *)
Theorem error_precedence ns nu scal a w :
  heap w !! REAL scal = Some a ->
  let p := dims scal 0 in
  let info := (h_dpotrf p (take (Z.to_nat (imul p p)) a)).2 in
  both (fun f =>
    ((exists w', f ns nu scal w = (Raise msg_integer, w')) <-> ~ has_dims scal)
    /\ ((exists w', f ns nu scal w = (Raise msg_shape, w'))
        <-> has_dims scal /\ ~ square_real scal)
    /\ ((exists w', f ns nu scal w = (Raise msg_xerbla_lda, w'))
        <-> square_real scal /\ p = 0)
    /\ (1 <= p -> Z.max 1 ns * (p * p) <= INT_MAX ->
        ((exists w', f ns nu scal w = (Raise msg_pd, w'))
         <-> square_real scal /\ info <> 0)
        /\ ((exists w', f ns nu scal w = (Raise msg_dof, w'))
            <-> square_real scal /\ info = 0 /\ d_lt nu (d_of_int p) = true)
        /\ ((exists s w', f ns nu scal w = (Ok s, w'))
            <-> square_real scal /\ info = 0 /\ d_lt nu (d_of_int p) = false))).
Proof.
  intros Ha p info. apply both_sampler. intros inv.
  pose proof (sampler_cases inv ns nu scal a w Ha) as Hcases.
  cbv zeta in Hcases. unfold scale_copy in Hcases. fold p in Hcases. fold info in Hcases.
  pose proof (dims_nonneg scal 0) as Hp0. fold p in Hp0.
  pose proof (square_real_has_dims scal) as Hsd.
  assert (Hguard : 1 <= p ->
            d_lt nu (d_of_int p) || (p <=? 0) = d_lt nu (d_of_int p)).
  { intros Hp. destruct (Z.leb_spec p 0); [lia|]. apply orb_false_r. }
  destruct Hcases
    as [(Hd & E)|[(Hd & Hn & E)|[(Hsq & Hp & w1 & E & _)|[(Hsq & Hp & Hi & w1 & E & _)
       |[(Hsq & Hp & Hi & Hg & w1 & E & _)|(Hsq & Hp & Hi & Hg & ans & _ & E)]]]]];
    try rewrite (Hguard Hp) in Hg;
    rewrite E; (split; [|split; [|split; [|intros Hp1 _; split; [|split]]]]);
    (split;
     [ intros H; try tauto; try (split; [tauto | lia]); exfalso;
       repeat match type of H with ex _ => destruct H as [? H] end;
       apply (f_equal fst) in H; cbn [fst] in H; try discriminate H;
       apply (f_equal (fun o => match o with Raise m => m | Ok _ => EmptyString end)) in H;
       vm_compute in H; discriminate H
     | intros H;
       first [ by eauto | exfalso; tauto | exfalso; lia
             | exfalso; destruct H as (? & ?); lia
             | exfalso; destruct H as (? & ? & ?); congruence ] ]).
Qed.


(** X6. A call that passes every test, for max(1, ns) * p * p an [int],
    returns and has freed what it allocated with Calloc: the heap it
    leaves is the heap it found with one block more, the data of the array
    it returns, at an address that was free. *)
Theorem returned_call_frees_work_blocks ns nu scal a w :
  square_real scal ->
  heap w !! REAL scal = Some a ->
  let p := dims scal 0 in
  Z.max 1 ns * (p * p) <= INT_MAX ->
  (h_dpotrf p (take (Z.to_nat (imul p p)) a)).2 = 0 ->
  refused nu p = false ->
  both (fun f =>
    exists s w' ev,
      f ns nu scal w = (Ok s, w')
      /\ heap w !! REAL s = None
      /\ heap w' = <[REAL s := block w' (REAL s)]> (heap w)
      /\ events_of w w' ev
      /\ count is_calloc ev = 2%nat
      /\ count is_free ev = 2%nat).
Proof.
  intros Hsq Ha p _ Hinfo Hg. apply both_sampler. intros inv.
  destruct (sampler_run inv ns nu scal a w Hsq Ha Hinfo Hg) as (ans & Hans & Hrun).
  cbv zeta in Hrun. fold p in Hrun.
  eexists _, _, _. split; [exact Hrun|].
  unfold block, REAL. cbn [heap gen trace sx_data].
  rewrite lookup_insert_eq. cbn [default].
  split; [exact Hans|]. split; [done|]. split; [reflexivity|].
  pose proof (coerced_pos ns) as Hn.
  rewrite !count_app, !(count_rounds inv) by (lia || by intros []).
  rewrite !count_round_trace_none by (done || by intros []).
  unfold setup_events. rewrite !count_cons, !count_nil. done.
Qed.

End Exits.

(** ** What [std_rWishart_factor] writes, and where *)

Section FactorFrame.
Context {D rng : Type} `{!Host D rng}.

Local Abbreviation world := (world D rng).
Local Abbreviation event := (event D).
Local Abbreviation fstate := (@fstate D rng).

(** Two loops that keep a relation between their states. *)
Lemma iter_from_rel {St St' : Type} (R : St -> St' -> Prop) (k : nat) (lo : Z)
    (f : Z -> St -> St) (f' : Z -> St' -> St') (s : St) (s' : St') :
  R s s' ->
  (forall j s s', lo <= j < lo + Z.of_nat k -> R s s' -> R (f j s) (f' j s')) ->
  R (iter_from k lo f s) (iter_from k lo f' s').
Proof.
  revert lo s s'. induction k as [|k IH]; intros lo s s' HR Hstep; [done|].
  simpl. apply IH; [apply Hstep; [lia | done] |].
  intros j t t' Hj. apply Hstep. lia.
Qed.

Lemma iter_rel {St St' : Type} (R : St -> St' -> Prop) (lo hi : Z)
    (f : Z -> St -> St) (f' : Z -> St' -> St') (s : St) (s' : St') :
  R s s' ->
  (forall j s s', lo <= j < hi -> R s s' -> R (f j s) (f' j s')) ->
  R (iter lo hi f s) (iter lo hi f' s').
Proof.
  intros HR Hstep. unfold iter. apply iter_from_rel; [done|].
  intros j t t' Hj. apply Hstep. lia.
Qed.

Lemma upd_app_l (x t : list D) q v :
  q < Z.of_nat (length x) -> upd (x ++ t) q v = upd x q v ++ t.
Proof.
  intros Hq. unfold upd. destruct (Z.ltb_spec q 0); [done|].
  apply insert_app_l. lia.
Qed.

Lemma fill_entry_behind upper p t j i (s s' : fstate) :
  p * p <= INT_MAX -> 0 <= i < p -> 0 <= j < p ->
  behind p t s s' ->
  behind p t (fill_entry upper p j i s) (fill_entry upper p j i s').
Proof.
  intros Hrange Hi Hj [-> Hlen].
  rewrite !(fill_entry_exact upper p Hrange) by done. cbn [fst snd].
  pose proof (pidx_bounds upper p i j Hi Hj).
  pose proof (pidx_bounds upper p j i Hj Hi).
  split.
  - rewrite !upd_app_l; [done | rewrite ?length_upd; lia..].
  - cbn [fst snd]. by rewrite !length_upd.
Qed.

Lemma fill_column_behind upper nu p t j (s s' : fstate) :
  p * p <= INT_MAX -> 0 <= j < p ->
  behind p t s s' ->
  behind p t (fill_column upper nu p j s) (fill_column upper nu p j s').
Proof.
  intros Hrange Hj [-> Hlen]. unfold fill_column. cbv zeta.
  apply (iter_rel (behind p t)).
  - cbn [fst snd]. rewrite (diag_exact p j) by done. split.
    + rewrite upd_app_l; [done | nia].
    + cbn [fst snd]. by rewrite length_upd.
  - intros i s1 s2 Hi HR. apply fill_entry_behind; [done | lia | done | done].
Qed.

(** [std_rWishart_factor] writes the same p * p doubles at the head of
    the block, whatever the block held, and nothing behind them. *)
Lemma fill_factor_behind upper nu p (b : list D) (g : rng) :
  p * p <= INT_MAX -> 0 <= p ->
  behind p (drop (Z.to_nat (p * p)) b)
         (fill_factor upper nu p b g) (fill_factor upper nu p [] g).
Proof.
  intros Hrange Hp. unfold fill_factor. rewrite (psqr_exact p Hrange).
  apply (iter_rel (behind p (drop (Z.to_nat (p * p)) b))).
  - split; cbn [fst snd]; rewrite drop_nil, app_nil_r; [done | apply length_replicate].
  - intros j s s' Hj HR. by apply fill_column_behind.
Qed.

Implicit Types (w : world).

(** X2. [std_rWishart_factor] writes the first p * p doubles of the block
    it is given and nothing else.  What it writes there depends on nu, p,
    [upper] and the state of the stream only, not on what the block held
    (the caller need not clear it); the doubles of the block behind these
    and every other block of the heap are left as they were. *)
Theorem factor_overwrites_its_matrix (nu : D) (p upper : Z) (g : rng) :
  1 <= p ->
  p * p <= INT_MAX ->
  d_lt nu (d_of_int p) = false ->
  exists f : list D,
    length f = Z.to_nat (p * p)
    /\ forall l w,
         gen w = g ->
         (Z.to_nat (p * p) <= length (block w l))%nat ->
         exists w',
           std_rWishart_factor nu p upper l w = (Ok l, w')
           /\ block w' l = f ++ drop (Z.to_nat (p * p)) (block w l)
           /\ forall l', l' <> l -> heap w' !! l' = heap w !! l'.
Proof.
  intros Hp Hrange Hnu.
  exists (fill_factor upper nu p [] g).1.1. split.
  - by destruct (fill_factor_behind upper nu p [] g Hrange ltac:(lia)) as [_ ->].
  - intros l w <- Hlen. eexists. split.
    + apply std_rWishart_factor_run. rewrite Hnu. simpl. apply Z.leb_gt. lia.
    + destruct (fill_factor_behind upper nu p (block w l) (gen w) Hrange ltac:(lia))
        as [-> _].
      unfold on_block, block. cbn [heap fst snd]. split.
      * by rewrite lookup_insert_eq.
      * intros l' Hne. by rewrite lookup_insert_ne.
Qed.

(** X3. The factor made with [upper] = 0 is the transpose of the factor
    made with [upper] <> 0 from the same state of the stream: the same
    variates are drawn in the same order, and entry (r, c) of the one is
    entry (c, r) of the other. *)
Theorem factor_lower_is_transpose (nu : D) (p upper : Z) (l0 l1 : loc) w0 w1 :
  1 <= p ->
  p * p <= INT_MAX ->
  d_lt nu (d_of_int p) = false ->
  upper <> 0 ->
  gen w0 = gen w1 ->
  (Z.to_nat (p * p) <= length (block w0 l0))%nat ->
  (Z.to_nat (p * p) <= length (block w1 l1))%nat ->
  exists w0' w1',
    std_rWishart_factor nu p 0 l0 w0 = (Ok l0, w0')
    /\ std_rWishart_factor nu p upper l1 w1 = (Ok l1, w1')
    /\ gen w0' = gen w1'
    /\ forall r c, 0 <= r < p -> 0 <= c < p ->
         entry p (block w1' l1) r c = entry p (block w0' l0) c r.
Proof.
  intros Hp Hrange Hnu Hup Hgen Hlen0 Hlen1.
  assert (Hg : d_lt nu (d_of_int p) || (p <=? 0) = false).
  { rewrite Hnu. simpl. apply Z.leb_gt. lia. }
  pose proof (fill_factor_inv 0 nu p (gen w0) (length (block w0 l0))
                Hp Hrange Hlen0 (block w0 l0) eq_refl) as (Hev0 & Hg0 & _ & Hc0).
  pose proof (fill_factor_inv upper nu p (gen w1) (length (block w1 l1))
                Hp Hrange Hlen1 (block w1 l1) eq_refl) as (Hev1 & Hg1 & _ & Hc1).
  eexists _, _.
  split; [by apply std_rWishart_factor_run|].
  split; [by apply std_rWishart_factor_run|].
  set (b0 := block w0 l0) in *. set (b1 := block w1 l1) in *.
  unfold on_block, block, entry. cbn [heap gen]. rewrite !lookup_insert_eq.
  cbn [default from_option id].
  split; [by rewrite Hg0, Hg1, Hev0, Hev1, Hgen|].
  rewrite Hev0 in Hc0. rewrite Hev1 in Hc1.
  replace (serve (draw_order nu p) (gen w1)) with (serve (draw_order nu p) (gen w0)) in Hc1
    by (by rewrite Hgen).
  assert (Hu : forall i j, pidx upper p i j = i + j * p).
  { intros i j. unfold pidx. by destruct (Z.eqb_spec upper 0). }
  assert (Hl : forall i j, pidx 0 p i j = j + i * p) by done.
  intros r c Hr Hc.
  destruct (Z.lt_trichotomy r c) as [Hlt|[->|Hgt]].
  - destruct (Hc0 c Hc) as [_ H0]. destruct (Hc1 c Hc) as [_ H1].
    destruct (H0 r ltac:(lia)) as [E0 _]. destruct (H1 r ltac:(lia)) as [E1 _].
    rewrite Hu in E1. rewrite Hl in E0. by rewrite E0, E1.
  - destruct (Hc0 c Hc) as [E0 _]. destruct (Hc1 c Hc) as [E1 _].
    rewrite Hu in E1. rewrite Hl in E0. by rewrite E0, E1.
  - destruct (Hc0 r Hr) as [_ H0]. destruct (Hc1 r Hr) as [_ H1].
    destruct (H0 c ltac:(lia)) as [_ E0]. destruct (H1 c ltac:(lia)) as [_ E1].
    rewrite Hu in E1. rewrite Hl in E0. by rewrite E0, E1.
Qed.

End FactorFrame.

(** ** One call after another *)

Section Composition.
Context {D rng : Type} `{!Host D rng}.

Local Abbreviation world := (world D rng).

Implicit Types (w : world).

(** Whatever a call does, it leaves the block of the scale matrix as it
    was. *)
Lemma sampler_keeps_scale inv ns nu scal a w :
  heap w !! REAL scal = Some a ->
  heap (sampler inv ns nu scal w).2 !! REAL scal = Some a.
Proof.
  intros Ha.
  destruct (sampler_cases inv ns nu scal a w Ha)
    as [(_ & E)|[(_ & _ & E)|[(_ & _ & w1 & E & _ & _ & Hh)
       |[(_ & _ & _ & w1 & E & _ & _ & Hh)|[(_ & _ & _ & _ & w1 & E & _ & _ & Hh)
       |(_ & _ & _ & _ & ans & Hans & E)]]]]]; cbv zeta in E; rewrite E; cbn [snd]; try done.
  cbn [heap]. rewrite lookup_insert_ne; [done | congruence].
Qed.

Lemma sample_at_add inv nu p U k m (g : rng) :
  sample_at inv nu p U (k + m) g = sample_at inv nu p U m (gen_at nu p k g).
Proof. unfold sample_at. by rewrite gen_at_add. Qed.

(** X10. Calls compose along the stream: a call for n samples followed, in
    the world it leaves, by a call for m samples with the same nu and
    scale matrix, returns the same matrices and leaves the stream in the
    same state as one call for n + m samples (n and m counted as 1 when
    they are 0 or less). *)
Theorem calls_compose ns ms nu scal a w :
  square_real scal ->
  heap w !! REAL scal = Some a ->
  let p := dims scal 0 in
  let n := Z.max 1 ns in
  let m := Z.max 1 ms in
  1 <= p ->
  (n + m) * (p * p) <= INT_MAX ->
  d_lt nu (d_of_int p) = false ->
  (h_dpotrf p (take (Z.to_nat (imul p p)) a)).2 = 0 ->
  both (fun f =>
    exists s1 w1 s2 w2 s w',
      f ns nu scal w = (Ok s1, w1)
      /\ f ms nu scal w1 = (Ok s2, w2)
      /\ f (n + m) nu scal w = (Ok s, w')
      /\ gen w2 = gen w'
      /\ (forall j, 0 <= j < n ->
            slot p j (block w1 (REAL s1)) = slot p j (block w' (REAL s)))
      /\ (forall j, 0 <= j < m ->
            slot p j (block w2 (REAL s2)) = slot p (n + j) (block w' (REAL s)))).
Proof.
  intros Hsq Ha p n m Hp Hrange Hnu Hinfo. apply both_sampler. intros inv.
  destruct (sampler_slots inv ns nu scal a w Hsq Ha Hp ltac:(fold p n; nia) Hnu Hinfo)
    as (s1 & w1 & Hrun1 & Hg1 & Hs1).
  assert (Ha1 : heap w1 !! REAL scal = Some a).
  { pose proof (sampler_keeps_scale inv ns nu scal a w Ha) as Hk.
    by rewrite Hrun1 in Hk. }
  destruct (sampler_slots inv ms nu scal a w1 Hsq Ha1 Hp ltac:(fold p m; nia) Hnu Hinfo)
    as (s2 & w2 & Hrun2 & Hg2 & Hs2).
  destruct (sampler_slots inv (n + m) nu scal a w Hsq Ha Hp
              ltac:(fold p; rewrite Z.max_r by lia; done) Hnu Hinfo)
    as (s & w' & Hrun & Hg & Hs).
  fold p n in Hg1, Hs1. fold p m in Hg2, Hs2. fold p in Hg, Hs.
  rewrite (Z.max_r 1 (n + m)) in Hg, Hs by lia.
  exists s1, w1, s2, w2, s, w'.
  split; [exact Hrun1|]. split; [exact Hrun2|]. split; [exact Hrun|].
  split; [|split].
  - rewrite Hg2, Hg1, Hg, Z2Nat.inj_add by lia. by rewrite gen_at_add.
  - intros j Hj. by rewrite Hs1, Hs by lia.
  - intros j Hj. rewrite Hs2, Hs, Hg1 by lia.
    rewrite Z2Nat.inj_add by lia. by rewrite sample_at_add.
Qed.

End Composition.

(** ** What dtrtri reports *)

Section DtrtriInfo.
Context {D rng : Type} (H : Host D rng).

Local Abbreviation world := (world D rng).

Implicit Types (w : world).

(** The block and the stream of a sample do not depend on what dtrtri
    reports. *)
Lemma sample_mute inv nu p (U T : list D) (g : rng) :
  (@sample D rng (mute_dtrtri H) inv nu p U T g).1
  = (@sample D rng H inv nu p U T g).1.
Proof. unfold sample. by destruct inv. Qed.

Lemma rounds_mute inv nu p (U : list D) n (A T : list D) (g : rng) :
  (@rounds D rng (mute_dtrtri H) inv nu p U n A T g).1
  = (@rounds D rng H inv nu p U n A T g).1
  /\ (@rounds D rng (mute_dtrtri H) inv nu p U n A T g).2.1
     = (@rounds D rng H inv nu p U n A T g).2.1.
Proof.
  unfold rounds.
  apply (iter_rel (fun s s' : list D * @fstate D rng => s.1 = s'.1 /\ s.2.1 = s'.2.1));
    [done|].
  intros j [A1 [[T1 g1] e1]] [A2 [[T2 g2] e2]] _ [E1 E2].
  cbn [fst snd] in E1, E2. injection E2 as -> ->. subst A2.
  unfold round_on. cbn [fst snd]. rewrite sample_mute. done.
Qed.

(** X11. The value that dtrtri stores in [info] is never read: with a
    dtrtri that updates the matrix in the same way and always reports 0,
    [rInvCholWishart] raises the same error or returns an array of the
    same dimensions with the same data, and leaves the stream in the same
    state, as with a dtrtri that reports what it found (a singular
    matrix, say). *)
Theorem dtrtri_info_never_read ns nu scal a w :
  heap w !! REAL scal = Some a ->
  observe (@rInvCholWishart D rng (mute_dtrtri H) ns nu scal w)
  = observe (@rInvCholWishart D rng H ns nu scal w)
  /\ gen (@rInvCholWishart D rng (mute_dtrtri H) ns nu scal w).2
     = gen (@rInvCholWishart D rng H ns nu scal w).2.
Proof.
  intros Ha.
  change (@rInvCholWishart D rng (mute_dtrtri H) ns nu scal)
    with (@sampler D rng (mute_dtrtri H) true ns nu scal).
  change (@rInvCholWishart D rng H ns nu scal)
    with (@sampler D rng H true ns nu scal).
  set (p := dims scal 0).
  destruct (decide (has_dims scal)) as [Hd|Hd].
  2: { rewrite (@sampler_nodims_error D rng H), (@sampler_nodims_error D rng (mute_dtrtri H))
         by done. done. }
  destruct (decide (square_real scal)) as [Hsq|Hsq].
  2: { rewrite (@sampler_shape_error D rng H), (@sampler_shape_error D rng (mute_dtrtri H))
         by done. done. }
  destruct (Z.lt_ge_cases p 1) as [Hp|Hp].
  { destruct (@sampler_xerbla_error D rng H true ns nu scal a w Hsq Ha Hp)
      as (w1 & -> & _ & G1 & _).
    destruct (@sampler_xerbla_error D rng (mute_dtrtri H) true ns nu scal a w Hsq Ha Hp)
      as (w2 & -> & _ & G2 & _).
    cbn [snd observe]. by rewrite G1, G2. }
  destruct (decide ((@h_dpotrf D rng H p (scale_copy (imul p p) a)).2 = 0)) as [Hinfo|Hinfo].
  2: { destruct (@sampler_pd_error D rng H true ns nu scal a w Hsq Ha Hp Hinfo)
         as (w1 & -> & _ & G1 & _).
       destruct (@sampler_pd_error D rng (mute_dtrtri H) true ns nu scal a w Hsq Ha Hp Hinfo)
         as (w2 & -> & _ & G2 & _).
       cbn [snd observe]. by rewrite G1, G2. }
  destruct (@d_lt D rng H nu (@d_of_int D rng H p) || (p <=? 0)) eqn:Hg.
  - destruct (@sampler_dof_error D rng H true ns nu scal a w Hsq Ha Hp Hinfo Hg)
      as (w1 & -> & _ & G1 & _).
    destruct (@sampler_dof_error D rng (mute_dtrtri H) true ns nu scal a w Hsq Ha Hp Hinfo Hg)
      as (w2 & -> & _ & G2 & _).
    cbn [snd observe]. by rewrite G1, G2.
  - destruct (@sampler_run D rng H true ns nu scal a w Hsq Ha Hinfo Hg)
      as (ans1 & _ & ->).
    destruct (@sampler_run D rng (mute_dtrtri H) true ns nu scal a w Hsq Ha Hinfo Hg)
      as (ans2 & _ & ->).
    unfold observe, block, REAL. cbn [heap gen snd sx_data sx_dim].
    rewrite !lookup_insert_eq. cbn [default from_option id].
    match goal with |- context [@rounds D rng H true ?nu ?p ?U ?n ?A ?T ?g] =>
      destruct (rounds_mute true nu p U n A T g) as [E1 E2] end.
    split.
    + f_equal. f_equal. exact E1.
    + exact (f_equal snd E2).
Qed.

End DtrtriInfo.

(** ** Memory that is not initialised *)

Section Stale.
Context {D rng : Type} (H : Host D rng).

Local Abbreviation world := (world D rng).

Implicit Types (w : world).

(** Two arrays of n matrices of q doubles with the same matrices. *)
Lemma slots_ext (p n : Z) (x y : list D) :
  0 < p * p -> 0 <= n ->
  length x = Z.to_nat (p * p * n) ->
  length y = Z.to_nat (p * p * n) ->
  (forall j, 0 <= j < n -> slot p j x = slot p j y) ->
  x = y.
Proof.
  intros Hq Hn Hx Hy Hslots. apply list_eq. intros i.
  destruct (decide (i < Z.to_nat (p * p * n))%nat) as [Hi|Hi].
  - set (q := p * p) in *.
    pose proof (Z.div_mod (Z.of_nat i) q ltac:(lia)) as Hdm.
    pose proof (Z.mod_pos_bound (Z.of_nat i) q ltac:(lia)) as Hm.
    assert (0 <= Z.of_nat i `div` q < n) as Hd.
    { split; [apply Z.div_pos; lia | apply Z.div_lt_upper_bound; lia]. }
    pose proof (Hslots _ Hd) as Hs.
    apply (f_equal (fun l => l !! Z.to_nat (Z.of_nat i `mod` q))) in Hs.
    unfold slot in Hs. fold q in Hs.
    rewrite !lookup_take_lt, !lookup_drop in Hs by lia.
    replace (Z.to_nat (Z.of_nat i `div` q * q) + Z.to_nat (Z.of_nat i `mod` q))%nat
      with i in Hs by nia.
    exact Hs.
  - rewrite !(proj2 (lookup_ge_None _ _)) by lia. done.
Qed.

Lemma sampler_stale (f : nat -> D) inv ns nu scal a w :
  heap w !! REAL scal = Some a ->
  let p := dims scal 0 in
  Z.max 1 ns * (p * p) <= INT_MAX ->
  observe (@sampler D rng (with_stale f H) inv ns nu scal w)
  = observe (@sampler D rng H inv ns nu scal w).
Proof.
  intros Ha p Hrange.
  destruct (decide (has_dims scal)) as [Hd|Hd].
  2: { rewrite (@sampler_nodims_error D rng H), (@sampler_nodims_error D rng (with_stale f H))
         by done. done. }
  destruct (decide (square_real scal)) as [Hsq|Hsq].
  2: { rewrite (@sampler_shape_error D rng H), (@sampler_shape_error D rng (with_stale f H))
         by done. done. }
  destruct (Z.lt_ge_cases p 1) as [Hp1|Hp1].
  { destruct (@sampler_xerbla_error D rng H inv ns nu scal a w Hsq Ha Hp1) as (w1 & -> & _).
    destruct (@sampler_xerbla_error D rng (with_stale f H) inv ns nu scal a w Hsq Ha Hp1)
      as (w2 & -> & _).
    done. }
  destruct (decide ((@h_dpotrf D rng H p (scale_copy (imul p p) a)).2 = 0)) as [Hinfo|Hinfo].
  2: { destruct (@sampler_pd_error D rng H inv ns nu scal a w Hsq Ha Hp1 Hinfo)
         as (w1 & -> & _).
       destruct (@sampler_pd_error D rng (with_stale f H) inv ns nu scal a w Hsq Ha Hp1 Hinfo)
         as (w2 & -> & _).
       done. }
  destruct (@d_lt D rng H nu (@d_of_int D rng H p) || (p <=? 0)) eqn:Hg.
  - destruct (@sampler_dof_error D rng H inv ns nu scal a w Hsq Ha Hp1 Hinfo Hg)
      as (w1 & -> & _).
    destruct (@sampler_dof_error D rng (with_stale f H) inv ns nu scal a w Hsq Ha Hp1 Hinfo Hg)
      as (w2 & -> & _).
    done.
  - assert (Hp : 1 <= p).
    { apply orb_false_elim in Hg as [_ Hp]. apply Z.leb_gt in Hp. lia. }
    assert (Hpp : p * p <= INT_MAX) by nia.
    pose proof (coerced_pos ns) as Hn.
    destruct (@sampler_run D rng H inv ns nu scal a w Hsq Ha Hinfo Hg)
      as (ans1 & _ & ->).
    destruct (@sampler_run D rng (with_stale f H) inv ns nu scal a w Hsq Ha Hinfo Hg)
      as (ans2 & _ & ->).
    unfold observe, block, REAL. cbn [heap sx_data sx_dim].
    rewrite !lookup_insert_eq. cbn [default from_option id].
    change (@rounds D rng (with_stale f H)) with (@rounds D rng H).
    change (@h_dpotrf D rng (with_stale f H)) with (@h_dpotrf D rng H).
    change (@d_zero D rng (with_stale f H)) with (@d_zero D rng H).
    change (@h_stale D rng (with_stale f H)) with f.
    fold p.
    set (U := overwrite _ _).
    set (T := replicate _ _).
    set (A1 := f <$> _). set (A2 := h_stale <$> _).
    assert (HA1 : length A1 = Z.to_nat (p * p * coerced ns))
      by (unfold A1; by rewrite length_fmap, length_seq).
    assert (HA2 : length A2 = Z.to_nat (p * p * coerced ns))
      by (unfold A2; by rewrite length_fmap, length_seq).
    assert (HT : length T = Z.to_nat (p * p))
      by (unfold T; by rewrite length_replicate, psqr_exact).
    f_equal. f_equal.
    apply (slots_ext p (coerced ns)); [nia | lia | | |].
    + destruct (rounds_shape inv nu p U (coerced ns) A1 T (gen w)) as [-> _]. done.
    + destruct (rounds_shape inv nu p U (coerced ns) A2 T (gen w)) as [-> _]. done.
    + intros j Hj.
      assert (Hsz : coerced ns * (p * p) <= INT_MAX) by (by rewrite coerced_max).
      rewrite !(slot_rounds nu p Hp Hpp inv U (gen w) (coerced ns) Hsz) by done. done.
Qed.

(** X12. No double of the memory that alloc3DArray leaves uninitialised
    reaches the caller: with max(1, ns) * p * p an [int], what a call of
    either entry point raises or returns is the same whatever that memory
    held, every double of the array that is returned having been written
    by the copy at the end of a round. *)
Theorem stale_memory_never_returned (f : nat -> D) ns nu scal a w :
  heap w !! REAL scal = Some a ->
  let p := dims scal 0 in
  Z.max 1 ns * (p * p) <= INT_MAX ->
  observe (@rCholWishart D rng (with_stale f H) ns nu scal w)
  = observe (@rCholWishart D rng H ns nu scal w)
  /\ observe (@rInvCholWishart D rng (with_stale f H) ns nu scal w)
     = observe (@rInvCholWishart D rng H ns nu scal w).
Proof.
  intros Ha p Hrange. split.
  - exact (sampler_stale f false ns nu scal a w Ha Hrange).
  - exact (sampler_stale f true ns nu scal a w Ha Hrange).
Qed.

End Stale.

(** ** The further properties on the integer host *)

(** nu = 1 < p = 2 is refused with nothing done; nu = 5 with p = 2 draws
    three variates, two of them chi-squared. *)
Lemma factor_guard_or_draws_witness :
  std_rWishart_factor 1 2 1 1%positive (world_of [7; 7; 7; 7] [16; 9; 3])
  = (Raise msg_dof, world_of [7; 7; 7; 7] [16; 9; 3])
  /\ exists b',
       std_rWishart_factor 5 2 1 1%positive (world_of [7; 7; 7; 7] [16; 9; 3])
       = (Ok 1%positive,
          mkWorld (<[1%positive := b']> (heap (world_of [7; 7; 7; 7] [16; 9; 3])))
                  (serve (draw_order 5 2) [16; 9; 3]).2
                  ([] ++ draw_order 5 2))
       /\ length b' = 4%nat
       /\ Z.of_nat (count is_draw (draw_order 5 2)) = 3
       /\ Z.of_nat (count is_chisq (draw_order 5 2)) = 2.
Proof.
  split.
  - apply (factor_guard_or_draws 1 2 1 1%positive (world_of [7; 7; 7; 7] [16; 9; 3])).
    vm_compute. reflexivity.
  - refine (proj2 (factor_guard_or_draws 5 2 1 1%positive
                     (world_of [7; 7; 7; 7] [16; 9; 3])) _ _ _);
      [vm_compute; reflexivity | vm_compute; discriminate | vm_compute; lia].
Defined.

(** The 2-by-2 factor with nu = 5 from the stream 16, 9, 3, in any block
    of at least four doubles. *)
Lemma factor_overwrites_its_matrix_witness :
  exists f : list Z,
    length f = Z.to_nat (2 * 2)
    /\ forall l (w : world Z (list Z)),
         gen w = [16; 9; 3] ->
         (Z.to_nat (2 * 2) <= length (block w l))%nat ->
         exists w',
           std_rWishart_factor 5 2 1 l w = (Ok l, w')
           /\ block w' l = f ++ drop (Z.to_nat (2 * 2)) (block w l)
           /\ forall l', l' <> l -> heap w' !! l' = heap w !! l'.
Proof.
  refine (factor_overwrites_its_matrix 5 2 1 [16; 9; 3] _ _ _);
    [lia | vm_compute; discriminate | vm_compute; reflexivity].
Defined.

Lemma factor_lower_is_transpose_witness :
  exists w0' w1',
    std_rWishart_factor 5 2 0 1%positive (world_of [7; 7; 7; 7] [16; 9; 3])
      = (Ok 1%positive, w0')
    /\ std_rWishart_factor 5 2 1 1%positive (world_of [8; 8; 8; 8; 8] [16; 9; 3])
      = (Ok 1%positive, w1')
    /\ gen w0' = gen w1'
    /\ forall r c, 0 <= r < 2 -> 0 <= c < 2 ->
         entry 2 (block w1' 1%positive) r c = entry 2 (block w0' 1%positive) c r.
Proof.
  refine (factor_lower_is_transpose 5 2 1 1%positive 1%positive
           (world_of [7; 7; 7; 7] [16; 9; 3]) (world_of [8; 8; 8; 8; 8] [16; 9; 3]) _ _ _ _ _ _ _);
    [lia | vm_compute; discriminate | vm_compute; reflexivity | lia | reflexivity
    | vm_compute; lia | vm_compute; lia].
Defined.

(** The matrix [[4, 2], [2, 5]] with nu = 5 passes every test; the matrix
    (-1) is refused as not positive-definite although nu = 0 is below its
    order; the empty matrix is refused by dpotrf. *)
Lemma error_precedence_witness :
  both (fun f =>
    exists s w',
      f 2 5 (matrix_of 2) (world_of [4; 2; 2; 5] [16; 9; 3; 25; 7; 49]) = (Ok s, w'))
  /\ both (fun f => exists w', f 1 0 (matrix_of 1) (world_of [-1] [1]) = (Raise msg_pd, w'))
  /\ both (fun f =>
       exists w', f 4 3 (matrix_of 0) (world_of [] [5]) = (Raise msg_xerbla_lda, w')).
Proof.
  split; [|split].
  - destruct (error_precedence 2 5 (matrix_of 2) [4; 2; 2; 5]
                (world_of [4; 2; 2; 5] [16; 9; 3; 25; 7; 49])
                ltac:(vm_compute; reflexivity)) as [(_ & _ & _ & H1) (_ & _ & _ & H2)].
    split;
      [destruct H1 as (_ & _ & H) | destruct H2 as (_ & _ & H)];
      try (apply H; split; [by repeat split | split; vm_compute; reflexivity]);
      vm_compute; discriminate.
  - destruct (error_precedence 1 0 (matrix_of 1) [-1] (world_of [-1] [1])
                ltac:(vm_compute; reflexivity)) as [(_ & _ & _ & H1) (_ & _ & _ & H2)].
    split;
      [destruct H1 as (H & _) | destruct H2 as (H & _)];
      try (apply H; split; [by repeat split | vm_compute; discriminate]);
      vm_compute; discriminate.
  - destruct (error_precedence 4 3 (matrix_of 0) [] (world_of [] [5])
                ltac:(vm_compute; reflexivity)) as [(_ & _ & H1 & _) (_ & _ & H2 & _)].
    split; [apply H1 | apply H2]; (split; [by repeat split | reflexivity]).
Defined.


Lemma returned_call_frees_work_blocks_witness :
  both (fun f =>
    exists s w' ev,
      f 2 5 (matrix_of 2) (world_of [4; 2; 2; 5] [16; 9; 3; 25; 7; 49]) = (Ok s, w')
      /\ heap (world_of [4; 2; 2; 5] [16; 9; 3; 25; 7; 49]) !! REAL s = None
      /\ heap w' = <[REAL s := block w' (REAL s)]>
                     (heap (world_of [4; 2; 2; 5] [16; 9; 3; 25; 7; 49]))
      /\ events_of (world_of [4; 2; 2; 5] [16; 9; 3; 25; 7; 49]) w' ev
      /\ count is_calloc ev = 2%nat
      /\ count is_free ev = 2%nat).
Proof.
  refine (returned_call_frees_work_blocks 2 5 (matrix_of 2) [4; 2; 2; 5]
           (world_of [4; 2; 2; 5] [16; 9; 3; 25; 7; 49]) _ _ _ _ _);
    [by repeat split | vm_compute; reflexivity | vm_compute; discriminate
    | vm_compute; reflexivity | vm_compute; reflexivity].
Defined.

(** Two samples of order 2: three draws and one dtrmm, twice. *)
Lemma rCholWishart_trace_witness :
  exists s w',
    rCholWishart 2 5 (matrix_of 2) (world_of [4; 2; 2; 5] [16; 9; 3; 25; 7; 49]) = (Ok s, w')
    /\ events_of (world_of [4; 2; 2; 5] [16; 9; 3; 25; 7; 49]) w'
         [EvAlloc3D 2 2 2; EvCalloc 4; EvCalloc 4; EvDpotrf 2 [4; 2; 2; 5] 0; EvGetRNG;
          EvChisq 5; EvChisq 4; EvNorm; EvDtrmm 2;
          EvChisq 5; EvChisq 4; EvNorm; EvDtrmm 2;
          EvPutRNG; EvFree; EvFree].
Proof.
  refine (rCholWishart_trace 2 5 (matrix_of 2) [4; 2; 2; 5]
           (world_of [4; 2; 2; 5] [16; 9; 3; 25; 7; 49]) _ _ _ _ _);
    [by repeat split | vm_compute; reflexivity | vm_compute; discriminate
    | vm_compute; reflexivity | vm_compute; reflexivity].
Defined.

Lemma rInvCholWishart_trace_witness :
  exists s w' ev,
    rInvCholWishart 2 5 (matrix_of 2) (world_of [4; 2; 2; 5] [16; 9; 3; 25; 7; 49]) = (Ok s, w')
    /\ events_of (world_of [4; 2; 2; 5] [16; 9; 3; 25; 7; 49]) w'
         ([EvAlloc3D 2 2 2; EvCalloc 4; EvCalloc 4; EvDpotrf 2 [4; 2; 2; 5] 0; EvGetRNG]
          ++ ev ++ [EvPutRNG; EvFree; EvFree])
    /\ filter (fun e => negb (is_dtrtri e)) ev
       = [EvChisq 5; EvChisq 4; EvNorm; EvDtrmm 2; EvChisq 5; EvChisq 4; EvNorm; EvDtrmm 2]
    /\ Z.of_nat (count is_dtrtri ev) = 2
    /\ Forall (fun e => is_dtrtri e = true -> exists info, e = EvDtrtri 2 info) ev.
Proof.
  refine (rInvCholWishart_trace 2 5 (matrix_of 2) [4; 2; 2; 5]
           (world_of [4; 2; 2; 5] [16; 9; 3; 25; 7; 49]) _ _ _ _ _);
    [by repeat split | vm_compute; reflexivity | vm_compute; discriminate
    | vm_compute; reflexivity | vm_compute; reflexivity].
Defined.

Lemma variates_consumed_witness :
  both (fun f =>
    exists s w' ev,
      f 2 5 (matrix_of 2) (world_of [4; 2; 2; 5] [16; 9; 3; 25; 7; 49]) = (Ok s, w')
      /\ events_of (world_of [4; 2; 2; 5] [16; 9; 3; 25; 7; 49]) w' ev
      /\ Z.of_nat (count is_draw ev) = Z.max 1 2 * ((2 * (2 + 1)) `div` 2)
      /\ Z.of_nat (count is_chisq ev) = Z.max 1 2 * 2
      /\ count is_dpotrf ev = 1%nat
      /\ Z.of_nat (count is_dtrmm ev) = Z.max 1 2
      /\ gen w' = (serve (requests 5 2 (Z.to_nat (Z.max 1 2))) [16; 9; 3; 25; 7; 49]).2).
Proof.
  refine (variates_consumed 2 5 (matrix_of 2) [4; 2; 2; 5]
           (world_of [4; 2; 2; 5] [16; 9; 3; 25; 7; 49]) _ _ _ _ _);
    [by repeat split | vm_compute; reflexivity | vm_compute; discriminate
    | vm_compute; reflexivity | vm_compute; reflexivity].
Defined.

(** One sample and then one more, against two samples at once. *)
Lemma calls_compose_witness :
  both (fun f =>
    exists s1 w1 s2 w2 s w',
      f 1 5 (matrix_of 2) (world_of [4; 2; 2; 5] [16; 9; 3; 25; 7; 49]) = (Ok s1, w1)
      /\ f 1 5 (matrix_of 2) w1 = (Ok s2, w2)
      /\ f (Z.max 1 1 + Z.max 1 1) 5 (matrix_of 2)
           (world_of [4; 2; 2; 5] [16; 9; 3; 25; 7; 49]) = (Ok s, w')
      /\ gen w2 = gen w'
      /\ (forall j, 0 <= j < Z.max 1 1 ->
            slot 2 j (block w1 (REAL s1)) = slot 2 j (block w' (REAL s)))
      /\ (forall j, 0 <= j < Z.max 1 1 ->
            slot 2 j (block w2 (REAL s2)) = slot 2 (Z.max 1 1 + j) (block w' (REAL s)))).
Proof.
  refine (calls_compose 1 1 5 (matrix_of 2) [4; 2; 2; 5]
           (world_of [4; 2; 2; 5] [16; 9; 3; 25; 7; 49]) _ _ _ _ _ _);
    [by repeat split | vm_compute; reflexivity | vm_compute; discriminate
    | vm_compute; discriminate | vm_compute; reflexivity | vm_compute; reflexivity].
Defined.

(** The 1-by-1 matrix (1) with a first chi-squared variate 0: dtrtri
    reports info = 1, and nothing changes when it reports 0 instead. *)
Lemma dtrtri_info_never_read_witness :
  observe (@rInvCholWishart Z (list Z) (mute_dtrtri int_host) 1 1 (matrix_of 1)
             (world_of [1] [0]))
  = observe (@rInvCholWishart Z (list Z) int_host 1 1 (matrix_of 1) (world_of [1] [0]))
  /\ gen (@rInvCholWishart Z (list Z) (mute_dtrtri int_host) 1 1 (matrix_of 1)
            (world_of [1] [0])).2
     = gen (@rInvCholWishart Z (list Z) int_host 1 1 (matrix_of 1) (world_of [1] [0])).2.
Proof.
  refine (dtrtri_info_never_read int_host 1 1 (matrix_of 1) [1] _ _).
  vm_compute. reflexivity.
Defined.

Lemma stale_memory_never_returned_witness :
  observe (@rCholWishart Z (list Z) (with_stale (fun k => Z.of_nat k + 1000) int_host)
             2 5 (matrix_of 2) (world_of [4; 2; 2; 5] [16; 9; 3; 25; 7; 49]))
  = observe (@rCholWishart Z (list Z) int_host 2 5 (matrix_of 2)
               (world_of [4; 2; 2; 5] [16; 9; 3; 25; 7; 49]))
  /\ observe (@rInvCholWishart Z (list Z) (with_stale (fun k => Z.of_nat k + 1000) int_host)
                2 5 (matrix_of 2) (world_of [4; 2; 2; 5] [16; 9; 3; 25; 7; 49]))
     = observe (@rInvCholWishart Z (list Z) int_host 2 5 (matrix_of 2)
                  (world_of [4; 2; 2; 5] [16; 9; 3; 25; 7; 49])).
Proof.
  refine (stale_memory_never_returned int_host (fun k => Z.of_nat k + 1000)
           2 5 (matrix_of 2) [4; 2; 2; 5] _ _ _);
    [vm_compute; reflexivity | vm_compute; discriminate].
Defined.
